(** * Type resolution and schema derivation of the Echo static analyzer

    A shallow embedding of the [types] package (registry.go, package
    resolver, variable tracker, response analyzer and schema generator) and
    the properties of it that the specification states.

    Go pointers to [TypeDefinition] are addresses into an explicit heap, so
    that shared and cyclic type graphs are representable and in-place updates
    ([typeDef.IsResolved = true]) are visible through every alias.  Go maps
    are [gmap]s.  Recursion in the source that is not structural (over the
    type graph, over the package import graph) carries a fuel argument that
    bounds the depth of nested calls; running out of fuel is an outcome of
    its own, distinct from a Go panic. *)

From Stdlib Require Import String Ascii List Bool Arith ZArith Lia.
From stdpp Require Import base option list gmap strings fin_maps.

#[local] Set Warnings "-register-all,-clear-no-such-hyp".

Open Scope string_scope.
Open Scope list_scope.

(** ** Outcomes *)

Inductive result (A : Type) : Type :=
| Ok (a : A)
| OutOfFuel
| Panic.
Arguments Ok {A} a.
Arguments OutOfFuel {A}.
Arguments Panic {A}.

#[global] Instance result_ret : MRet result := fun A a => Ok a.
#[global] Instance result_bind : MBind result := fun A B f m =>
  match m with
  | Ok a => f a
  | OutOfFuel => OutOfFuel
  | Panic => Panic
  end.
#[global] Instance result_fmap : FMap result := fun A B f m =>
  match m with
  | Ok a => Ok (f a)
  | OutOfFuel => OutOfFuel
  | Panic => Panic
  end.

Definition returns {A} (m : result A) : Prop := exists a, m = Ok a.

(** A loop over a slice whose body may fail: [for _, x := range l { ... }]. *)
Fixpoint forEach {A B} (body : B -> A -> result B) (b : B) (l : list A)
  : result B :=
  match l with
  | [] => Ok b
  | x :: l' => b' ← body b x; forEach body b' l'
  end.

(** ** registry.go: the data model *)

Inductive TypeKind := KindStruct | KindArray | KindMap | KindBasic | KindPointer.

Definition addr := nat.

(** A [*TypeDefinition]: [None] is Go's nil. *)
Definition ptr := option addr.

Record FieldDefinition := mkField {
  FieldName : string;
  FieldType : ptr;
  JSONName : string;
  Omitempty : bool;
  IsPointer : bool
}.

Record TypeDefinition := mkType {
  Name : string;
  Kind : TypeKind;
  Fields : list FieldDefinition;
  ElementType : ptr;
  KeyType : ptr;
  ValueType : ptr;
  Package : string;
  BasicType : string;
  IsResolved : bool
}.

Abbreviation heap := (list TypeDefinition).

Record PackageInfo := mkPackageInfo {
  Types : gmap string addr;
  Imports : gmap string string
}.

Record TypeRegistry := mkRegistry {
  Packages : gmap string PackageInfo;
  CurrentPackage : string
}.

#[global] Instance TypeKind_eq_dec : EqDecision TypeKind.
Proof. solve_decision. Defined.
#[global] Instance FieldDefinition_eq_dec : EqDecision FieldDefinition.
Proof. solve_decision. Defined.
#[global] Instance TypeDefinition_eq_dec : EqDecision TypeDefinition.
Proof. solve_decision. Defined.

(** ** String helpers of Go's [strings] package, for one-byte separators *)

Definition dot : ascii := "."%char.
Definition space : ascii := " "%char.
Definition comma : ascii := ","%char.
Definition backtick : ascii := "`"%char.
Definition dquote : ascii := "034"%char.

(** [strings.Contains(s, string(c))] *)
Fixpoint containsByte (c : ascii) (s : string) : bool :=
  match s with
  | EmptyString => false
  | String a s' => if decide (a = c) then true else containsByte c s'
  end.

(** [strings.Split(s, string(c))]: never empty, one more piece than there
    are separators. *)
Fixpoint split (c : ascii) (s : string) : list string :=
  match s with
  | EmptyString => [EmptyString]
  | String a s' =>
      if decide (a = c) then EmptyString :: split c s'
      else match split c s' with
           | [] => [String a EmptyString]
           | x :: xs => String a x :: xs
           end
  end.

(** [strings.SplitN(s, string(c), 2)] for an [s] that contains [c]:
    the text before and after the first [c]. *)
Fixpoint splitN2 (c : ascii) (s : string) : string * string :=
  match s with
  | EmptyString => (EmptyString, EmptyString)
  | String a s' =>
      if decide (a = c) then (EmptyString, s')
      else let '(x, y) := splitN2 c s' in (String a x, y)
  end.

Fixpoint trimLeft (c : ascii) (s : string) : string :=
  match s with
  | EmptyString => EmptyString
  | String a s' => if decide (a = c) then trimLeft c s' else s
  end.

Definition revString (s : string) : string :=
  string_of_list_ascii (rev (list_ascii_of_string s)).

(** [strings.Trim(s, string(c))] *)
Definition trim (c : ascii) (s : string) : string :=
  revString (trimLeft c (revString (trimLeft c s))).

(** [strings.HasPrefix(s, p)] *)
Fixpoint hasPrefix (s p : string) : bool :=
  match p, s with
  | EmptyString, _ => true
  | String b p', String a s' => if decide (a = b) then hasPrefix s' p' else false
  | String _ _, EmptyString => false
  end.

(** [strings.TrimPrefix(s, p)] *)
Fixpoint dropBytes (n : nat) (s : string) : string :=
  match n, s with
  | S n', String _ s' => dropBytes n' s'
  | _, _ => s
  end.

Definition trimPrefix (s p : string) : string :=
  if hasPrefix s p then dropBytes (String.length p) s else s.

(** ** The part of [go/ast] that the package inspects

    Only the node shapes that the code tells apart have constructors of
    their own; [BinaryExpr] and [ParenExpr] stand for the shapes that fall
    through every type switch.  A nil [*ast.FieldList] is the empty list. *)

Inductive token :=
| DEFINE | ASSIGN | ADD_ASSIGN
| ADD | AND | SUB | MUL
| STRING | INT | FLOAT | CHAR | IMAG
| VAR | CONST | TYPE | IMPORT.

#[global] Instance token_eq_dec : EqDecision token.
Proof. solve_decision. Defined.

Inductive Expr : Type :=
| Ident (name : string)
| SelectorExpr (X : Expr) (Sel : string)
| CallExpr (Fun : Expr) (Args : list Expr)
| UnaryExpr (Op : token) (X : Expr)
| BinaryExpr (X : Expr) (Op : token) (Y : Expr)
| ParenExpr (X : Expr)
| CompositeLit (Ty : option Expr) (Elts : list Expr)
| BasicLit (Kd : token) (Value : string)
| StarExpr (X : Expr)
| ArrayType (Elt : Expr)
| MapType (Key Value : Expr)
| StructType (Flds : list Field)
with Field : Type :=
| mkASTField (Names : list string) (Ty : Expr) (Tag : option string).

Definition FieldNames (f : Field) := let 'mkASTField n _ _ := f in n.
Definition FieldTypeExpr (f : Field) := let 'mkASTField _ t _ := f in t.
Definition FieldTag (f : Field) := let 'mkASTField _ _ t := f in t.

(** [isPointerType]: a nil expression is not a [*ast.StarExpr]. *)
Definition isPointerType (expr : option Expr) : bool :=
  match expr with
  | Some (StarExpr _) => true
  | _ => false
  end.

Definition isBasicType (name : string) : bool :=
  bool_decide (name ∈ ["bool"; "int"; "int8"; "int16"; "int32"; "int64";
                       "uint"; "uint8"; "uint16"; "uint32"; "uint64"; "uintptr";
                       "float32"; "float64"; "complex64"; "complex128";
                       "string"; "byte"; "rune"; "error"]).

(** [extractJSONTag], on the raw tag literal of the field ([None] when the
    field has no tag). *)
Definition jsonTagOf (tagValue : string) : string :=
  match filter (fun tag => hasPrefix tag "json:" = true) (split space tagValue) with
  | tag :: _ => trim dquote (trimPrefix tag "json:")
  | [] => ""
  end.

Definition extractJSONTag (tag : option string) : string * bool :=
  match tag with
  | None => ("", false)
  | Some tagValue =>
      let tagValue := trim backtick tagValue in
      let jsonTag := jsonTagOf tagValue in
      if decide (jsonTag = "") then ("", false)
      else
        let parts := split comma jsonTag in
        let jsonName := hd "" parts in
        let omitempty := bool_decide ("omitempty" ∈ tail parts) in
        if decide (jsonName = "-") then ("", true)
        else (jsonName, omitempty)
  end.

(** ** registry.go: the registry operations

    The registry object and every [TypeDefinition] live in one store; a
    [*PackageInfo] is held by value under its package path and written back
    where the source writes through the pointer. *)

Record store := mkStore {
  Heap : heap;
  Registry : TypeRegistry
}.

Definition deref (h : heap) (a : addr) : result TypeDefinition :=
  match h !! a with
  | Some td => Ok td
  | None => Panic
  end.

(** [&TypeDefinition{...}]: a fresh address. *)
Definition alloc (td : TypeDefinition) (st : store) : store * addr :=
  (mkStore (Heap st ++ [td])%list (Registry st), length (Heap st)).

Definition newPackageInfo : PackageInfo := mkPackageInfo ∅ ∅.

Definition RegisterPackage (packagePath : string) (r : TypeRegistry)
  : TypeRegistry * PackageInfo :=
  match Packages r !! packagePath with
  | Some pkg => (r, pkg)
  | None =>
      (mkRegistry (<[packagePath := newPackageInfo]> (Packages r))
                  (CurrentPackage r),
       newPackageInfo)
  end.

Definition SetCurrentPackage (packagePath : string) (r : TypeRegistry)
  : TypeRegistry :=
  (RegisterPackage packagePath (mkRegistry (Packages r) packagePath)).1.

Definition RegisterImport (alias packagePath : string) (r : TypeRegistry)
  : TypeRegistry :=
  let '(r', pkg) := RegisterPackage (CurrentPackage r) r in
  mkRegistry
    (<[CurrentPackage r :=
         mkPackageInfo (Types pkg) (<[alias := packagePath]> (Imports pkg))]>
       (Packages r'))
    (CurrentPackage r').

(** [RegisterType(typeDef)], with [typeDef.Name] already read. *)
Definition RegisterType (name : string) (typeDef : addr) (r : TypeRegistry)
  : TypeRegistry :=
  let '(r', pkg) := RegisterPackage (CurrentPackage r) r in
  mkRegistry
    (<[CurrentPackage r :=
         mkPackageInfo (<[name := typeDef]> (Types pkg)) (Imports pkg)]>
       (Packages r'))
    (CurrentPackage r').

Definition LookupType (name : string) (r : TypeRegistry) : TypeRegistry * ptr :=
  if containsByte dot name then
    let '(pkgAlias, typeName) := splitN2 dot name in
    let '(r', pkg) := RegisterPackage (CurrentPackage r) r in
    (r', pkgPath ← Imports pkg !! pkgAlias;
         importedPkg ← Packages r' !! pkgPath;
         Types importedPkg !! typeName)
  else
    let '(r', pkg) := RegisterPackage (CurrentPackage r) r in
    (r', Types pkg !! name).

Definition lookupIn (name : string) (st : store) : store * ptr :=
  let '(r', p) := LookupType name (Registry st) in (mkStore (Heap st) r', p).

(** The [FieldDefinition]s that one [ast.Field] contributes: one per name. *)
Definition fieldDefs (f : Field) (fieldType : ptr) : list FieldDefinition :=
  let '(jsonName, omitempty) := extractJSONTag (FieldTag f) in
  map (fun name => mkField name fieldType jsonName omitempty
                     (isPointerType (Some (FieldTypeExpr f))))
      (FieldNames f).

(** [ResolveType] on a non-nil expression. *)
Fixpoint ResolveType (expr : Expr) (st : store) {struct expr}
  : result (store * ptr) :=
  let cur := CurrentPackage (Registry st) in
  match expr with
  | Ident name =>
      if isBasicType name
      then let '(st', a) := alloc (mkType name KindBasic [] None None None
                                          cur name true) st in
           Ok (st', Some a)
      else Ok (lookupIn name st)
  | SelectorExpr (Ident x) sel => Ok (lookupIn (x +:+ "." +:+ sel) st)
  | ArrayType elt =>
      '(st1, elemType) ← ResolveType elt st;
      match elemType with
      | None => Ok (st1, None)
      | Some e =>
          et ← deref (Heap st1) e;
          let '(st2, a) :=
            alloc (mkType ("[]" +:+ Name et) KindArray [] elemType None None
                          (CurrentPackage (Registry st1)) "" (IsResolved et)) st1 in
          Ok (st2, Some a)
      end
  | MapType key value =>
      '(st1, keyType) ← ResolveType key st;
      '(st2, valueType) ← ResolveType value st1;
      match keyType, valueType with
      | Some k, Some v =>
          kt ← deref (Heap st2) k;
          vt ← deref (Heap st2) v;
          let '(st3, a) :=
            alloc (mkType ("map[" +:+ Name kt +:+ "]" +:+ Name vt) KindMap []
                          None keyType valueType
                          (CurrentPackage (Registry st2)) ""
                          (IsResolved kt && IsResolved vt)) st2 in
          Ok (st3, Some a)
      | _, _ => Ok (st2, None)
      end
  | StarExpr x =>
      '(st1, elemType) ← ResolveType x st;
      match elemType with
      | None => Ok (st1, None)
      | Some e =>
          et ← deref (Heap st1) e;
          let '(st2, a) :=
            alloc (mkType ("*" +:+ Name et) KindPointer [] elemType None None
                          (CurrentPackage (Registry st1)) "" (IsResolved et)) st1 in
          Ok (st2, Some a)
      end
  | StructType flds =>
      let '(st0, a) := alloc (mkType "anonymous" KindStruct [] None None None
                                     cur "" true) st in
      let fix fieldList (l : list Field) (st : store) (acc : list FieldDefinition)
            (resolved : bool) : result (store * list FieldDefinition * bool) :=
        match l with
        | [] => Ok (st, acc, resolved)
        | mkASTField names ty tag :: l' =>
            '(st1, fieldType) ← ResolveType ty st;
            match fieldType with
            | None => fieldList l' st1 acc false
            | Some _ =>
                fieldList l' st1
                  (acc ++ fieldDefs (mkASTField names ty tag) fieldType)%list resolved
            end
        end in
      '(st1, fields, resolved) ← fieldList flds st0 [] true;
      Ok (mkStore (<[a := mkType "anonymous" KindStruct fields None None None
                                 cur "" resolved]> (Heap st1))
                  (Registry st1),
          Some a)
  | _ => Ok (st, None)
  end.

(** [ResolveType] on an expression that may be nil. *)
Definition ResolveTypeOpt (expr : option Expr) (st : store)
  : result (store * ptr) :=
  match expr with
  | None => Ok (st, None)
  | Some e => ResolveType e st
  end.

(** ** The package resolver *)

(** [typeDef.IsResolved = true] *)
Definition markResolved (td : TypeDefinition) : TypeDefinition :=
  mkType (Name td) (Kind td) (Fields td) (ElementType td) (KeyType td)
         (ValueType td) (Package td) (BasicType td) true.

Definition setResolved (a : addr) (h : heap) : heap := alter markResolved a h.

(** [PackageResolver.resolveType]: an already resolved type is skipped; the
    flag is set only after the fields, element, key and value types have
    been visited.  [fuel] bounds the nesting of calls that are not skipped. *)
Fixpoint resolveType (fuel : nat) (h : heap) (typeDef : addr) : result heap :=
  td ← deref h typeDef;
  if IsResolved td then Ok h
  else
    match fuel with
    | O => OutOfFuel
    | S n =>
        let visit (h : heap) (p : ptr) : result heap :=
          match p with
          | None => Ok h
          | Some b => resolveType n h b
          end in
        h' ← match Kind td with
             | KindStruct =>
                 forEach (fun h field => visit h (FieldType field)) h (Fields td)
             | KindArray => visit h (ElementType td)
             | KindMap => h1 ← visit h (KeyType td); visit h1 (ValueType td)
             | KindPointer => visit h (ElementType td)
             | KindBasic => Ok h
             end;
        Ok (setResolved typeDef h')
    end.

(** The import paths that count as dependencies: those with a dot. *)
Definition isLocalImport (importPath : string) : bool := containsByte dot importPath.

Section PackageResolver.
(** Go leaves the order of [range] over a map unspecified.  [rangeOver]
    is the order taken; it enumerates exactly the entries of the map. *)
Variable rangeOver : forall A : Type, gmap string A -> list (string * A).
Hypothesis rangeOver_perm :
  forall (A : Type) (m : gmap string A), rangeOver A m ≡ₚ map_to_list m.

Definition buildPackageDependencies (r : TypeRegistry)
  : gmap string (list string) :=
  (fun pkgInfo =>
     filter (fun importPath => isLocalImport importPath = true)
            (snd <$> rangeOver _ (Imports pkgInfo)))
  <$> Packages r.

(** [resolvePackageTypes]; [tfuel] is the fuel of each [resolveType]. *)
Definition resolvePackageTypes (tfuel : nat) (pkgPath : string) (st : store)
  : result store :=
  let r := SetCurrentPackage pkgPath (Registry st) in
  match Packages r !! pkgPath with
  | None => Ok (mkStore (Heap st) r)
  | Some pkgInfo =>
      h' ← forEach (fun h entry => resolveType tfuel h entry.2)
                   (Heap st) (rangeOver _ (Types pkgInfo));
      Ok (mkStore h' r)
  end.

(** [resolvePackageDependencies]: the package is marked resolved only
    after its dependencies have been visited.  [fuel] bounds the nesting
    of calls on packages that are not yet marked. *)
Fixpoint resolvePackageDependencies (fuel tfuel : nat) (pkgPath : string)
  (dependencies : gmap string (list string))
  (acc : gset string * store) : result (gset string * store) :=
  let '(resolved, st) := acc in
  if decide (pkgPath ∈ resolved) then Ok acc
  else
    match fuel with
    | O => OutOfFuel
    | S n =>
        '(resolved1, st1) ←
          forEach (fun acc dep =>
                     resolvePackageDependencies n tfuel dep dependencies acc)
                  acc (default [] (dependencies !! pkgPath));
        st2 ← resolvePackageTypes tfuel pkgPath st1;
        Ok ({[pkgPath]} ∪ resolved1, st2)
    end.

(** [ResolvePackages].  The loop ranges over the packages present when it
    starts: a package that [SetCurrentPackage] adds while the loop runs is
    already marked resolved when it is added, so visiting it again would
    return at once. *)
Definition ResolvePackages (fuel : nat) (st : store) : result store :=
  let dependencies := buildPackageDependencies (Registry st) in
  '(_, st') ←
    forEach (fun acc entry =>
               resolvePackageDependencies fuel fuel entry.1 dependencies acc)
            (∅, st) (rangeOver _ (Packages (Registry st)));
  Ok st'.
End PackageResolver.

(** [typeDef.Fields = append(typeDef.Fields, fieldDef)] *)
Definition appendField (fd : FieldDefinition) (td : TypeDefinition)
  : TypeDefinition :=
  mkType (Name td) (Kind td) (Fields td ++ [fd]) (ElementType td) (KeyType td)
         (ValueType td) (Package td) (BasicType td) (IsResolved td).

(** [PackageResolver.processTypeDeclaration] on [type typeName struct {...}]:
    the type is registered before its fields are resolved, so a field may
    refer back to it.  The field type is resolved once for every name. *)
Definition processStructDeclaration (typeName packagePath : string)
  (flds : list Field) (st : store) : result store :=
  let '(st0, a) := alloc (mkType typeName KindStruct [] None None None
                                 packagePath "" false) st in
  let st1 := mkStore (Heap st0) (RegisterType typeName a (Registry st0)) in
  forEach (fun st f =>
    forEach (fun st name =>
      let '(jsonName, omitempty) := extractJSONTag (FieldTag f) in
      '(st', fieldType) ← ResolveType (FieldTypeExpr f) st;
      let fieldDef := mkField name fieldType jsonName omitempty
                              (isPointerType (Some (FieldTypeExpr f))) in
      Ok (mkStore (alter (appendField fieldDef) a (Heap st')) (Registry st')))
      st (FieldNames f))
    st1 flds.

(** ** The type collector *)

(** The placeholder that [TypeCollector.resolveType] puts where a type is
    still to be resolved. *)
Definition placeholderString (pkg : string) : TypeDefinition :=
  mkType "string" KindBasic [] None None None pkg "string" true.

(** The [FieldDefinition]s that the collector creates for one [ast.Field]:
    one per name, with the type left nil. *)
Definition collectedFields (f : Field) : list FieldDefinition :=
  let '(jsonName, omitempty) := extractJSONTag (FieldTag f) in
  map (fun name => mkField name None jsonName omitempty
                     (isPointerType (Some (FieldTypeExpr f))))
      (FieldNames f).

(** [TypeCollector.processTypeDeclaration] on [type typeName ty]. *)
Definition collectTypeDeclaration (typeName : string) (ty : Expr) (st : store)
  : store :=
  let cur := CurrentPackage (Registry st) in
  let register (td : TypeDefinition) : store :=
    let '(st0, a) := alloc td st in
    mkStore (Heap st0) (RegisterType typeName a (Registry st0)) in
  match ty with
  | StructType flds =>
      register (mkType typeName KindStruct (flat_map collectedFields flds)
                       None None None cur "" false)
  | ArrayType _ =>
      register (mkType typeName KindArray [] None None None cur "" false)
  | MapType _ _ =>
      register (mkType typeName KindMap [] None None None cur "" false)
  | _ =>
      register (mkType typeName KindBasic [] None None None cur "" true)
  end.

Definition setFieldType (p : ptr) (f : FieldDefinition) : FieldDefinition :=
  mkField (FieldName f) p (JSONName f) (Omitempty f) (IsPointer f).

(** The body of the loop over the fields in [TypeCollector.resolveType]:
    a field whose type is set and resolved is kept, any other field gets a
    fresh placeholder. *)
Definition placeholderField (pkg : string) (acc : store * list FieldDefinition)
  (field : FieldDefinition) : result (store * list FieldDefinition) :=
  let '(st, done) := acc in
  keep ← match FieldType field with
         | None => Ok false
         | Some b => td ← deref (Heap st) b; Ok (IsResolved td)
         end;
  if keep : bool then Ok (st, done ++ [field])
  else
    let '(st', b) := alloc (placeholderString pkg) st in
    Ok (st', done ++ [setFieldType (Some b) field]).

(** [TypeCollector.resolveType] *)
Definition collectorResolveType (typeDef : addr) (st : store) : result store :=
  td ← deref (Heap st) typeDef;
  if IsResolved td then Ok st
  else
    let pkg := Package td in
    match Kind td with
    | KindStruct =>
        '(st', fields) ← forEach (placeholderField pkg) (st, []) (Fields td);
        Ok (mkStore
              (<[typeDef := mkType (Name td) KindStruct fields (ElementType td)
                                   (KeyType td) (ValueType td) pkg (BasicType td)
                                   true]> (Heap st'))
              (Registry st'))
    | KindArray =>
        let '(st', e) := alloc (placeholderString pkg) st in
        Ok (mkStore
              (<[typeDef := mkType (Name td) KindArray (Fields td) (Some e)
                                   (KeyType td) (ValueType td) pkg (BasicType td)
                                   true]> (Heap st'))
              (Registry st'))
    | KindMap =>
        let '(st1, k) := alloc (placeholderString pkg) st in
        let '(st2, v) := alloc (placeholderString pkg) st1 in
        Ok (mkStore
              (<[typeDef := mkType (Name td) KindMap (Fields td) (ElementType td)
                                   (Some k) (Some v) pkg (BasicType td) true]>
                 (Heap st2))
              (Registry st2))
    | _ => Ok (mkStore (setResolved typeDef (Heap st)) (Registry st))
    end.

(** ** Imported types *)

(** [findImportedType]: only a qualified name is looked up. *)
Definition findImportedType (typeName : string) (imports : gmap string string)
  (r : TypeRegistry) : ptr :=
  if containsByte dot typeName then
    let '(pkgAlias, typeName) := splitN2 dot typeName in
    pkgPath ← imports !! pkgAlias;
    importedPkg ← Packages r !! pkgPath;
    Types importedPkg !! typeName
  else None.

(** [field.Type = fieldType] on the field at index [i] of [typeDef]. *)
Definition setFieldTypeAt (i : nat) (p : ptr) (td : TypeDefinition)
  : TypeDefinition :=
  mkType (Name td) (Kind td) (alter (setFieldType p) i (Fields td))
         (ElementType td) (KeyType td) (ValueType td) (Package td)
         (BasicType td) (IsResolved td).

(** [resolveImportedType].  A field is read through its pointer when its
    turn comes, so the loop goes by index over the heap as it then is.
    [fuel] bounds the nesting of calls on types that are not resolved. *)
Fixpoint resolveImportedType (fuel : nat) (typeDef : addr)
  (pkgPath typeName : string) (st : store) : result store :=
  td ← deref (Heap st) typeDef;
  if IsResolved td then Ok st
  else
    match Packages (Registry st) !! pkgPath with
    | None => Ok st
    | Some pkgInfo =>
        match fuel with
        | O => OutOfFuel
        | S n =>
            let visit (st : store) (p : ptr) : result store :=
              match p with
              | None => Ok st
              | Some b =>
                  bt ← deref (Heap st) b;
                  if IsResolved bt then Ok st
                  else resolveImportedType n b (Package bt) (Name bt) st
              end in
            st' ←
              match Kind td with
              | KindStruct =>
                  forEach
                    (fun st i =>
                       cur ← deref (Heap st) typeDef;
                       match Fields cur !! i with
                       | None => Ok st
                       | Some field =>
                           match FieldType field with
                           | None =>
                               match findImportedType (FieldName field)
                                       (Imports pkgInfo) (Registry st) with
                               | Some ft =>
                                   Ok (mkStore
                                         (alter (setFieldTypeAt i (Some ft))
                                                typeDef (Heap st))
                                         (Registry st))
                               | None => Ok st
                               end
                           | Some _ => visit st (FieldType field)
                           end
                       end)
                    st (seq 0 (length (Fields td)))
              | KindArray => visit st (ElementType td)
              | KindMap =>
                  st1 ← visit st (KeyType td);
                  cur ← deref (Heap st1) typeDef;
                  visit st1 (ValueType cur)
              | KindPointer => visit st (ElementType td)
              | KindBasic => Ok st
              end;
            Ok (mkStore (setResolved typeDef (Heap st')) (Registry st'))
        end
    end.

(** ** The variable tracker *)

Record VariableInfo := mkVar {
  VarName : string;
  VarType : addr;
  VarIsPointer : bool
}.

(** The tracker, with the store that its [Registry] pointer leads to.  A
    [VariableInfo] is stored only with a type that is not nil. *)
Record VariableTracker := mkTracker {
  World : store;
  Variables : gmap string VariableInfo;
  FunctionMap : gmap string ptr
}.

Definition withWorld (st : store) (t : VariableTracker) : VariableTracker :=
  mkTracker st (Variables t) (FunctionMap t).

(** [t.Variables[name] = &VariableInfo{...}] *)
Definition setVariable (name : string) (ty : addr) (isPtr : bool)
  (t : VariableTracker) : VariableTracker :=
  mkTracker (World t) (<[name := mkVar name ty isPtr]> (Variables t))
            (FunctionMap t).

Definition GetVariableType (name : string) (t : VariableTracker) : ptr :=
  VarType <$> Variables t !! name.

Definition RegisterFunctionReturnType (funcName : string) (returnType : ptr)
  (t : VariableTracker) : VariableTracker :=
  mkTracker (World t) (Variables t) (<[funcName := returnType]> (FunctionMap t)).

Definition allocIn (td : TypeDefinition) (t : VariableTracker)
  : VariableTracker * ptr :=
  let '(st, a) := alloc td (World t) in (withWorld st t, Some a).

(** The placeholder for a call whose return type is not known. *)
Definition anyType : TypeDefinition :=
  mkType "any" KindBasic [] None None None "" "any" true.

Definition basicLiteral (name : string) : TypeDefinition :=
  mkType name KindBasic [] None None None "" name true.

(** [resolveFunctionCallType], on [call.Fun]. *)
Definition resolveFunctionCallType (fn : Expr) (t : VariableTracker)
  : VariableTracker * ptr :=
  match fn with
  | Ident name =>
      match FunctionMap t !! name with
      | Some returnType => (t, returnType)
      | None => allocIn anyType t
      end
  | SelectorExpr (Ident x) sel =>
      match Variables t !! x with
      | Some _ => allocIn anyType t
      | None =>
          match FunctionMap t !! (x +:+ "." +:+ sel) with
          | Some returnType => (t, returnType)
          | None => allocIn anyType t
          end
      end
  | _ => allocIn anyType t
  end.

Definition findField (name : string) (fields : list FieldDefinition)
  : option FieldDefinition :=
  head (filter (fun field => FieldName field = name) fields).

Fixpoint resolveExpressionType (expr : Expr) (t : VariableTracker)
  : result (VariableTracker * ptr) :=
  match expr with
  | Ident name =>
      match Variables t !! name with
      | Some varInfo => Ok (t, Some (VarType varInfo))
      | None =>
          let '(st, p) := lookupIn name (World t) in Ok (withWorld st t, p)
      end
  | SelectorExpr (Ident x) sel =>
      let '(st, p) := lookupIn (x +:+ "." +:+ sel) (World t) in
      let t1 := withWorld st t in
      match p with
      | Some _ => Ok (t1, p)
      | None =>
          match Variables t1 !! x with
          | None => Ok (t1, None)
          | Some varInfo =>
              td ← deref (Heap (World t1)) (VarType varInfo);
              if decide (Kind td = KindStruct)
              then Ok (t1, field ← findField sel (Fields td); FieldType field)
              else Ok (t1, None)
          end
      end
  | CallExpr fn _ => Ok (resolveFunctionCallType fn t)
  | UnaryExpr AND x =>
      '(t1, innerType) ← resolveExpressionType x t;
      match innerType with
      | None => Ok (t1, None)
      | Some i =>
          it ← deref (Heap (World t1)) i;
          Ok (allocIn (mkType ("*" +:+ Name it) KindPointer [] innerType None
                              None (Package it) "" (IsResolved it)) t1)
      end
  | CompositeLit ty _ =>
      '(st, p) ← ResolveTypeOpt ty (World t); Ok (withWorld st t, p)
  | BasicLit STRING _ => Ok (allocIn (basicLiteral "string") t)
  | BasicLit INT _ => Ok (allocIn (basicLiteral "int") t)
  | BasicLit FLOAT _ => Ok (allocIn (basicLiteral "float64") t)
  | BasicLit CHAR _ => Ok (allocIn (basicLiteral "rune") t)
  | _ => Ok (t, None)
  end.

(** Statements.  [BlockStmt] stands for every statement that contains
    statements; function literals inside expressions are not modelled. *)
Inductive Spec :=
| ValueSpec (Names : list string) (Ty : option Expr) (Values : list Expr)
| TypeSpec (name : string) (Ty : Expr).

Inductive Decl :=
| GenDecl (Tok : token) (Specs : list Spec)
| BadDecl.

Inductive Stmt : Type :=
| AssignStmt (Lhs : list Expr) (Tok : token) (Rhs : list Expr)
| DeclStmt (D : Decl)
| ExprStmt (X : Expr)
| ReturnStmt (Results : list Expr)
| BlockStmt (List : list Stmt).

Record FuncDecl := mkFuncDecl {
  FuncName : string;
  Params : list Field;
  Body : option (list Stmt)
}.

(** The left-hand sides of [trackAssignment], with their index. *)
Definition trackLhs (rhs : list Expr) (t : VariableTracker)
  (entry : nat * Expr) : result VariableTracker :=
  let '(i, lhs) := entry in
  match lhs with
  | Ident name =>
      '(t1, rhsType) ←
        match rhs !! i with
        | Some e => resolveExpressionType e t
        | None =>
            match rhs with
            | [e] => resolveExpressionType e t
            | _ => Ok (t, None)
            end
        end;
      match rhsType with
      | None => Ok t1
      | Some ty =>
          (* [stmt.Rhs[i]]: the index is not checked against [len(stmt.Rhs)] *)
          match rhs !! i with
          | None => Panic
          | Some e => Ok (setVariable name ty (isPointerType (Some e)) t1)
          end
      end
  | _ => Ok t
  end.

Definition trackAssignment (lhs : list Expr) (tok : token) (rhs : list Expr)
  (t : VariableTracker) : result VariableTracker :=
  if decide (tok ≠ DEFINE ∧ tok ≠ ASSIGN) then Ok t
  else forEach (trackLhs rhs) t (imap pair lhs).

Definition trackSpec (t : VariableTracker) (spec : Spec)
  : result VariableTracker :=
  match spec with
  | ValueSpec names ty values =>
      '(t1, varType) ←
        match ty with
        | Some e => '(st, p) ← ResolveType e (World t); Ok (withWorld st t, p)
        | None =>
            match values with
            | v :: _ => resolveExpressionType v t
            | [] => Ok (t, None)
            end
        end;
      match varType with
      | None => Ok t1
      | Some vt =>
          Ok (foldl (fun t name => setVariable name vt (isPointerType ty) t)
                    t1 names)
      end
  | TypeSpec _ _ => Ok t
  end.

Definition trackDeclaration (d : Decl) (t : VariableTracker)
  : result VariableTracker :=
  match d with
  | GenDecl VAR specs => forEach trackSpec t specs
  | _ => Ok t
  end.

(** The statements that [ast.Inspect] reaches, in the order it visits
    them (a node before the nodes inside it, left to right). *)
Fixpoint inspect (s : Stmt) : list Stmt :=
  s :: match s with
       | BlockStmt l => flat_map inspect l
       | _ => []
       end.

(** The callback of [TrackFunction] on one visited node. *)
Definition trackNode (t : VariableTracker) (n : Stmt) : result VariableTracker :=
  match n with
  | AssignStmt lhs tok rhs => trackAssignment lhs tok rhs t
  | DeclStmt d => trackDeclaration d t
  | _ => Ok t
  end.

Definition trackParam (t : VariableTracker) (param : Field)
  : result VariableTracker :=
  '(st, paramType) ← ResolveType (FieldTypeExpr param) (World t);
  let t1 := withWorld st t in
  match paramType with
  | None => Ok t1
  | Some pt =>
      Ok (foldl (fun t name =>
                   setVariable name pt
                     (isPointerType (Some (FieldTypeExpr param))) t)
                t1 (FieldNames param))
  end.

Definition bodyNodes (funcDecl : FuncDecl) : list Stmt :=
  match Body funcDecl with
  | Some l => inspect (BlockStmt l)
  | None => []
  end.

Definition TrackFunction (funcDecl : FuncDecl) (t : VariableTracker)
  : result VariableTracker :=
  let t0 := mkTracker (World t) ∅ (FunctionMap t) in
  t1 ← forEach trackParam t0 (Params funcDecl);
  forEach trackNode t1 (bodyNodes funcDecl).

(** ** The response analyzer

    A [ResponseInfo] is represented by its [Type]; the status code and the
    position do not take part in type resolution. *)

Record ResponseAnalyzer := mkAnalyzer {
  Tracker : VariableTracker;
  Responses : list addr
}.

Fixpoint resolveResponseType (expr : Expr) (t : VariableTracker)
  : result (VariableTracker * ptr) :=
  match expr with
  | Ident name => Ok (t, GetVariableType name t)
  | SelectorExpr (Ident x) sel =>
      match GetVariableType x t with
      | None => Ok (t, None)
      | Some vt =>
          td ← deref (Heap (World t)) vt;
          if decide (Kind td = KindStruct)
          then Ok (t, field ← findField sel (Fields td); FieldType field)
          else Ok (t, None)
      end
  | CallExpr fn _ => Ok (resolveFunctionCallType fn t)
  | CompositeLit ty _ =>
      '(st, p) ← ResolveTypeOpt ty (World t); Ok (withWorld st t, p)
  | UnaryExpr AND x => resolveResponseType x t
  | _ => Ok (t, None)
  end.

Definition isContextName (objName : string) : bool :=
  bool_decide (objName ∈ ["c"; "ctx"; "context"; "ec"]).

Definition isJSONMethod (methodName : string) : bool :=
  bool_decide (methodName ∈ ["JSON"; "JSONPretty"; "JSONBlob"]).

Definition checkJSONResponseMethod (objName methodName : string)
  (args : list Expr) (a : ResponseAnalyzer) : result ResponseAnalyzer :=
  if negb (isContextName objName) then Ok a
  else if negb (isJSONMethod methodName) then Ok a
  else
    '(t, responseType) ←
      match args with
      | _ :: responseVar :: _ => resolveResponseType responseVar (Tracker a)
      | _ => Ok (Tracker a, None)
      end;
    match responseType with
    | None => Ok (mkAnalyzer t (Responses a))
    | Some ty => Ok (mkAnalyzer t (Responses a ++ [ty]))
    end.

(** The call expressions inside an expression, in [ast.Inspect] order. *)
Fixpoint callsOf (e : Expr) : list (Expr * list Expr) :=
  match e with
  | CallExpr fn args => (fn, args) :: callsOf fn ++ flat_map callsOf args
  | SelectorExpr x _ | UnaryExpr _ x | ParenExpr x | StarExpr x | ArrayType x =>
      callsOf x
  | BinaryExpr x _ y | MapType x y => callsOf x ++ callsOf y
  | CompositeLit ty elts =>
      match ty with Some t => callsOf t | None => [] end
      ++ flat_map callsOf elts
  | StructType flds =>
      flat_map (fun f => match f with mkASTField _ ty _ => callsOf ty end) flds
  | Ident _ | BasicLit _ _ => []
  end.

Definition specCalls (spec : Spec) : list (Expr * list Expr) :=
  match spec with
  | ValueSpec _ ty values =>
      match ty with Some t => callsOf t | None => [] end
      ++ flat_map callsOf values
  | TypeSpec _ ty => callsOf ty
  end.

Fixpoint stmtCalls (s : Stmt) : list (Expr * list Expr) :=
  match s with
  | AssignStmt lhs _ rhs => flat_map callsOf lhs ++ flat_map callsOf rhs
  | DeclStmt (GenDecl _ specs) => flat_map specCalls specs
  | DeclStmt BadDecl => []
  | ExprStmt x => callsOf x
  | ReturnStmt results => flat_map callsOf results
  | BlockStmt l => flat_map stmtCalls l
  end.

(** The callback of [AnalyzeHandler] on one call expression. *)
Definition analyzeCall (a : ResponseAnalyzer) (call : Expr * list Expr)
  : result ResponseAnalyzer :=
  match call with
  | (SelectorExpr (Ident objName) methodName, args) =>
      checkJSONResponseMethod objName methodName args a
  | _ => Ok a
  end.

Definition AnalyzeHandler (funcDecl : FuncDecl) (a : ResponseAnalyzer)
  : result ResponseAnalyzer :=
  forEach analyzeCall (mkAnalyzer (Tracker a) [])
          (match Body funcDecl with
           | Some l => stmtCalls (BlockStmt l)
           | None => []
           end).

(** The driver's use of the two passes on a handler: the whole function is
    tracked, then its responses are analyzed with the resulting tracker. *)
Definition analyzeResponses (funcDecl : FuncDecl) (t : VariableTracker)
  : result ResponseAnalyzer :=
  t' ← TrackFunction funcDecl t;
  AnalyzeHandler funcDecl (mkAnalyzer t' []).

(** ** schema.go: JSON schemas

    A nil map and an empty map, and a nil slice and an empty slice, are not
    told apart: [len], [range] and the [omitempty] encoding treat them
    alike. *)

Inductive JSONSchema : Type :=
  mkSchema (ty fmt descr : string) (items : option JSONSchema)
           (props : gmap string JSONSchemaProperty) (req : list string)
           (addl : option JSONSchemaProperty)
with JSONSchemaProperty : Type :=
  mkProperty (ty fmt descr : string) (items : option JSONSchema)
             (props : gmap string JSONSchemaProperty) (req : list string)
             (ref : string) (addl : option JSONSchemaProperty).

Definition SchemaType (s : JSONSchema) := let 'mkSchema t _ _ _ _ _ _ := s in t.
Definition Format (s : JSONSchema) := let 'mkSchema _ f _ _ _ _ _ := s in f.
Definition Description (s : JSONSchema) := let 'mkSchema _ _ d _ _ _ _ := s in d.
Definition Items (s : JSONSchema) := let 'mkSchema _ _ _ i _ _ _ := s in i.
Definition Properties (s : JSONSchema) := let 'mkSchema _ _ _ _ p _ _ := s in p.
Definition Required (s : JSONSchema) := let 'mkSchema _ _ _ _ _ r _ := s in r.
Definition AdditionalProperties (s : JSONSchema) :=
  let 'mkSchema _ _ _ _ _ _ a := s in a.

Definition JSONSchemaTypeObject := "object".
Definition JSONSchemaTypeArray := "array".
Definition JSONSchemaTypeString := "string".
Definition JSONSchemaTypeNumber := "number".
Definition JSONSchemaTypeInteger := "integer".
Definition JSONSchemaTypeBoolean := "boolean".
Definition JSONSchemaFormatDateTime := "date-time".

(** The zero value [&JSONSchema{}]. *)
Definition emptySchema : JSONSchema := mkSchema "" "" "" None ∅ [] None.

(** The field-by-field copy made wherever a schema becomes a property. *)
Definition propertyOf (s : JSONSchema) : JSONSchemaProperty :=
  mkProperty (SchemaType s) (Format s) (Description s) (Items s)
             (Properties s) (Required s) "" (AdditionalProperties s).

(** [fmt.Sprintf("%s.%s", typeDef.Package, typeDef.Name)] *)
Definition schemaKey (td : TypeDefinition) : string :=
  Package td +:+ "." +:+ Name td.

(** [g.Schemas] *)
Abbreviation memo := (gmap string JSONSchema).

Section SchemaGenerator.
(** The heap is only read by the generator. *)
Variable h : heap.

Section Kinds.
(** The recursive call [g.GenerateSchema], one level of nesting deeper. *)
Variable GenerateSchema' : memo -> ptr -> result (memo * option JSONSchema).

(** [schema.Properties[jsonName] = property] *)
Definition setProperty (jsonName : string) (p : JSONSchemaProperty)
  (s : JSONSchema) : JSONSchema :=
  mkSchema (SchemaType s) (Format s) (Description s) (Items s)
           (<[jsonName := p]> (Properties s)) (Required s)
           (AdditionalProperties s).

(** [schema.Required = append(schema.Required, jsonName)] *)
Definition appendRequired (jsonName : string) (s : JSONSchema) : JSONSchema :=
  mkSchema (SchemaType s) (Format s) (Description s) (Items s)
           (Properties s) (Required s ++ [jsonName])
           (AdditionalProperties s).

(** The JSON field name: the tag's name, else the declared name. *)
Definition wireName (field : FieldDefinition) : string :=
  if decide (JSONName field = "") then FieldName field else JSONName field.

(** The body of the loop of [generateStructSchema]. *)
Definition structSchemaField (acc : memo * JSONSchema)
  (field : FieldDefinition) : result (memo * JSONSchema) :=
  let '(g, schema) := acc in
  match FieldType field with
  | None => Ok (g, schema)
  | Some _ =>
      let jsonName := wireName field in
      '(g', fieldSchema) ← GenerateSchema' g (FieldType field);
      match fieldSchema with
      | None => Ok (g', schema)
      | Some fs =>
          let schema' := setProperty jsonName (propertyOf fs) schema in
          if negb (Omitempty field)
          then Ok (g', appendRequired jsonName schema')
          else Ok (g', schema')
      end
  end.

Definition generateStructSchema (g : memo) (typeDef : TypeDefinition)
  : result (memo * JSONSchema) :=
  forEach structSchemaField
    (g, mkSchema JSONSchemaTypeObject "" "" None ∅ [] None)
    (Fields typeDef).

Definition generateArraySchema (g : memo) (typeDef : TypeDefinition)
  : result (memo * JSONSchema) :=
  match ElementType typeDef with
  | None => Ok (g, mkSchema JSONSchemaTypeArray "" "" None ∅ [] None)
  | Some _ =>
      '(g', elemSchema) ← GenerateSchema' g (ElementType typeDef);
      Ok (g', mkSchema JSONSchemaTypeArray "" "" elemSchema ∅ [] None)
  end.

Definition generateMapSchema (g : memo) (typeDef : TypeDefinition)
  : result (memo * JSONSchema) :=
  match ValueType typeDef with
  | None => Ok (g, mkSchema JSONSchemaTypeObject "" "" None ∅ [] None)
  | Some _ =>
      '(g', valueSchema) ← GenerateSchema' g (ValueType typeDef);
      Ok (g', mkSchema JSONSchemaTypeObject "" "" None ∅ []
                       (propertyOf <$> valueSchema))
  end.
End Kinds.

Definition isIntegerName (b : string) : bool :=
  bool_decide (b ∈ ["int"; "int8"; "int16"; "int32"; "int64";
                    "uint"; "uint8"; "uint16"; "uint32"; "uint64"]).

Definition generateBasicSchema (typeDef : TypeDefinition) : JSONSchema :=
  let b := BasicType typeDef in
  if decide (b = "string") then mkSchema JSONSchemaTypeString "" "" None ∅ [] None
  else if isIntegerName b then mkSchema JSONSchemaTypeInteger "" "" None ∅ [] None
  else if bool_decide (b ∈ ["float32"; "float64"])
       then mkSchema JSONSchemaTypeNumber "" "" None ∅ [] None
  else if decide (b = "bool") then mkSchema JSONSchemaTypeBoolean "" "" None ∅ [] None
  else if decide (b = "time.Time")
       then mkSchema JSONSchemaTypeString JSONSchemaFormatDateTime "" None ∅ [] None
  else mkSchema JSONSchemaTypeString "" "" None ∅ [] None.

(** [GenerateSchema]: nil gives nil; a memoized schema is returned as it
    is; otherwise the schema is built by kind and stored under the key
    once it is complete.  [fuel] bounds the nesting of calls that build. *)
Fixpoint GenerateSchema (fuel : nat) (g : memo) (typeDef : ptr)
  : result (memo * option JSONSchema) :=
  match typeDef with
  | None => Ok (g, None)
  | Some a =>
      match h !! a with
      | None => Panic
      | Some td =>
          match g !! schemaKey td with
          | Some schema => Ok (g, Some schema)
          | None =>
              match fuel with
              | O => OutOfFuel
              | S n =>
                  '(g', schema) ←
                    match Kind td with
                    | KindStruct =>
                        '(g', s) ← generateStructSchema (GenerateSchema n) g td;
                        Ok (g', Some s)
                    | KindArray =>
                        '(g', s) ← generateArraySchema (GenerateSchema n) g td;
                        Ok (g', Some s)
                    | KindMap =>
                        '(g', s) ← generateMapSchema (GenerateSchema n) g td;
                        Ok (g', Some s)
                    | KindBasic => Ok (g, Some (generateBasicSchema td))
                    | KindPointer =>
                        match ElementType td with
                        | Some _ => GenerateSchema n g (ElementType td)
                        | None => Ok (g, None)
                        end
                    end;
                  match schema with
                  | Some s => Ok (<[schemaKey td := s]> g', Some s)
                  | None => Ok (g', None)
                  end
              end
          end
      end
  end.
End SchemaGenerator.

(** ** schema.go: example values *)

Inductive Example : Type :=
| ExString (s : string)
| ExInt (n : Z)
| ExFloatZero
| ExBool (b : bool)
| ExArray (l : list Example)
| ExObject (m : gmap string Example).

Definition generateBasicExample (typeDef : TypeDefinition) : Example :=
  let b := BasicType typeDef in
  if decide (b = "string") then ExString "string"
  else if isIntegerName b then ExInt 0
  else if bool_decide (b ∈ ["float32"; "float64"]) then ExFloatZero
  else if decide (b = "bool") then ExBool false
  else if decide (b = "time.Time") then ExString "2025-04-23T01:27:02Z"
  else ExString "unknown".

Section ExampleGenerator.
Variable h : heap.

Section Kinds.
Variable generateExample' : ptr -> result (option Example).

(** The body of the loop of [generateStructExample]. *)
Definition structExampleField (example : gmap string Example)
  (field : FieldDefinition) : result (gmap string Example) :=
  match FieldType field with
  | None => Ok example
  | Some _ =>
      let jsonName := wireName field in
      if Omitempty field then Ok example
      else
        fieldExample ← generateExample' (FieldType field);
        match fieldExample with
        | None => Ok example
        | Some ex => Ok (<[jsonName := ex]> example)
        end
  end.

Definition generateStructExample (typeDef : TypeDefinition)
  : result (gmap string Example) :=
  forEach structExampleField ∅ (Fields typeDef).

Definition generateArrayExample (typeDef : TypeDefinition) : result Example :=
  match ElementType typeDef with
  | None => Ok (ExArray [])
  | Some _ =>
      elemExample ← generateExample' (ElementType typeDef);
      match elemExample with
      | Some ex => Ok (ExArray [ex])
      | None => Ok (ExArray [])
      end
  end.

Definition generateMapExample (typeDef : TypeDefinition) : result Example :=
  match ValueType typeDef with
  | None => Ok (ExObject ∅)
  | Some _ =>
      valueExample ← generateExample' (ValueType typeDef);
      match valueExample with
      | Some ex => Ok (ExObject {["key" := ex]})
      | None => Ok (ExObject ∅)
      end
  end.
End Kinds.

(** [generateExample]; [fuel] bounds the nesting of calls. *)
Fixpoint generateExample (fuel : nat) (typeDef : ptr)
  : result (option Example) :=
  match typeDef with
  | None => Ok None
  | Some a =>
      td ← deref h a;
      match fuel with
      | O => OutOfFuel
      | S n =>
          match Kind td with
          | KindStruct =>
              m ← generateStructExample (generateExample n) td;
              Ok (Some (ExObject m))
          | KindArray => Some <$> generateArrayExample (generateExample n) td
          | KindMap => Some <$> generateMapExample (generateExample n) td
          | KindBasic => Ok (Some (generateBasicExample td))
          | KindPointer =>
              match ElementType td with
              | Some _ => generateExample n (ElementType td)
              | None => Ok None
              end
          end
      end
  end.
End ExampleGenerator.

(** ** Non-cyclic types

    [boundedDepth n h p]: every path of the type graph that the generators
    follow from [p] ends within [n] nodes, and meets no address outside the
    heap.  A type is non-cyclic when some [n] bounds its depth. *)
Fixpoint boundedDepth (n : nat) (h : heap) (p : ptr) : bool :=
  match p with
  | None => true
  | Some a =>
      match n with
      | O => false
      | S m =>
          match h !! a with
          | None => false
          | Some td =>
              match Kind td with
              | KindStruct =>
                  forallb (fun f => boundedDepth m h (FieldType f)) (Fields td)
              | KindArray | KindPointer => boundedDepth m h (ElementType td)
              | KindMap => boundedDepth m h (ValueType td)
              | KindBasic => true
              end
          end
      end
  end.

(** Every pointer type has an element: all the code that builds a
    [KindPointer] definition ([ResolveType], [resolveExpressionType]) does so
    around an element that is not nil. *)
Definition pointersHaveElements (h : heap) : Prop :=
  forall a td, h !! a = Some td -> Kind td = KindPointer -> ElementType td <> None.

(** * Properties *)

(** ** The result monad *)

Lemma bind_Ok {A B} (m : result A) (k : A -> result B) (b : B) :
  m ≫= k = Ok b -> exists a, m = Ok a /\ k a = Ok b.
Proof. destruct m; simpl; intros E; try discriminate. eauto. Qed.

Lemma fmap_Ok {A B} (f : A -> B) (m : result A) (b : B) :
  f <$> m = Ok b -> exists a, m = Ok a /\ b = f a.
Proof. destruct m; simpl; intros E; try discriminate. injection E as <-. eauto. Qed.

Ltac inv_ok := simplify_eq.

Lemma forEach_app {A B} (body : B -> A -> result B) (b : B) (l1 l2 : list A) :
  forEach body b (l1 ++ l2) = forEach body b l1 ≫= fun b' => forEach body b' l2.
Proof.
  revert b. induction l1 as [|x l1 IH]; intros b; simpl; [done|].
  destruct (body b x); simpl; auto.
Qed.

(** A loop invariant carried along [forEach]. *)
Lemma forEach_invariant {A B} (P : B -> Prop) (body : B -> A -> result B)
  (l : list A) :
  (forall b x b', x ∈ l -> P b -> body b x = Ok b' -> P b') ->
  forall b b', P b -> forEach body b l = Ok b' -> P b'.
Proof.
  induction l as [|x l IH]; intros Hstep b b' Hb E; simpl in E.
  - by inv_ok.
  - apply bind_Ok in E as (b1 & E1 & E2). eapply IH; [| |exact E2].
    + intros; eapply Hstep; eauto. by right.
    + eapply Hstep; eauto. by left.
Qed.

(** ** RegisterPackage *)

Lemma RegisterPackage_existing (p : string) (r : TypeRegistry) (info : PackageInfo) :
  Packages r !! p = Some info -> RegisterPackage p r = (r, info).
Proof. intros E. unfold RegisterPackage. by rewrite E. Qed.

Lemma RegisterPackage_lookup (p : string) (r : TypeRegistry) :
  Packages (RegisterPackage p r).1 !! p = Some (RegisterPackage p r).2.
Proof.
  unfold RegisterPackage. destruct (Packages r !! p) eqn:E; simpl; [done|].
  apply lookup_insert_eq.
Qed.

Lemma RegisterPackage_preserves (p q : string) (r : TypeRegistry) (info : PackageInfo) :
  Packages r !! q = Some info -> Packages (RegisterPackage p r).1 !! q = Some info.
Proof.
  intros E. unfold RegisterPackage. destruct (Packages r !! p) eqn:Ep; simpl; [done|].
  rewrite lookup_insert_ne; [done|]. intros ->. congruence.
Qed.

Lemma SetCurrentPackage_preserves (p q : string) (r : TypeRegistry) (info : PackageInfo) :
  Packages r !! q = Some info -> Packages (SetCurrentPackage p r) !! q = Some info.
Proof. intros E. unfold SetCurrentPackage. by apply RegisterPackage_preserves. Qed.

(** C9. [RegisterPackage] on a package that is already registered returns
    the registry as it is together with the existing [PackageInfo]; calling
    it twice is the same as calling it once; and neither [RegisterPackage]
    nor [SetCurrentPackage] changes or removes the [PackageInfo] (types and
    import aliases) of any package that was registered before. *)
Theorem RegisterPackage_idempotent (p : string) (r : TypeRegistry) :
  (forall info, Packages r !! p = Some info -> RegisterPackage p r = (r, info))
  /\ RegisterPackage p (RegisterPackage p r).1 = RegisterPackage p r
  /\ (forall q info, Packages r !! q = Some info ->
        Packages (RegisterPackage p r).1 !! q = Some info)
  /\ (forall q info, Packages r !! q = Some info ->
        Packages (SetCurrentPackage p r) !! q = Some info)
  /\ SetCurrentPackage p (SetCurrentPackage p r) = SetCurrentPackage p r.
Proof.
  split; [apply RegisterPackage_existing|].
  split.
  { rewrite (RegisterPackage_existing p _ _ (RegisterPackage_lookup p r)).
    by destruct (RegisterPackage p r). }
  split; [intros; by apply RegisterPackage_preserves|].
  split; [intros; by apply SetCurrentPackage_preserves|].
  unfold SetCurrentPackage, RegisterPackage; simpl.
  destruct (Packages r !! p) eqn:E; simpl; rewrite ?E, ?lookup_insert_eq; done.
Qed.

(** ** The schema generator *)

Lemma GenerateSchema_nonnil (h : heap) :
  pointersHaveElements h ->
  forall n g a g' s,
    GenerateSchema h n g (Some a) = Ok (g', s) -> is_Some s.
Proof.
  intros Hp n. induction n as [|n IH]; intros g a g' s E; simpl in E.
  - destruct (h !! a) as [td|]; [|discriminate].
    destruct (g !! schemaKey td); [|discriminate]. inv_ok. eauto.
  - destruct (h !! a) as [td|] eqn:Ea; [|discriminate].
    destruct (g !! schemaKey td); [inv_ok; eauto|].
    apply bind_Ok in E as ([g1 [s1|]] & E1 & E2); inv_ok; eauto.
    destruct (Kind td) eqn:Ek.
    + apply bind_Ok in E1 as ([] & _ & E1); inv_ok.
    + apply bind_Ok in E1 as ([] & _ & E1); inv_ok.
    + apply bind_Ok in E1 as ([] & _ & E1); inv_ok.
    + inv_ok.
    + destruct (ElementType td) as [e|] eqn:Ee.
      * by apply IH in E1.
      * by destruct (Hp a td Ea Ek).
Qed.

Definition typedFields (td : TypeDefinition) : list FieldDefinition :=
  filter (fun f => FieldType f <> None) (Fields td).

Definition requiredFields (td : TypeDefinition) : list FieldDefinition :=
  filter (fun f => Omitempty f = false) (typedFields td).

Lemma structSchema_loop (h : heap) (n : nat) :
  pointersHaveElements h ->
  forall fields g s0 g' s,
    forEach (structSchemaField (GenerateSchema h n)) (g, s0) fields = Ok (g', s) ->
    SchemaType s = SchemaType s0
    /\ dom (Properties s)
       = dom (Properties s0)
         ∪ list_to_set (wireName <$> filter (fun f => FieldType f <> None) fields)
    /\ Required s
       = Required s0
         ++ (wireName <$> filter (fun f => Omitempty f = false)
                            (filter (fun f => FieldType f <> None) fields)).
Proof.
  intros Hp fields. induction fields as [|f fields IH]; intros g s0 g' s E; simpl in E.
  - inv_ok. rewrite app_nil_r. split; [done|]. split; [|done]. set_solver.
  - apply bind_Ok in E as ([g1 s1] & E0 & E). apply IH in E as (Et & Ed & Er).
    unfold structSchemaField in E0.
    destruct (FieldType f) as [a|] eqn:Ef.
    + apply bind_Ok in E0 as ([g2 fs] & E & E0).
      destruct (GenerateSchema_nonnil h Hp _ _ _ _ _ E) as [fs' ->].
      rewrite !filter_cons, Ef. rewrite decide_True by done.
      destruct (Omitempty f) eqn:Eo; simpl in E0; inv_ok.
      * rewrite filter_cons, Eo. rewrite decide_False by done.
        rewrite Et, Ed, Er. destruct s0; simpl. split; [done|].
        split; [|done]. rewrite dom_insert_L. set_solver.
      * rewrite filter_cons, Eo. rewrite decide_True by done.
        rewrite Et, Ed, Er. destruct s0; simpl. split; [done|].
        split; [rewrite dom_insert_L; set_solver|]. by rewrite <- app_assoc.
    + inv_ok. rewrite filter_cons, Ef. rewrite decide_False by (intros X; by apply X).
      done.
Qed.

Lemma NoDup_fmap_eq {A B} (f : A -> B) (l : list A) (x y : A) :
  NoDup (f <$> l) -> x ∈ l -> y ∈ l -> f x = f y -> x = y.
Proof.
  induction l as [|z l IH]; intros Hnd Hx Hy Hxy; [inversion Hx|].
  rewrite fmap_cons in Hnd. apply NoDup_cons in Hnd as [Hz Hnd].
  apply elem_of_cons in Hx as [->|Hx]; apply elem_of_cons in Hy as [->|Hy]; auto.
  - destruct Hz. rewrite Hxy. by apply list_elem_of_fmap_2.
  - destruct Hz. rewrite <- Hxy. by apply list_elem_of_fmap_2.
Qed.

(** C6 (as amended). The schema that [generateStructSchema] builds for a struct is an
    object schema; its property set is exactly the set of wire names of the
    fields that have a type; its required list is, in field order, the wire
    names of the typed fields whose omitempty marker is false.  Hence, when
    the typed fields have distinct wire names, the wire name of a typed
    field is in the required list iff its omitempty marker is false. *)
Theorem generateStructSchema_properties_required
  (h : heap) (n : nat) (g g' : memo) (td : TypeDefinition) (s : JSONSchema) :
  pointersHaveElements h ->
  generateStructSchema (GenerateSchema h n) g td = Ok (g', s) ->
  SchemaType s = JSONSchemaTypeObject
  /\ dom (Properties s) = list_to_set (wireName <$> typedFields td)
  /\ Required s = wireName <$> requiredFields td
  /\ (NoDup (wireName <$> typedFields td) ->
      forall f, f ∈ typedFields td ->
        (wireName f ∈ Required s <-> Omitempty f = false)).
Proof.
  intros Hp E. apply structSchema_loop in E as (Et & Ed & Er); [|done].
  simpl in *. split; [done|]. split; [set_solver|]. split; [done|].
  intros Hnd f Hf. rewrite Er. unfold requiredFields. split.
  - intros Hin. apply list_elem_of_fmap in Hin as (f' & Hw & Hf').
    apply list_elem_of_filter in Hf' as [Ho Hf'].
    by rewrite (NoDup_fmap_eq wireName _ f f' Hnd Hf Hf').
  - intros Ho. apply list_elem_of_fmap_2. by apply list_elem_of_filter.
Qed.

(** The record of the specification: [{id: int, name: string, bio: string
    (optional)}]. *)
Definition userHeap : heap :=
  [ mkType "int" KindBasic [] None None None "p" "int" true;
    mkType "string" KindBasic [] None None None "p" "string" true;
    mkType "User" KindStruct
      [ mkField "ID" (Some 0) "id" false false;
        mkField "Name" (Some 1) "name" false false;
        mkField "Bio" (Some 1) "bio" true false ]
      None None None "p" "" true ].

Definition userType : TypeDefinition :=
  default (mkType "" KindBasic [] None None None "" "" true) (userHeap !! 2).

Lemma userHeap_pointers : pointersHaveElements userHeap.
Proof.
  intros a td E Ek. destruct a as [|[|[|a]]]; simpl in E; simplify_eq; discriminate Ek.
Defined.

(** [type Member struct { ID int `json:"id"`; Name string;
    Bio string `json:"bio,omitempty"` }]: the record of the specification,
    with a field that has no tag. *)
Definition memberHeap : heap :=
  [ mkType "int" KindBasic [] None None None "p" "int" true;
    mkType "string" KindBasic [] None None None "p" "string" true;
    mkType "Member" KindStruct
      [ mkField "ID" (Some 0) "id" false false;
        mkField "Name" (Some 1) "" false false;
        mkField "Bio" (Some 1) "bio" true false ]
      None None None "p" "" true ].

Definition memberType : TypeDefinition :=
  default (mkType "" KindBasic [] None None None "" "" true) (memberHeap !! 2).

Lemma memberHeap_pointers : pointersHaveElements memberHeap.
Proof.
  intros a td E Ek. destruct a as [|[|[|a]]]; simpl in E; simplify_eq; discriminate Ek.
Defined.

(** The amended C6 on the record of the specification: [ID] and [Name] are
    required, [Name] under its declared name, and [bio] is a property that
    is not required. *)
Lemma generateStructSchema_member :
  exists g s,
    generateStructSchema (GenerateSchema memberHeap 1) ∅ memberType = Ok (g, s)
    /\ SchemaType s = JSONSchemaTypeObject
    /\ dom (Properties s) = list_to_set ["id"; "Name"; "bio"]
    /\ Required s = ["id"; "Name"]
    /\ (forall f, f ∈ typedFields memberType ->
          (wireName f ∈ Required s <-> Omitempty f = false)).
Proof.
  destruct (generateStructSchema (GenerateSchema memberHeap 1) ∅ memberType)
    as [[g s]| |] eqn:E; [|vm_compute in E; discriminate E..].
  exists g, s. split; [reflexivity|].
  destruct (generateStructSchema_properties_required memberHeap 1 ∅ g memberType s
              memberHeap_pointers E) as (Ht & Hd & Hr & Hiff).
  split; [exact Ht|]. split; [exact Hd|]. split; [exact Hr|].
  apply Hiff. apply (bool_decide_unpack _). vm_compute. exact I.
Defined.

(** [type Pair struct { A string `json:"x"`; B string `json:"x,omitempty"` }] *)
Definition pairHeap : heap :=
  [ mkType "string" KindBasic [] None None None "p" "string" true;
    mkType "Pair" KindStruct
      [ mkField "A" (Some 0) "x" false false;
        mkField "B" (Some 0) "x" true false ]
      None None None "p" "" true ].

Definition pairType : TypeDefinition :=
  default (mkType "" KindBasic [] None None None "" "" true) (pairHeap !! 1).

(** C6, counterexample. [A] and [B] are typed fields with the wire name
    [x]; [B] has the omitempty marker, yet its wire name is in the required
    list, where [A] has put it. *)
Lemma generateStructSchema_shared_wire_name :
  exists g s f,
    generateStructSchema (GenerateSchema pairHeap 1) ∅ pairType = Ok (g, s)
    /\ f ∈ Fields pairType
    /\ FieldType f <> None
    /\ Omitempty f = true
    /\ wireName f ∈ Required s.
Proof.
  exists {[ "p.string" := mkSchema JSONSchemaTypeString "" "" None ∅ [] None ]}.
  eexists. exists (mkField "B" (Some 0) "x" true false).
  split; [vm_compute; reflexivity|].
  split; [right; left|]. split; [discriminate|]. split; [reflexivity|].
  left.
Qed.

(** *** Fuel: more never changes an outcome that is not [OutOfFuel] *)

Lemma forEach_ext_Ok {A B} (body body' : B -> A -> result B) (l : list A) :
  (forall b x r, x ∈ l -> body b x = Ok r -> body' b x = Ok r) ->
  forall b r, forEach body b l = Ok r -> forEach body' b l = Ok r.
Proof.
  induction l as [|x l IH]; intros Hb b r E; simpl in *; [done|].
  apply bind_Ok in E as (b1 & E1 & E2).
  rewrite (Hb b x b1); [|by left|done]. simpl.
  apply IH; [|done]. intros; apply Hb; [by right|done].
Qed.

Lemma GenerateSchema_fuel_mono (h : heap) (n : nat) :
  forall m g p r, n <= m ->
    GenerateSchema h n g p = Ok r -> GenerateSchema h m g p = Ok r.
Proof.
  induction n as [|n IH]; intros m g p r Hle E.
  - destruct p as [a|]; [|by destruct m].
    simpl in E. destruct m; simpl;
      destruct (h !! a) as [td|]; try done;
      destruct (g !! schemaKey td); done.
  - destruct m as [|m]; [lia|]. assert (n <= m) as Hnm by lia.
    destruct p as [a|]; [|done]. simpl in *.
    destruct (h !! a) as [td|]; [|done].
    destruct (g !! schemaKey td); [done|].
    apply bind_Ok in E as ([g1 s1] & E1 & E2).
    enough (match Kind td with
            | KindStruct =>
                '(g', s) ← generateStructSchema (GenerateSchema h m) g td;
                Ok (g', Some s)
            | KindArray =>
                '(g', s) ← generateArraySchema (GenerateSchema h m) g td;
                Ok (g', Some s)
            | KindMap =>
                '(g', s) ← generateMapSchema (GenerateSchema h m) g td;
                Ok (g', Some s)
            | KindBasic => Ok (g, Some (generateBasicSchema td))
            | KindPointer =>
                match ElementType td with
                | Some _ => GenerateSchema h m g (ElementType td)
                | None => Ok (g, None)
                end
            end = Ok (g1, s1)) as -> by done.
    destruct (Kind td).
    + apply bind_Ok in E1 as ([g2 s2] & E1 & E3).
      unfold generateStructSchema in *.
      rewrite (forEach_ext_Ok (structSchemaField (GenerateSchema h n))
                 (structSchemaField (GenerateSchema h m)) (Fields td)) with (r := (g2, s2));
        [exact E3| |exact E1].
      intros [gb sb] f rb _ Ef. unfold structSchemaField in *.
      destruct (FieldType f); [|done].
      apply bind_Ok in Ef as ([g3 s3] & Ef1 & Ef2).
      by rewrite (IH m _ _ _ Hnm Ef1).
    + apply bind_Ok in E1 as ([g2 s2] & E1 & E3).
      unfold generateArraySchema in *.
      destruct (ElementType td); [|by simplify_eq].
      apply bind_Ok in E1 as ([g3 s3] & Ef1 & Ef2).
      rewrite (IH m _ _ _ Hnm Ef1). simpl. by simplify_eq.
    + apply bind_Ok in E1 as ([g2 s2] & E1 & E3).
      unfold generateMapSchema in *.
      destruct (ValueType td); [|by simplify_eq].
      apply bind_Ok in E1 as ([g3 s3] & Ef1 & Ef2).
      rewrite (IH m _ _ _ Hnm Ef1). simpl. by simplify_eq.
    + done.
    + destruct (ElementType td); [|done]. by apply IH.
Qed.

(** *** Termination on non-cyclic types *)

Lemma GenerateSchema_total (h : heap) (n : nat) :
  forall g p, boundedDepth n h p = true -> exists r, GenerateSchema h n g p = Ok r.
Proof.
  induction n as [|n IH]; intros g p Hb.
  - destruct p; [discriminate|]. simpl. eauto.
  - destruct p as [a|]; [|simpl; eauto]. simpl in *.
    destruct (h !! a) as [td|]; [|discriminate].
    destruct (g !! schemaKey td); [eauto|].
    destruct (Kind td).
    + assert (forall fields acc,
                 forallb (fun f => boundedDepth n h (FieldType f)) fields = true ->
                 exists r, forEach (structSchemaField (GenerateSchema h n)) acc fields
                           = Ok r) as Hloop.
      { induction fields as [|f fields IHf]; intros acc Hall; simpl; [eauto|].
        apply andb_prop in Hall as [Hf Hall].
        assert (exists r, structSchemaField (GenerateSchema h n) acc f = Ok r)
          as [r ->].
        { unfold structSchemaField. destruct acc as [ga sa].
          destruct (FieldType f) eqn:Ef; [|eauto].
          destruct (IH ga _ Hf) as [[g1 [s1|]] ->]; simpl; [|eauto].
          destruct (negb (Omitempty f)); eauto. }
        simpl. by apply IHf. }
      unfold generateStructSchema.
      destruct (Hloop (Fields td) (g, mkSchema JSONSchemaTypeObject "" "" None ∅ [] None) Hb)
        as [[g1 s1] ->].
      simpl. eauto.
    + unfold generateArraySchema. destruct (ElementType td) eqn:Ee; [|simpl; eauto].
      destruct (IH g _ Hb) as [[g1 s1] ->]. simpl. eauto.
    + unfold generateMapSchema. destruct (ValueType td) eqn:Ee; [|simpl; eauto].
      destruct (IH g _ Hb) as [[g1 s1] ->]. simpl. eauto.
    + simpl. eauto.
    + destruct (ElementType td) eqn:Ee; [|simpl; eauto].
      destruct (IH g _ Hb) as [[g1 [s1|]] ->]; simpl; eauto.
Qed.

(** X24. For a pointer type whose element [X] is non-cyclic, and a
    generator that holds no schema under the pointer's own key,
    [GenerateSchema] returns for the pointer the very schema that it returns
    for [X]. *)
Theorem pointer_schema_is_element_schema
  (h : heap) (n : nat) (g : memo) (p X : addr) (td : TypeDefinition) :
  h !! p = Some td ->
  Kind td = KindPointer ->
  ElementType td = Some X ->
  boundedDepth n h (Some X) = true ->
  g !! schemaKey td = None ->
  exists gX gP s,
    GenerateSchema h n g (Some X) = Ok (gX, s)
    /\ GenerateSchema h (S n) g (Some p) = Ok (gP, s).
Proof.
  intros Hp Hk He Hb Hg.
  destruct (GenerateSchema_total h n g _ Hb) as [[gX s] E].
  exists gX. simpl. rewrite Hp, Hg, Hk, He, E. simpl.
  destruct s as [s|]; eauto.
Qed.

(** Two packages that both declare a [User]; the handlers package imports
    the models package. *)
Definition modelsPath := "example.com/app/models".
Definition handlersPath := "example.com/app/handlers".

Definition collisionStore : store :=
  mkStore
    [ mkType "User" KindStruct [mkField "ID" (Some 2) "" false false]
             None None None modelsPath "" true;
      mkType "User" KindStruct [mkField "Name" (Some 3) "" false false]
             None None None handlersPath "" true;
      mkType "int" KindBasic [] None None None modelsPath "int" true;
      mkType "string" KindBasic [] None None None handlersPath "string" true ]
    (mkRegistry
       {[ modelsPath := mkPackageInfo {[ "User" := 0 ]} ∅;
          handlersPath := mkPackageInfo {[ "User" := 1 ]}
                                        {[ "models" := modelsPath ]} ]}
       handlersPath).

(** The heap after [*models.User] and [*User] have been resolved in the
    handlers package, at addresses 4 and 5. *)
Definition collisionHeap : heap :=
  Heap collisionStore ++
  [ mkType "*User" KindPointer [] (Some 0) None None handlersPath "" true;
    mkType "*User" KindPointer [] (Some 1) None None handlersPath "" true ].

Lemma collisionHeap_from_ResolveType :
  exists st1 st2,
    ResolveType (StarExpr (SelectorExpr (Ident "models") "User")) collisionStore
      = Ok (st1, Some 4)
    /\ ResolveType (StarExpr (Ident "User")) st1 = Ok (st2, Some 5)
    /\ Heap st2 = collisionHeap.
Proof. eexists _, _. repeat split; vm_compute; reflexivity. Qed.

(** The generator after the schema of [*models.User] has been generated. *)
Definition collisionMemo : memo :=
  match GenerateSchema collisionHeap 3 ∅ (Some 4) with
  | Ok (g, _) => g
  | _ => ∅
  end.

(** C7, on the code. [*User] (address 5) points to the non-cyclic
    [handlers.User] (address 1).  [ResolveType] has given both [*models.User]
    and [*User] the package of the cursor, so they share the key
    [Package.Name]: once [*models.User] has been generated, the schema
    returned for [*User] is the one memoized for [*models.User], not the
    schema returned for [handlers.User]. *)
Lemma pointer_schema_key_collision :
  exists td gP gX sP sX,
    collisionHeap !! 5 = Some td
    /\ Kind td = KindPointer
    /\ ElementType td = Some 1
    /\ boundedDepth 2 collisionHeap (Some 1) = true
    /\ GenerateSchema collisionHeap 3 collisionMemo (Some 5) = Ok (gP, Some sP)
    /\ GenerateSchema collisionHeap 3 collisionMemo (Some 1) = Ok (gX, Some sX)
    /\ Required sP = ["ID"]
    /\ Required sX = ["Name"]
    /\ sP <> sX.
Proof.
  destruct (GenerateSchema collisionHeap 3 collisionMemo (Some 5))
    as [[gP [sP|]]| |] eqn:EP; try (vm_compute in EP; discriminate EP).
  destruct (GenerateSchema collisionHeap 3 collisionMemo (Some 1))
    as [[gX [sX|]]| |] eqn:EX; try (vm_compute in EX; discriminate EX).
  assert (Required sP = ["ID"]) as HP.
  { vm_compute in EP. by simplify_eq. }
  assert (Required sX = ["Name"]) as HX.
  { vm_compute in EX. by simplify_eq. }
  eexists _, gP, gX, sP, sX.
  split; [reflexivity|]. do 5 (split; [done|]). split; [done|]. split; [done|].
  intros ->. rewrite HP in HX. discriminate HX.
Qed.

Lemma pointer_schema_is_element_schema_witness :
  exists gX gP s,
    GenerateSchema collisionHeap 2 ∅ (Some 1) = Ok (gX, s)
    /\ GenerateSchema collisionHeap 3 ∅ (Some 5) = Ok (gP, s).
Proof.
  apply (pointer_schema_is_element_schema collisionHeap 2 ∅ 5 1
           (mkType "*User" KindPointer [] (Some 1) None None handlersPath "" true));
    reflexivity.
Defined.

(** [type A struct { Next *A }], as [processStructDeclaration] leaves it. *)
Definition selfHeap : heap :=
  [ mkType "A" KindStruct [mkField "Next" (Some 1) "" false true]
           None None None "p" "" false;
    mkType "*A" KindPointer [] (Some 0) None None "p" "" false ].

(** [type A struct { B *B }] and [type B struct { A *A }]. *)
Definition mutualHeap : heap :=
  [ mkType "A" KindStruct [mkField "B" (Some 2) "" false true]
           None None None "p" "" false;
    mkType "B" KindStruct [mkField "A" (Some 3) "" false true]
           None None None "p" "" false;
    mkType "*B" KindPointer [] (Some 1) None None "p" "" false;
    mkType "*A" KindPointer [] (Some 0) None None "p" "" false ].

Lemma selfHeap_from_declaration :
  exists r,
    processStructDeclaration "A" "p"
      [mkASTField ["Next"] (StarExpr (Ident "A")) None]
      (mkStore [] (SetCurrentPackage "p" (mkRegistry ∅ "")))
    = Ok (mkStore selfHeap r).
Proof. eexists. vm_compute. reflexivity. Qed.

(** A call that finds no memoized schema builds one with the fuel that is
    left. *)
Lemma GenerateSchema_build (h : heap) (n : nat) (g : memo) (a : addr)
  (td : TypeDefinition) :
  h !! a = Some td ->
  g !! schemaKey td = None ->
  GenerateSchema h (S n) g (Some a)
  = '(g', schema) ←
      match Kind td with
      | KindStruct =>
          '(g', s) ← generateStructSchema (GenerateSchema h n) g td;
          Ok (g', Some s)
      | KindArray =>
          '(g', s) ← generateArraySchema (GenerateSchema h n) g td;
          Ok (g', Some s)
      | KindMap =>
          '(g', s) ← generateMapSchema (GenerateSchema h n) g td;
          Ok (g', Some s)
      | KindBasic => Ok (g, Some (generateBasicSchema td))
      | KindPointer =>
          match ElementType td with
          | Some _ => GenerateSchema h n g (ElementType td)
          | None => Ok (g, None)
          end
      end;
    match schema with
    | Some s => Ok (<[schemaKey td := s]> g', Some s)
    | None => Ok (g', None)
    end.
Proof. intros E1 E2. simpl. by rewrite E1, E2. Qed.

Lemma GenerateSchema_selfHeap_OutOfFuel (n : nat) :
  GenerateSchema selfHeap n ∅ (Some 0) = OutOfFuel
  /\ GenerateSchema selfHeap n ∅ (Some 1) = OutOfFuel.
Proof.
  induction n as [|n [IH0 IH1]]; [split; reflexivity|].
  split.
  - rewrite (GenerateSchema_build selfHeap n ∅ 0 _ eq_refl (lookup_empty _)).
    cbn [Kind Fields generateStructSchema forEach structSchemaField FieldType].
    by rewrite IH1.
  - rewrite (GenerateSchema_build selfHeap n ∅ 1 _ eq_refl (lookup_empty _)).
    cbn [Kind ElementType]. by rewrite IH0.
Qed.

Lemma GenerateSchema_mutualHeap_OutOfFuel (n : nat) :
  (GenerateSchema mutualHeap n ∅ (Some 0) = OutOfFuel
   /\ GenerateSchema mutualHeap n ∅ (Some 2) = OutOfFuel)
  /\ (GenerateSchema mutualHeap n ∅ (Some 1) = OutOfFuel
      /\ GenerateSchema mutualHeap n ∅ (Some 3) = OutOfFuel).
Proof.
  induction n as [|n [[IH0 IH2] [IH1 IH3]]]; [repeat split; reflexivity|].
  repeat split.
  - rewrite (GenerateSchema_build mutualHeap n ∅ 0 _ eq_refl (lookup_empty _)).
    cbn [Kind Fields generateStructSchema forEach structSchemaField FieldType].
    by rewrite IH2.
  - rewrite (GenerateSchema_build mutualHeap n ∅ 2 _ eq_refl (lookup_empty _)).
    cbn [Kind ElementType]. by rewrite IH1.
  - rewrite (GenerateSchema_build mutualHeap n ∅ 1 _ eq_refl (lookup_empty _)).
    cbn [Kind Fields generateStructSchema forEach structSchemaField FieldType].
    by rewrite IH3.
  - rewrite (GenerateSchema_build mutualHeap n ∅ 3 _ eq_refl (lookup_empty _)).
    cbn [Kind ElementType]. by rewrite IH0.
Qed.

(** C1, on the code. On the self-referential [type A struct { Next *A }]
    and on the mutually referential pair [A]/[B], a fresh generator never
    returns a schema, whatever the fuel: a schema is memoized only once it
    is complete, so the nested call on the type under construction finds
    nothing and starts over. *)
Theorem GenerateSchema_cyclic_never_returns (n : nat) :
  GenerateSchema selfHeap n ∅ (Some 0) = OutOfFuel
  /\ GenerateSchema mutualHeap n ∅ (Some 0) = OutOfFuel
  /\ GenerateSchema mutualHeap n ∅ (Some 1) = OutOfFuel.
Proof.
  split; [apply GenerateSchema_selfHeap_OutOfFuel|].
  split; apply GenerateSchema_mutualHeap_OutOfFuel.
Qed.

(** ** The variable tracker *)

(** [func handler() { a, b := f() }] *)
Definition multiAssign : FuncDecl :=
  mkFuncDecl "handler" []
    (Some [AssignStmt [Ident "a"; Ident "b"] DEFINE [CallExpr (Ident "f") []]]).

(** The same with a single variable. *)
Definition singleAssign : FuncDecl :=
  mkFuncDecl "handler" []
    (Some [AssignStmt [Ident "a"] DEFINE [CallExpr (Ident "f") []]]).

(** C3, on the code. With no return type registered for [f], tracking
    [a, b := f()] panics: for [b] the type is taken from [stmt.Rhs[0]], and
    then [stmt.Rhs[1]] is read.  The single-variable form completes. *)
Theorem TrackFunction_multi_assign_panics (st : store) (vars : gmap string VariableInfo) :
  TrackFunction multiAssign (mkTracker st vars ∅) = Panic
  /\ returns (TrackFunction singleAssign (mkTracker st vars ∅)).
Proof.
  split; [reflexivity|]. eexists. reflexivity.
Qed.

(** *** Resolution never writes the scope *)

Lemma allocIn_Variables (td : TypeDefinition) (t : VariableTracker) :
  Variables (allocIn td t).1 = Variables t.
Proof. reflexivity. Qed.

Lemma resolveFunctionCallType_Variables (fn : Expr) (t : VariableTracker) :
  Variables (resolveFunctionCallType fn t).1 = Variables t.
Proof.
  destruct fn as [name|x sel| | | | | | | | | |]; simpl; try reflexivity.
  - by destruct (FunctionMap t !! name).
  - destruct x; try reflexivity.
    destruct (Variables t !! name); [reflexivity|].
    by destruct (FunctionMap t !! _).
Qed.

Lemma resolveExpressionType_Variables (e : Expr) :
  forall t t' p,
    resolveExpressionType e t = Ok (t', p) -> Variables t' = Variables t.
Proof.
  induction e as [name|x IHx sel|fn IHfn args|op x IHx| | |ty elts|kd v| | | |];
    intros t t' p E; simpl in E; try (by simplify_eq).
  - destruct (Variables t !! name); [by simplify_eq|].
    destruct (lookupIn name (World t)). by simplify_eq.
  - destruct x; try (by simplify_eq).
    destruct (lookupIn _ (World t)) as [st [a|]]; [by simplify_eq|].
    simpl in E. destruct (Variables t !! name); [|by simplify_eq].
    apply bind_Ok in E as (td & _ & E).
    destruct (decide (Kind td = KindStruct)); by simplify_eq.
  - simplify_eq. rewrite <- (resolveFunctionCallType_Variables fn t). by rewrite E.
  - destruct op; try (by simplify_eq).
    apply bind_Ok in E as ([t1 [i|]] & E1 & E2); [|simplify_eq; by eapply IHx].
    apply bind_Ok in E2 as (it & _ & E2). simplify_eq. simpl. by eapply IHx.
  - apply bind_Ok in E as ([st q] & _ & E). by simplify_eq.
  - destruct kd; by simplify_eq.
Qed.

(** X11. When the type of the right-hand side of [name = e] or
    [name := e] cannot be determined ([resolveExpressionType] returns nil),
    [trackAssignment] completes and leaves the scope as it was: the entry of
    [name] is neither added nor replaced. *)
Theorem trackAssignment_undetermined_keeps_scope
  (name : string) (tok : token) (e : Expr) (t t1 : VariableTracker) :
  resolveExpressionType e t = Ok (t1, None) ->
  exists t', trackAssignment [Ident name] tok [e] t = Ok t'
             /\ Variables t' = Variables t
             /\ GetVariableType name t' = GetVariableType name t.
Proof.
  intros E. unfold trackAssignment.
  destruct (decide (tok ≠ DEFINE ∧ tok ≠ ASSIGN)); [by exists t|].
  exists t1. simpl. rewrite E. simpl. split; [done|].
  apply resolveExpressionType_Variables in E.
  unfold GetVariableType. by rewrite E.
Qed.

(** A scope in which [x] is bound to the struct [A] at address 0. *)
Definition staleTracker : VariableTracker :=
  mkTracker
    (mkStore [mkType "A" KindStruct [] None None None "p" "" true]
             (mkRegistry {[ "p" := mkPackageInfo {[ "A" := 0 ]} ∅ ]} "p"))
    {[ "x" := mkVar "x" 0 false ]} ∅.

(** [n + 1], an expression shape that the resolver does not model. *)
Definition undetermined : Expr := BinaryExpr (Ident "n") ADD (BasicLit INT "1").

(** C5, counterexample. After [x = n + 1] the entry of [x] is still the
    earlier type [A], and after [y := n + 1] there is no entry for [y]. *)
Lemma trackAssignment_undetermined_stale_or_missing :
  resolveExpressionType undetermined staleTracker = Ok (staleTracker, None)
  /\ (exists t', trackAssignment [Ident "x"] ASSIGN [undetermined] staleTracker = Ok t'
                 /\ GetVariableType "x" t' = Some 0
                 /\ Name <$> Heap (World t') !! 0 = Some "A")
  /\ (exists t', trackAssignment [Ident "y"] DEFINE [undetermined] staleTracker = Ok t'
                 /\ Variables t' !! "y" = None).
Proof.
  split; [reflexivity|]. split; eexists; (split; [reflexivity|]); vm_compute; done.
Qed.

Lemma trackAssignment_undetermined_witness :
  exists t', trackAssignment [Ident "x"] ASSIGN [undetermined] staleTracker = Ok t'
             /\ Variables t' = Variables staleTracker
             /\ GetVariableType "x" t' = GetVariableType "x" staleTracker.
Proof.
  apply (trackAssignment_undetermined_keeps_scope "x" ASSIGN undetermined
           staleTracker staleTracker).
  reflexivity.
Defined.

(** *** The scope at function exit *)

(** Whether a visited node can write the entry of [x]. *)
Definition isIdent (x : string) (e : Expr) : bool :=
  match e with
  | Ident y => bool_decide (y = x)
  | _ => false
  end.

Definition specWrites (x : string) (spec : Spec) : bool :=
  match spec with
  | ValueSpec names _ _ => bool_decide (x ∈ names)
  | TypeSpec _ _ => false
  end.

Definition writes (x : string) (n : Stmt) : bool :=
  match n with
  | AssignStmt lhs _ _ => existsb (isIdent x) lhs
  | DeclStmt (GenDecl _ specs) => existsb (specWrites x) specs
  | _ => false
  end.

Lemma setVariable_other (x name : string) (ty : addr) (b : bool) (t : VariableTracker) :
  name <> x -> Variables (setVariable name ty b t) !! x = Variables t !! x.
Proof. intros Hne. simpl. by rewrite lookup_insert_ne. Qed.

Lemma foldl_setVariable_other (x : string) (ty : addr) (b : bool) (names : list string) :
  x ∉ names ->
  forall t, Variables (foldl (fun t name => setVariable name ty b t) t names) !! x
            = Variables t !! x.
Proof.
  induction names as [|name names IH]; intros Hx t; simpl; [done|].
  apply not_elem_of_cons in Hx as [Hne Hx].
  rewrite IH by done. by apply setVariable_other.
Qed.

Lemma elem_of_imap_pair {A} (l : list A) (i : nat) (x : A) :
  (i, x) ∈ imap pair l -> x ∈ l.
Proof.
  intros Hin. apply list_elem_of_lookup in Hin as [j Hj].
  rewrite list_lookup_imap in Hj.
  destruct (l !! j) as [y|] eqn:Ey; simpl in Hj; [|discriminate].
  simplify_eq. by eapply list_elem_of_lookup_2.
Qed.

Lemma existsb_false_elem {A} (f : A -> bool) (l : list A) (x : A) :
  existsb f l = false -> x ∈ l -> f x = false.
Proof.
  intros He Hx. destruct (f x) eqn:Ef; [|done].
  rewrite <- He. symmetry. apply existsb_exists. exists x.
  split; [by apply list_elem_of_In|done].
Qed.

Lemma trackLhs_frame (x : string) (rhs : list Expr) (t t' : VariableTracker)
  (i : nat) (lhs : Expr) :
  isIdent x lhs = false ->
  trackLhs rhs t (i, lhs) = Ok t' ->
  Variables t' !! x = Variables t !! x.
Proof.
  intros Hx E. unfold trackLhs in E.
  destruct lhs as [name| | | | | | | | | | |]; try (by simplify_eq).
  simpl in Hx. apply bool_decide_eq_false in Hx.
  apply bind_Ok in E as ([t1 [ty|]] & E1 & E2).
  - destruct (rhs !! i) as [e|]; [|discriminate E2].
    apply resolveExpressionType_Variables in E1. simplify_eq.
    rewrite setVariable_other by done. by rewrite E1.
  - simplify_eq.
    destruct (rhs !! i); [by erewrite resolveExpressionType_Variables|].
    destruct rhs as [|e [|]]; try (by simplify_eq).
    by erewrite resolveExpressionType_Variables.
Qed.

Lemma trackSpec_frame (x : string) (spec : Spec) (t t' : VariableTracker) :
  specWrites x spec = false ->
  trackSpec t spec = Ok t' ->
  Variables t' !! x = Variables t !! x.
Proof.
  intros Hx E. destruct spec as [names ty values|]; [|simpl in E; by simplify_eq].
  simpl in *. apply bool_decide_eq_false in Hx.
  apply bind_Ok in E as ([t1 [vt|]] & E1 & E2); simplify_eq.
  - rewrite foldl_setVariable_other by done.
    destruct ty as [e|].
    + apply bind_Ok in E1 as ([st p] & _ & E1). by simplify_eq.
    + destruct values; [by simplify_eq|].
      by erewrite resolveExpressionType_Variables.
  - destruct ty as [e|].
    + apply bind_Ok in E1 as ([st p] & _ & E1). by simplify_eq.
    + destruct values; [by simplify_eq|].
      by erewrite resolveExpressionType_Variables.
Qed.

Lemma trackNode_frame (x : string) (n : Stmt) (t t' : VariableTracker) :
  writes x n = false ->
  trackNode t n = Ok t' ->
  Variables t' !! x = Variables t !! x.
Proof.
  intros Hx E. destruct n as [lhs tok rhs|d| | |]; simpl in *; try (by simplify_eq).
  - unfold trackAssignment in E.
    destruct (decide (tok ≠ DEFINE ∧ tok ≠ ASSIGN)); [by simplify_eq|].
    revert E. apply (forEach_invariant
                       (fun t' => Variables t' !! x = Variables t !! x)); [|done].
    intros b [i e] b' Hin Hb Eb. rewrite <- Hb.
    eapply trackLhs_frame; [|exact Eb].
    eapply existsb_false_elem; [exact Hx|]. by eapply elem_of_imap_pair.
  - destruct d as [tok specs|]; simpl in *; [|by simplify_eq].
    destruct tok; try (by simplify_eq).
    revert E. apply (forEach_invariant
                       (fun t' => Variables t' !! x = Variables t !! x)); [|done].
    intros b spec b' Hin Hb Eb. rewrite <- Hb.
    eapply trackSpec_frame; [|exact Eb].
    by eapply existsb_false_elem.
Qed.

Lemma trackNodes_frame (x : string) (nodes : list Stmt) (t t' : VariableTracker) :
  Forall (fun n => writes x n = false) nodes ->
  forEach trackNode t nodes = Ok t' ->
  Variables t' !! x = Variables t !! x.
Proof.
  intros Hall. apply (forEach_invariant
                        (fun t' => Variables t' !! x = Variables t !! x)); [|done].
  intros b n b' Hin Hb Eb. rewrite <- Hb.
  eapply trackNode_frame; [|exact Eb].
  rewrite Forall_forall in Hall. by apply Hall.
Qed.

(** X12. The type reported for a variable at a call site
    [c.JSON(code, x)] is its type in the scope at function exit, that is the
    type of the last tracked assignment to [x] anywhere in the body: when
    [x = e] (or [x := e]) gives [x] the type [B] and no node visited after
    it writes [x], the analyzer reports [B] for [x], whatever [x] was bound
    to before. *)
Theorem reported_type_is_last_assignment
  (funcDecl : FuncDecl) (t t0 t1 tB tEnd : VariableTracker)
  (pre post : list Stmt) (x : string) (tok : token) (e : Expr) (B : addr) :
  tok = DEFINE \/ tok = ASSIGN ->
  bodyNodes funcDecl = pre ++ AssignStmt [Ident x] tok [e] :: post ->
  forEach trackParam (mkTracker (World t) ∅ (FunctionMap t)) (Params funcDecl) = Ok t0 ->
  forEach trackNode t0 pre = Ok t1 ->
  resolveExpressionType e t1 = Ok (tB, Some B) ->
  Forall (fun n => writes x n = false) post ->
  TrackFunction funcDecl t = Ok tEnd ->
  GetVariableType x tEnd = Some B
  /\ forall (a : ResponseAnalyzer) (code : Expr),
       Variables (Tracker a) = Variables tEnd ->
       checkJSONResponseMethod "c" "JSON" [code; Ident x] a
       = Ok (mkAnalyzer (Tracker a) (Responses a ++ [B])).
Proof.
  intros Htok Hbody Eparams Epre Ee Hpost Etrack.
  assert (GetVariableType x tEnd = Some B) as Hx.
  { unfold TrackFunction in Etrack. rewrite Eparams in Etrack. simpl in Etrack.
    rewrite Hbody, forEach_app, Epre in Etrack. simpl in Etrack.
    apply bind_Ok in Etrack as (t2 & E2 & Epost).
    unfold GetVariableType. rewrite (trackNodes_frame x post t2 tEnd Hpost Epost).
    unfold trackAssignment in E2.
    rewrite decide_False in E2 by (intros [H1 H2]; destruct Htok; done).
    simpl in E2. rewrite Ee in E2. simpl in E2. simplify_eq.
    simpl. by rewrite lookup_insert_eq. }
  split; [done|]. intros a code Hv.
  unfold checkJSONResponseMethod. simpl.
  unfold GetVariableType in *. rewrite Hv, Hx. done.
Qed.

(** A registry with the structs [A] (address 0) and [B] (address 1). *)
Definition abTracker : VariableTracker :=
  mkTracker
    (mkStore
       [ mkType "A" KindStruct [mkField "V" (Some 2) "" false false]
                None None None "p" "" true;
         mkType "B" KindStruct [mkField "W" (Some 2) "" false false]
                None None None "p" "" true;
         mkType "int" KindBasic [] None None None "p" "int" true ]
       (mkRegistry {[ "p" := mkPackageInfo {[ "A" := 0; "B" := 1 ]} ∅ ]} "p"))
    ∅ ∅.

Definition contextParam : Field :=
  mkASTField ["c"] (SelectorExpr (Ident "echo") "Context") None.

Definition respond (x : string) : Stmt :=
  ExprStmt (CallExpr (SelectorExpr (Ident "c") "JSON")
                     [SelectorExpr (Ident "http") "StatusOK"; Ident x]).

(** [x := A{}; c.JSON(http.StatusOK, x); { x := B{} }; return nil] *)
Definition shadowAfterUse : FuncDecl :=
  mkFuncDecl "getItem" [contextParam]
    (Some [ AssignStmt [Ident "x"] DEFINE [CompositeLit (Some (Ident "A")) []];
            respond "x";
            BlockStmt [AssignStmt [Ident "x"] DEFINE
                                  [CompositeLit (Some (Ident "B")) []]];
            ReturnStmt [Ident "nil"] ]).

(** The part of [shadowAfterUse] that precedes the call site. *)
Definition untilCallSite : FuncDecl :=
  mkFuncDecl "getItem" [contextParam]
    (Some [ AssignStmt [Ident "x"] DEFINE [CompositeLit (Some (Ident "A")) []] ]).

(** [x := A{}; x = B{}; c.JSON(http.StatusOK, x)] *)
Definition reassignBeforeUse : FuncDecl :=
  mkFuncDecl "getItem" [contextParam]
    (Some [ AssignStmt [Ident "x"] DEFINE [CompositeLit (Some (Ident "A")) []];
            AssignStmt [Ident "x"] ASSIGN [CompositeLit (Some (Ident "B")) []];
            respond "x" ]).

(** C4, counterexample. The most recent assignment to [x] before the call
    site gives it the type [A]; the block after the call site declares
    another [x] of type [B]; the analyzer reports [B] at the call site. *)
Lemma reported_type_is_type_at_exit :
  exists tSite a,
    TrackFunction untilCallSite abTracker = Ok tSite
    /\ GetVariableType "x" tSite = Some 0
    /\ analyzeResponses shadowAfterUse abTracker = Ok a
    /\ Responses a = [1]
    /\ Name <$> Heap (World (Tracker a)) !! 0 = Some "A"
    /\ Name <$> Heap (World (Tracker a)) !! 1 = Some "B".
Proof.
  eexists _, _. split; [vm_compute; reflexivity|]. split; [reflexivity|].
  split; [vm_compute; reflexivity|]. repeat split.
Qed.

Lemma reported_type_is_last_assignment_witness :
  exists tEnd,
    TrackFunction reassignBeforeUse abTracker = Ok tEnd
    /\ GetVariableType "x" tEnd = Some 1
    /\ forall (a : ResponseAnalyzer) (code : Expr),
         Variables (Tracker a) = Variables tEnd ->
         checkJSONResponseMethod "c" "JSON" [code; Ident "x"] a
         = Ok (mkAnalyzer (Tracker a) (Responses a ++ [1])).
Proof.
  destruct (TrackFunction reassignBeforeUse abTracker) as [tEnd| |] eqn:E;
    [|vm_compute in E; discriminate E..].
  exists tEnd. split; [reflexivity|].
  eapply (reported_type_is_last_assignment reassignBeforeUse abTracker _ _ _ tEnd
            [BlockStmt (default [] (Body reassignBeforeUse));
             AssignStmt [Ident "x"] DEFINE [CompositeLit (Some (Ident "A")) []]]
            [respond "x"] "x" ASSIGN (CompositeLit (Some (Ident "B")) []) 1).
  - by right.
  - reflexivity.
  - vm_compute. reflexivity.
  - vm_compute. reflexivity.
  - vm_compute. reflexivity.
  - repeat constructor.
  - exact E.
Defined.

(** ** The package resolver *)

(** What resolution may do to a definition: nothing, or set its flag. *)
Definition evolves (td td' : TypeDefinition) : Prop :=
  td' = td \/ td' = markResolved td.

Definition heapEvolves (h h' : heap) : Prop := Forall2 evolves h h'.

Definition resolvedAt (h : heap) (a : addr) : Prop :=
  exists td, h !! a = Some td /\ IsResolved td = true.

Lemma markResolved_resolved (td : TypeDefinition) :
  IsResolved td = true -> markResolved td = td.
Proof. destruct td; simpl; intros ->; reflexivity. Qed.

Lemma evolves_refl (td : TypeDefinition) : evolves td td.
Proof. by left. Qed.

Lemma evolves_trans (a b c : TypeDefinition) :
  evolves a b -> evolves b c -> evolves a c.
Proof.
  intros [->| ->] [->| ->]; [by left|by right|by right|].
  right. reflexivity.
Qed.

Lemma heapEvolves_refl (h : heap) : heapEvolves h h.
Proof. apply Forall2_same_length_lookup_2; [done|]. intros; simplify_eq. by left. Qed.

Lemma heapEvolves_trans (h1 h2 h3 : heap) :
  heapEvolves h1 h2 -> heapEvolves h2 h3 -> heapEvolves h1 h3.
Proof.
  unfold heapEvolves. revert h2 h3.
  induction h1 as [|x h1 IH]; intros h2 h3 H12 H23.
  - apply Forall2_nil_inv_l in H12 as ->. by apply Forall2_nil_inv_l in H23 as ->.
  - apply Forall2_cons_inv_l in H12 as (y & h2' & Hxy & H12 & ->).
    apply Forall2_cons_inv_l in H23 as (z & h3' & Hyz & H23 & ->).
    constructor; [by eapply evolves_trans|by eapply IH].
Qed.

Lemma heapEvolves_lookup (h h' : heap) (a : addr) (td : TypeDefinition) :
  heapEvolves h h' -> h !! a = Some td ->
  exists td', h' !! a = Some td' /\ evolves td td'.
Proof. intros He Ha. by eapply Forall2_lookup_l in He. Qed.

Lemma heapEvolves_resolvedAt (h h' : heap) (a : addr) :
  heapEvolves h h' -> resolvedAt h a -> resolvedAt h' a.
Proof.
  intros He (td & Ha & Hr).
  destruct (heapEvolves_lookup _ _ _ _ He Ha) as (td' & Ha' & [->| ->]).
  - by exists td.
  - exists (markResolved td). split; [done|]. reflexivity.
Qed.

Lemma setResolved_evolves (a : addr) (h : heap) : heapEvolves h (setResolved a h).
Proof.
  apply Forall2_same_length_lookup_2; [unfold setResolved; by rewrite length_alter|].
  intros i x y Hx Hy. unfold setResolved in Hy.
  destruct (decide (a = i)) as [->|Hne].
  - rewrite list_lookup_alter_eq, Hx in Hy. simpl in Hy. simplify_eq. by right.
  - rewrite list_lookup_alter_ne in Hy by done. simplify_eq. by left.
Qed.

Lemma setResolved_resolvedAt (a : addr) (h : heap) (td : TypeDefinition) :
  h !! a = Some td -> resolvedAt (setResolved a h) a.
Proof.
  intros Ha. exists (markResolved td). split; [|reflexivity].
  unfold setResolved, addr in *. by rewrite list_lookup_alter_eq, Ha.
Qed.

Lemma deref_Ok (h : heap) (a : addr) (td : TypeDefinition) :
  deref h a = Ok td -> h !! a = Some td.
Proof. unfold deref. destruct (h !! a); intros; by simplify_eq. Qed.

(** [resolveType], when it returns, has only set flags, and has set the
    flag of its argument. *)
Lemma resolveType_spec (n : nat) :
  forall h a h',
    resolveType n h a = Ok h' -> heapEvolves h h' /\ resolvedAt h' a.
Proof.
  induction n as [|n IH]; intros h a h' E; simpl in E;
    apply bind_Ok in E as (td & Ea & E); apply deref_Ok in Ea;
    destruct (IsResolved td) eqn:Er;
    try (simplify_eq; split; [apply heapEvolves_refl|by exists td]);
    try discriminate.
  apply bind_Ok in E as (h1 & E1 & E). simplify_eq.
  assert (forall h p h', match p with
                         | Some b => resolveType n h b
                         | None => Ok h
                         end = Ok h' -> heapEvolves h h') as Hvisit.
  { intros h0 [b|] h0' E0; [by apply IH in E0 as [? _]|].
    simplify_eq. apply heapEvolves_refl. }
  assert (heapEvolves h h1) as H1.
  { destruct (Kind td).
    - revert E1. apply (forEach_invariant (heapEvolves h)); [|apply heapEvolves_refl].
      intros b f b' _ Hb Ef. eapply heapEvolves_trans; [exact Hb|]. by eapply Hvisit.
    - by eapply Hvisit.
    - apply bind_Ok in E1 as (h2 & E2 & E3).
      eapply heapEvolves_trans; by eapply Hvisit.
    - by simplify_eq; apply heapEvolves_refl.
    - by eapply Hvisit. }
  split.
  - eapply heapEvolves_trans; [exact H1|apply setResolved_evolves].
  - destruct (heapEvolves_lookup _ _ _ _ H1 Ea) as (td' & Ha' & _).
    by eapply setResolved_resolvedAt.
Qed.

(** On a type that is already resolved [resolveType] changes nothing,
    whatever the fuel. *)
Lemma resolveType_resolved (n : nat) (h : heap) (a : addr) :
  resolvedAt h a -> resolveType n h a = Ok h.
Proof.
  intros (td & Ha & Hr). destruct n; simpl; unfold deref; rewrite Ha; simpl;
    by rewrite Hr.
Qed.

(** *** Packages *)

(** What resolution may do to the package table: nothing, or register a
    package that was absent, with no types and no imports. *)
Definition regEvolves (r r' : TypeRegistry) : Prop :=
  forall p, Packages r' !! p = Packages r !! p
            \/ (Packages r !! p = None /\ Packages r' !! p = Some newPackageInfo).

(** Every type registered in a package of [resolved] has its flag set. *)
Definition registeredResolved (resolved : gset string) (st : store) : Prop :=
  forall p info name a,
    p ∈ resolved ->
    Packages (Registry st) !! p = Some info ->
    Types info !! name = Some a ->
    resolvedAt (Heap st) a.

Definition proceeds (acc acc' : gset string * store) : Prop :=
  acc.1 ⊆ acc'.1
  /\ heapEvolves (Heap acc.2) (Heap acc'.2)
  /\ regEvolves (Registry acc.2) (Registry acc'.2)
  /\ (registeredResolved acc.1 acc.2 -> registeredResolved acc'.1 acc'.2).

Lemma regEvolves_refl (r : TypeRegistry) : regEvolves r r.
Proof. intros p. by left. Qed.

Lemma regEvolves_trans (r1 r2 r3 : TypeRegistry) :
  regEvolves r1 r2 -> regEvolves r2 r3 -> regEvolves r1 r3.
Proof.
  intros H12 H23 p. destruct (H12 p) as [E12|[E1 E2]], (H23 p) as [E23|[E2' E3]].
  - left. congruence.
  - right. split; congruence.
  - right. split; congruence.
  - congruence.
Qed.

Lemma SetCurrentPackage_regEvolves (p : string) (r : TypeRegistry) :
  regEvolves r (SetCurrentPackage p r).
Proof.
  intros q. unfold SetCurrentPackage, RegisterPackage. simpl.
  destruct (Packages r !! p) eqn:Ep; simpl; [by left|].
  destruct (decide (p = q)) as [->|Hne].
  - right. by rewrite lookup_insert_eq.
  - left. by rewrite lookup_insert_ne.
Qed.

Lemma SetCurrentPackage_registered (p : string) (r : TypeRegistry) :
  is_Some (Packages (SetCurrentPackage p r) !! p).
Proof.
  unfold SetCurrentPackage, RegisterPackage. simpl.
  destruct (Packages r !! p) eqn:Ep; simpl; [by rewrite Ep|].
  rewrite lookup_insert_eq. eauto.
Qed.

Lemma proceeds_refl (acc : gset string * store) : proceeds acc acc.
Proof.
  split; [done|]. split; [apply heapEvolves_refl|]. split; [apply regEvolves_refl|done].
Qed.

Lemma proceeds_trans (a b c : gset string * store) :
  proceeds a b -> proceeds b c -> proceeds a c.
Proof.
  intros (S1 & H1 & R1 & I1) (S2 & H2 & R2 & I2).
  split; [set_solver|]. split; [by eapply heapEvolves_trans|].
  split; [by eapply regEvolves_trans|auto].
Qed.

Lemma registeredResolved_evolves (resolved : gset string) (st st' : store) :
  heapEvolves (Heap st) (Heap st') ->
  regEvolves (Registry st) (Registry st') ->
  registeredResolved resolved st -> registeredResolved resolved st'.
Proof.
  intros Hh Hr Hall p info name a Hp Hinfo Ha.
  destruct (Hr p) as [E|[_ E]]; rewrite E in Hinfo.
  - eapply heapEvolves_resolvedAt; [done|]. by eapply Hall.
  - simplify_eq.
Qed.

Lemma forEach_resolveType_spec (n : nat) (l : list (string * addr)) :
  forall h h',
    forEach (fun h entry => resolveType n h entry.2) h l = Ok h' ->
    heapEvolves h h' /\ forall e, e ∈ l -> resolvedAt h' e.2.
Proof.
  induction l as [|x l IH]; intros h h' E; simpl in E.
  - simplify_eq. split; [apply heapEvolves_refl|]. intros e He. inversion He.
  - apply bind_Ok in E as (h1 & E1 & E2).
    apply resolveType_spec in E1 as [H1 Hx]. apply IH in E2 as [H2 Hl].
    split; [by eapply heapEvolves_trans|].
    intros e He. apply elem_of_cons in He as [->|He]; [|by apply Hl].
    by eapply heapEvolves_resolvedAt.
Qed.

Section ResolverFacts.
Variable rangeOver : forall A : Type, gmap string A -> list (string * A).
Hypothesis rangeOver_perm :
  forall (A : Type) (m : gmap string A), rangeOver A m ≡ₚ map_to_list m.

Lemma elem_of_rangeOver {A} (m : gmap string A) (k : string) (v : A) :
  (k, v) ∈ rangeOver A m <-> m !! k = Some v.
Proof. rewrite rangeOver_perm. apply elem_of_map_to_list. Qed.

Lemma resolvePackageTypes_spec (tfuel : nat) (p : string) (st st' : store) :
  resolvePackageTypes rangeOver tfuel p st = Ok st' ->
  heapEvolves (Heap st) (Heap st')
  /\ Registry st' = SetCurrentPackage p (Registry st)
  /\ forall info name a,
       Packages (Registry st') !! p = Some info ->
       Types info !! name = Some a ->
       resolvedAt (Heap st') a.
Proof.
  unfold resolvePackageTypes. intros E.
  destruct (Packages (SetCurrentPackage p (Registry st)) !! p) as [pkgInfo|] eqn:Ep.
  - apply bind_Ok in E as (h' & E1 & E2). simplify_eq. simpl.
    apply forEach_resolveType_spec in E1 as [Hh Hl].
    split; [done|]. split; [done|].
    intros info name a Hinfo Ha. rewrite Ep in Hinfo. simplify_eq.
    apply (Hl (name, a)). by apply elem_of_rangeOver.
  - simplify_eq. simpl. split; [apply heapEvolves_refl|]. split; [done|].
    intros info name a Hinfo. by rewrite Ep in Hinfo.
Qed.

Lemma resolvePackageDependencies_spec (tfuel : nat)
  (dependencies : gmap string (list string)) (fuel : nat) :
  forall p acc acc',
    resolvePackageDependencies rangeOver fuel tfuel p dependencies acc = Ok acc' ->
    proceeds acc acc' /\ p ∈ acc'.1.
Proof.
  induction fuel as [|n IH]; intros p [resolved st] acc' E; simpl in E.
  - destruct (decide (p ∈ resolved)); [|discriminate].
    simplify_eq. split; [apply proceeds_refl|done].
  - destruct (decide (p ∈ resolved)).
    { simplify_eq. split; [apply proceeds_refl|done]. }
    apply bind_Ok in E as ([resolved1 st1] & E1 & E2).
    apply bind_Ok in E2 as (st2 & E2 & E3). simplify_eq.
    assert (proceeds (resolved, st) (resolved1, st1)) as H1.
    { revert E1. apply (forEach_invariant (proceeds (resolved, st)));
        [|apply proceeds_refl].
      intros b dep b' _ Hb Eb. eapply proceeds_trans; [exact Hb|].
      by apply IH in Eb as [? _]. }
    split; [|set_solver].
    eapply proceeds_trans; [exact H1|].
    apply resolvePackageTypes_spec in E2 as (Hh & Hr & Hp).
    split; [simpl; set_solver|]. split; [done|].
    split; [simpl; rewrite Hr; apply SetCurrentPackage_regEvolves|].
    simpl. intros Hall q info name a Hq Hinfo Ha.
    destruct (decide (q = p)) as [->|Hne]; [by eapply Hp|].
    eapply (registeredResolved_evolves resolved1 st1 st2); eauto.
    + rewrite Hr. apply SetCurrentPackage_regEvolves.
    + set_solver.
Qed.

(** X: the postcondition of [ResolvePackages]. *)
Lemma ResolvePackages_spec (fuel : nat) (st st' : store) :
  ResolvePackages rangeOver fuel st = Ok st' ->
  heapEvolves (Heap st) (Heap st')
  /\ regEvolves (Registry st) (Registry st')
  /\ forall p info name a,
       Packages (Registry st') !! p = Some info ->
       Types info !! name = Some a ->
       resolvedAt (Heap st') a.
Proof.
  unfold ResolvePackages. intros E.
  apply bind_Ok in E as ([resolved st1] & E1 & E2). simplify_eq.
  set (deps := buildPackageDependencies rangeOver (Registry st)) in *.
  assert (forall l acc acc',
             forEach (fun acc entry =>
                        resolvePackageDependencies rangeOver fuel fuel
                          entry.1 deps acc) acc l = Ok acc' ->
             proceeds acc acc'
             /\ forall e : string * PackageInfo, e ∈ l -> e.1 ∈ acc'.1) as Hloop.
  { induction l as [|x l IHl]; intros acc acc' E; simpl in E.
    - simplify_eq. split; [apply proceeds_refl|]. intros e He. inversion He.
    - apply bind_Ok in E as (acc1 & Ex & El).
      apply resolvePackageDependencies_spec in Ex as [Hx Hin].
      apply IHl in El as [Hl Hall].
      split; [by eapply proceeds_trans|].
      intros e He. apply elem_of_cons in He as [->|He]; [|by apply Hall].
      destruct Hl as (Hsub & _). by apply Hsub. }
  apply Hloop in E1 as [(_ & Hh & Hr & Hinv) Hall]. simpl in *.
  split; [done|]. split; [done|].
  intros p info name a Hinfo Ha.
  destruct (Hr p) as [E|[_ E]]; rewrite E in Hinfo; [|by simplify_eq].
  eapply Hinv; [| |rewrite E|]; eauto.
  - intros ? ? ? ? Hempty. set_solver.
  - apply (Hall (p, info)). by apply elem_of_rangeOver.
Qed.
End ResolverFacts.

(** X1. [resolveType], when it returns, has set the flag of its argument and
    has changed no definition in any other way: the heap keeps its length,
    and every definition is either as before or as before with
    [IsResolved] set (so a field whose type was nil still has a nil type).
    A second call, with any fuel, changes nothing. *)
Theorem resolveType_sets_flags_only (n m : nat) (h h' : heap) (a : addr) :
  resolveType n h a = Ok h' ->
  (exists td, h' !! a = Some td /\ IsResolved td = true)
  /\ length h' = length h
  /\ (forall b td, h !! b = Some td ->
        h' !! b = Some td \/ h' !! b = Some (markResolved td))
  /\ resolveType m h' a = Ok h'.
Proof.
  intros E. apply resolveType_spec in E as [He Hr].
  split; [exact Hr|]. split; [symmetry; by eapply Forall2_length|].
  split; [|by apply resolveType_resolved].
  intros b td Hb.
  destruct (heapEvolves_lookup _ _ _ _ He Hb) as (td' & Hb' & [->| ->]);
    [left|right]; exact Hb'.
Qed.

(** [type Item struct { Tags; Owner *Owner }] with a field of unknown type. *)
Definition itemHeap : heap :=
  [ mkType "Item" KindStruct
      [ mkField "Tags" None "tags" false false;
        mkField "Owner" (Some 1) "owner" true true ]
      None None None "shop" "" false;
    mkType "*Owner" KindPointer [] (Some 2) None None "shop" "" false;
    mkType "Owner" KindStruct [mkField "Name" (Some 3) "" false false]
           None None None "shop" "" false;
    mkType "string" KindBasic [] None None None "shop" "string" true ].

Lemma resolveType_sets_flags_only_witness :
  exists h',
    resolveType 3 itemHeap 0 = Ok h'
    /\ (exists td, h' !! 0 = Some td /\ IsResolved td = true)
    /\ length h' = length itemHeap
    /\ (forall b td, itemHeap !! b = Some td ->
          h' !! b = Some td \/ h' !! b = Some (markResolved td))
    /\ resolveType 0 h' 0 = Ok h'.
Proof.
  destruct (resolveType 3 itemHeap 0) as [h'| |] eqn:E;
    [|vm_compute in E; discriminate E..].
  exists h'. split; [reflexivity|].
  exact (resolveType_sets_flags_only 3 0 itemHeap h' 0 E).
Defined.

(** X2. A struct that is not yet resolved and whose first field has a
    pointer type, not yet resolved either, that leads back to the struct
    ([type A struct { Next *A; ... }] as the package scanner collects it):
    [resolveType] never returns on it, whatever the fuel, because the flag
    is set only after the fields have been visited. *)
Theorem resolveType_self_reference_never_returns
  (h : heap) (a b : addr) (td pd : TypeDefinition) (f : FieldDefinition)
  (rest : list FieldDefinition) (fuel : nat) :
  h !! a = Some td ->
  Kind td = KindStruct -> IsResolved td = false ->
  Fields td = f :: rest -> FieldType f = Some b ->
  h !! b = Some pd ->
  Kind pd = KindPointer -> IsResolved pd = false ->
  ElementType pd = Some a ->
  resolveType fuel h a = OutOfFuel.
Proof.
  intros Ha Hk Hr Hf Hft Hb Hkp Hrp He.
  assert (forall n, resolveType n h a = OutOfFuel /\ resolveType n h b = OutOfFuel)
    as Hboth; [|apply Hboth].
  induction n as [|n [IHa IHb]].
  - split; simpl; unfold deref; [rewrite Ha|rewrite Hb]; simpl;
      [by rewrite Hr|by rewrite Hrp].
  - split; simpl; unfold deref.
    + rewrite Ha. simpl. rewrite Hr, Hk, Hf. simpl. rewrite Hft, IHb. done.
    + rewrite Hb. simpl. rewrite Hrp, Hkp, He, IHa. done.
Qed.

Lemma resolveType_self_reference_witness :
  resolveType 1000 selfHeap 0 = OutOfFuel.
Proof.
  apply (resolveType_self_reference_never_returns selfHeap 0 1
           (mkType "A" KindStruct [mkField "Next" (Some 1) "" false true]
                   None None None "p" "" false)
           (mkType "*A" KindPointer [] (Some 0) None None "p" "" false)
           (mkField "Next" (Some 1) "" false true) [] 1000); reflexivity.
Defined.

(** X3. When [ResolvePackages] returns, every type registered in any
    package has [IsResolved] set; no definition has changed otherwise (a
    field whose type was nil still has a nil type); and every package that
    was registered still has the same types and imports. *)
Theorem ResolvePackages_resolves_registered_types
  (rangeOver : forall A : Type, gmap string A -> list (string * A))
  (fuel : nat) (st st' : store) :
  (forall (A : Type) (m : gmap string A), rangeOver A m ≡ₚ map_to_list m) ->
  ResolvePackages rangeOver fuel st = Ok st' ->
  (forall p info name a,
     Packages (Registry st') !! p = Some info ->
     Types info !! name = Some a ->
     exists td, Heap st' !! a = Some td /\ IsResolved td = true)
  /\ length (Heap st') = length (Heap st)
  /\ (forall b td, Heap st !! b = Some td ->
        Heap st' !! b = Some td \/ Heap st' !! b = Some (markResolved td))
  /\ (forall p info, Packages (Registry st) !! p = Some info ->
        Packages (Registry st') !! p = Some info).
Proof.
  intros Hperm E.
  apply (ResolvePackages_spec rangeOver Hperm) in E as (Hh & Hr & Hall).
  split; [exact Hall|]. split; [symmetry; by eapply Forall2_length|]. split.
  - intros b td Hb.
    destruct (heapEvolves_lookup _ _ _ _ Hh Hb) as (td' & Hb' & [->| ->]);
      [left|right]; exact Hb'.
  - intros p info Hp. destruct (Hr p) as [->|[E _]]; [done|congruence].
Qed.

(** Package [shop] with [Item] and [Owner] registered, importing a package
    that is not in the registry. *)
Definition shopStore : store :=
  mkStore itemHeap
    (mkRegistry
       {[ "shop" := mkPackageInfo {[ "Item" := 0; "Owner" := 2 ]}
                                  {[ "util" := "example.com/util" ]} ]}
       "").

Lemma ResolvePackages_witness :
  exists st',
    ResolvePackages (fun A => map_to_list) 3 shopStore = Ok st'
    /\ (forall p info name a,
          Packages (Registry st') !! p = Some info ->
          Types info !! name = Some a ->
          exists td, Heap st' !! a = Some td /\ IsResolved td = true)
    /\ length (Heap st') = length (Heap shopStore)
    /\ (forall b td, Heap shopStore !! b = Some td ->
          Heap st' !! b = Some td \/ Heap st' !! b = Some (markResolved td))
    /\ (forall p info, Packages (Registry shopStore) !! p = Some info ->
          Packages (Registry st') !! p = Some info).
Proof.
  destruct (ResolvePackages (fun A => map_to_list) 3 shopStore) as [st'| |] eqn:E;
    [|vm_compute in E; discriminate E..].
  exists st'. split; [reflexivity|].
  apply (ResolvePackages_resolves_registered_types (fun A => map_to_list) 3
           shopStore st'); [reflexivity|exact E].
Defined.

(** ** A second run of the package resolver *)

Definition depsOf (deps : gmap string (list string)) (p : string) : list string :=
  default [] (deps !! p).

(** The packages of [S] can be ranked so that every dependency of a
    package of [S] is in [S] with a smaller rank. *)
Definition ranked (deps : gmap string (list string)) (rk : string -> nat)
  (S : gset string) : Prop :=
  forall p d, p ∈ S -> d ∈ depsOf deps p -> d ∈ S /\ rk d < rk p.

Definition allResolved (st : store) : Prop :=
  forall p info name a,
    Packages (Registry st) !! p = Some info ->
    Types info !! name = Some a ->
    resolvedAt (Heap st) a.

Lemma SetCurrentPackage_lookup_inv (p q : string) (r : TypeRegistry) :
  is_Some (Packages (SetCurrentPackage p r) !! q) ->
  is_Some (Packages r !! q) \/ q = p.
Proof.
  intros H. destruct (SetCurrentPackage_regEvolves p r q) as [E|[E1 E2]].
  - left. by rewrite <- E.
  - right. destruct (decide (q = p)) as [->|Hne]; [done|].
    unfold SetCurrentPackage, RegisterPackage in E2. simpl in E2.
    destruct (Packages r !! p); simpl in E2; [congruence|].
    rewrite lookup_insert_ne in E2 by done. congruence.
Qed.

Lemma SetCurrentPackage_registered_same (p : string) (r : TypeRegistry) :
  is_Some (Packages r !! p) ->
  Packages (SetCurrentPackage p r) = Packages r.
Proof.
  intros [info E]. unfold SetCurrentPackage, RegisterPackage. simpl. by rewrite E.
Qed.

Lemma forEach_resolveType_resolved (n : nat) (l : list (string * addr)) (h : heap) :
  (forall e, e ∈ l -> resolvedAt h e.2) ->
  forEach (fun h entry => resolveType n h entry.2) h l = Ok h.
Proof.
  induction l as [|x l IH]; intros Hall; simpl; [done|].
  rewrite resolveType_resolved by (apply Hall; by left). simpl.
  apply IH. intros; apply Hall; by right.
Qed.

Section SecondRun.
Variable rangeOver : forall A : Type, gmap string A -> list (string * A).
Hypothesis rangeOver_perm :
  forall (A : Type) (m : gmap string A), rangeOver A m ≡ₚ map_to_list m.

Lemma elem_of_deps (r : TypeRegistry) (p d : string) :
  d ∈ depsOf (buildPackageDependencies rangeOver r) p
  <-> exists info alias,
        Packages r !! p = Some info
        /\ Imports info !! alias = Some d
        /\ isLocalImport d = true.
Proof.
  unfold depsOf, buildPackageDependencies. rewrite lookup_fmap.
  destruct (Packages r !! p) as [info|]; simpl.
  - rewrite list_elem_of_filter, list_elem_of_fmap. split.
    + intros (Hl & [alias d'] & -> & Hin). apply elem_of_rangeOver in Hin; [|done].
      by exists info, alias.
    + intros (info' & alias & Hi & Ha & Hl). simplify_eq. split; [done|].
      exists (alias, d). split; [done|]. by apply elem_of_rangeOver.
  - split; [intros H; inversion H|]. by intros (? & ? & ? & _).
Qed.

(** On a store whose registered types are all resolved, resolving the
    types of a registered package changes neither heap nor packages. *)
Lemma resolvePackageTypes_allResolved (tfuel : nat) (p : string) (st : store) :
  allResolved st ->
  is_Some (Packages (Registry st) !! p) ->
  exists st', resolvePackageTypes rangeOver tfuel p st = Ok st'
              /\ Heap st' = Heap st
              /\ Packages (Registry st') = Packages (Registry st).
Proof.
  intros Hall Hp. unfold resolvePackageTypes.
  pose proof (SetCurrentPackage_registered_same p _ Hp) as Hsame.
  destruct Hp as [info Hp]. rewrite Hsame, Hp.
  rewrite forEach_resolveType_resolved.
  - simpl. eexists. split; [reflexivity|]. simpl. done.
  - intros [name a] Hin. apply elem_of_rangeOver in Hin; [|done].
    by eapply Hall.
Qed.

Lemma resolvePackageDependencies_again (tfuel : nat)
  (deps : gmap string (list string)) (rk : string -> nat) (S : gset string) :
  ranked deps rk S ->
  forall n p resolved st,
    p ∈ S -> rk p < n ->
    allResolved st ->
    (forall q, q ∈ S -> is_Some (Packages (Registry st) !! q)) ->
    exists resolved' st',
      resolvePackageDependencies rangeOver n tfuel p deps (resolved, st)
      = Ok (resolved', st')
      /\ Heap st' = Heap st
      /\ Packages (Registry st') = Packages (Registry st).
Proof.
  intros Hrank. induction n as [|n IH]; intros p resolved st Hp Hlt Hall Hreg;
    [lia|].
  simpl. destruct (decide (p ∈ resolved)); [by eexists _, _|].
  assert (forall l res0 st0,
            (forall d, d ∈ l -> d ∈ S /\ rk d < n) ->
            Heap st0 = Heap st -> Packages (Registry st0) = Packages (Registry st) ->
            exists res1 st1,
              forEach (fun acc dep =>
                         resolvePackageDependencies rangeOver n tfuel dep deps acc)
                      (res0, st0) l = Ok (res1, st1)
              /\ Heap st1 = Heap st
              /\ Packages (Registry st1) = Packages (Registry st)) as Hloop.
  { induction l as [|d l IHl]; intros res0 st0 Hl Hh Hpk; simpl; [by eexists _, _|].
    destruct (Hl d) as [Hd Hrd]; [by left|].
    destruct (IH d res0 st0 Hd Hrd) as (res1 & st1 & -> & Hh1 & Hpk1).
    - intros q info name a Hq Ha. rewrite Hh. rewrite Hpk in Hq. by eapply Hall.
    - intros q Hq. rewrite Hpk. by apply Hreg.
    - simpl. apply IHl; [intros; apply Hl; by right|congruence|congruence]. }
  destruct (Hloop (default [] (deps !! p)) resolved st) as (res1 & st1 & -> & Hh1 & Hpk1);
    [|done|done|].
  { intros d Hd. destruct (Hrank p d Hp Hd) as [Hs Hr]. split; [done|lia]. }
  simpl.
  destruct (resolvePackageTypes_allResolved tfuel p st1) as (st2 & -> & Hh2 & Hpk2).
  - intros q info name a Hq Ha. rewrite Hh1. rewrite Hpk1 in Hq. by eapply Hall.
  - rewrite Hpk1. by apply Hreg.
  - simpl. eexists _, _. split; [reflexivity|]. split; congruence.
Qed.
End SecondRun.

Lemma regEvolves_is_Some (r r' : TypeRegistry) (p : string) :
  regEvolves r r' -> is_Some (Packages r !! p) -> is_Some (Packages r' !! p).
Proof. intros H Hp. destruct (H p) as [->|[_ ->]]; eauto. Qed.

(** What a run keeps track of: the visited packages can be ranked along
    their dependencies, they are registered, and every registered package
    was registered in [r0] or has been visited. *)
Definition visitedInv (deps : gmap string (list string)) (r0 : TypeRegistry)
  (acc : gset string * store) : Prop :=
  (exists rk, ranked deps rk acc.1)
  /\ (forall q, q ∈ acc.1 -> is_Some (Packages (Registry acc.2) !! q))
  /\ (forall q, is_Some (Packages (Registry acc.2) !! q) ->
        is_Some (Packages r0 !! q) \/ q ∈ acc.1).

Section FirstRun.
Variable rangeOver : forall A : Type, gmap string A -> list (string * A).
Hypothesis rangeOver_perm :
  forall (A : Type) (m : gmap string A), rangeOver A m ≡ₚ map_to_list m.

Lemma forEach_dependencies_covers (tfuel n : nat)
  (deps : gmap string (list string)) (l : list string) :
  forall acc acc',
    forEach (fun acc dep =>
               resolvePackageDependencies rangeOver n tfuel dep deps acc)
            acc l = Ok acc' ->
    proceeds acc acc' /\ forall d, d ∈ l -> d ∈ acc'.1.
Proof.
  induction l as [|x l IHl]; intros acc acc' E; simpl in E.
  - simplify_eq. split; [apply proceeds_refl|]. intros e He. inversion He.
  - apply bind_Ok in E as (acc1 & Ex & El).
    apply (resolvePackageDependencies_spec rangeOver rangeOver_perm) in Ex
      as [Hx Hin].
    apply IHl in El as [Hl Hall].
    split; [by eapply proceeds_trans|].
    intros e He. apply elem_of_cons in He as [->|He]; [|by apply Hall].
    destruct Hl as (Hsub & _). by apply Hsub.
Qed.

Lemma resolvePackageDependencies_visited (tfuel : nat)
  (deps : gmap string (list string)) (r0 : TypeRegistry) (n : nat) :
  forall p acc acc',
    resolvePackageDependencies rangeOver n tfuel p deps acc = Ok acc' ->
    visitedInv deps r0 acc -> visitedInv deps r0 acc'.
Proof.
  induction n as [|n IH]; intros p [resolved st] acc' E Hinv; simpl in E.
  { destruct (decide (p ∈ resolved)); [|discriminate]. by simplify_eq. }
  destruct (decide (p ∈ resolved)); [by simplify_eq|].
  apply bind_Ok in E as ([resolved1 st1] & E1 & E2).
  apply bind_Ok in E2 as (st2 & E2 & E3). simplify_eq.
  assert (visitedInv deps r0 (resolved1, st1)) as ([rk1 Hrk1] & Hreg1 & Hnew1).
  { revert E1. apply (forEach_invariant (visitedInv deps r0)); [|done].
    intros b dep b' _ Hb Eb. by eapply IH. }
  apply forEach_dependencies_covers in E1 as [_ Hcov]. simpl in *.
  apply (resolvePackageTypes_spec rangeOver rangeOver_perm) in E2
    as (_ & Hr & _).
  split; [|split]; simpl.
  - destruct (decide (p ∈ resolved1)) as [Hin|Hnin].
    + exists rk1. intros q d Hq Hd.
      assert (q ∈ resolved1) as Hq' by set_solver.
      destruct (Hrk1 q d Hq' Hd). split; [set_solver|done].
    + exists (fun q => if decide (q = p)
                       then S (max_list (rk1 <$> depsOf deps p))
                       else rk1 q).
      intros q d Hq Hd.
      destruct (decide (q = p)) as [->|Hqp].
      * assert (d ∈ resolved1) as Hd1 by (apply Hcov; exact Hd).
        split; [set_solver|].
        destruct (decide (d = p)) as [->|_]; [done|].
        assert (rk1 d <= max_list (rk1 <$> depsOf deps p))%nat; [|lia].
        apply max_list_elem_of_le, list_elem_of_fmap. by exists d.
      * assert (q ∈ resolved1) as Hq' by set_solver.
        destruct (Hrk1 q d Hq' Hd) as [Hd1 Hlt]. split; [set_solver|].
        destruct (decide (d = p)) as [->|_]; [done|exact Hlt].
  - intros q Hq. rewrite Hr.
    destruct (decide (q = p)) as [->|Hqp]; [apply SetCurrentPackage_registered|].
    eapply regEvolves_is_Some; [apply SetCurrentPackage_regEvolves|].
    apply Hreg1. set_solver.
  - intros q Hq. rewrite Hr in Hq.
    apply SetCurrentPackage_lookup_inv in Hq as [Hq| ->]; [|right; set_solver].
    destruct (Hnew1 q Hq); [by left|right; set_solver].
Qed.
End FirstRun.

Lemma deps_after_run
  (rangeOver rangeOver' : forall A : Type, gmap string A -> list (string * A))
  (r r' : TypeRegistry) (p d : string) :
  (forall (A : Type) (m : gmap string A), rangeOver A m ≡ₚ map_to_list m) ->
  (forall (A : Type) (m : gmap string A), rangeOver' A m ≡ₚ map_to_list m) ->
  regEvolves r r' ->
  d ∈ depsOf (buildPackageDependencies rangeOver' r') p ->
  d ∈ depsOf (buildPackageDependencies rangeOver r) p.
Proof.
  intros Hp Hp' Hr. rewrite !elem_of_deps by done.
  intros (info & alias & Hi & Ha & Hl).
  destruct (Hr p) as [E|[_ E]]; rewrite E in Hi.
  - by exists info, alias.
  - by simplify_eq.
Qed.

(** A second run: the packages that the first run visited are ranked along
    their dependencies, and every registered type is resolved. *)
Lemma ResolvePackages_again
  (rangeOver rangeOver' : forall A : Type, gmap string A -> list (string * A))
  (fuel : nat) (st st1 : store) :
  (forall (A : Type) (m : gmap string A), rangeOver A m ≡ₚ map_to_list m) ->
  (forall (A : Type) (m : gmap string A), rangeOver' A m ≡ₚ map_to_list m) ->
  ResolvePackages rangeOver fuel st = Ok st1 ->
  exists fuel', forall m, fuel' <= m ->
    exists st2,
      ResolvePackages rangeOver' m st1 = Ok st2
      /\ Heap st2 = Heap st1
      /\ Packages (Registry st2) = Packages (Registry st1).
Proof.
  intros Hperm Hperm' E.
  pose proof (ResolvePackages_spec rangeOver Hperm _ _ _ E) as (_ & Hreg & Hall).
  unfold ResolvePackages in E.
  apply bind_Ok in E as ([S st1'] & E1 & E2). simplify_eq.
  set (deps := buildPackageDependencies rangeOver (Registry st)) in *.
  assert (visitedInv deps (Registry st) (S, st1)) as ([rk Hrk] & HS & Hnew).
  { revert E1. apply (forEach_invariant (visitedInv deps (Registry st))).
    - intros b e b' _ Hb Eb.
      by eapply (resolvePackageDependencies_visited rangeOver Hperm).
    - split; [exists (fun _ => 0); intros ? ? Hin; set_solver|].
      split; [intros ? Hin; set_solver|]. intros q Hq. by left. }
  assert (forall e : string * PackageInfo,
            e ∈ rangeOver _ (Packages (Registry st)) -> e.1 ∈ S) as Hcov.
  { clear -E1 Hperm. revert E1.
    generalize (rangeOver _ (Packages (Registry st))).
    generalize (∅ : gset string, st). intros acc l. revert acc.
    induction l as [|x l IHl]; intros acc E e He; [inversion He|].
    simpl in E. apply bind_Ok in E as (acc1 & Ex & El).
    apply elem_of_cons in He as [->|He]; [|by eapply IHl].
    apply (resolvePackageDependencies_spec rangeOver Hperm) in Ex as [_ Hin].
    assert (proceeds acc1 (S, st1)) as [Hsub _]; [|by apply Hsub].
    revert El. apply (forEach_invariant (proceeds acc1)); [|apply proceeds_refl].
    intros b y b' _ Hb Eb. eapply proceeds_trans; [exact Hb|].
    by apply (resolvePackageDependencies_spec rangeOver Hperm) in Eb as [? _]. }
  simpl in *.
  assert (forall q, is_Some (Packages (Registry st1) !! q) -> q ∈ S) as Hin.
  { intros q Hq. destruct (Hnew q Hq) as [[info Hq0]|]; [|done].
    apply (Hcov (q, info)). by apply elem_of_rangeOver. }
  set (deps' := buildPackageDependencies rangeOver' (Registry st1)).
  assert (ranked deps' rk S) as Hrk'.
  { intros p d Hp Hd. apply (Hrk p d Hp).
    by eapply (deps_after_run rangeOver rangeOver'). }
  exists (Datatypes.S (max_list (rk <$> elements S))). intros m Hm.
  unfold ResolvePackages. fold deps'.
  assert (forall l res0 st0,
            (forall e : string * PackageInfo, e ∈ l -> e.1 ∈ S) ->
            Heap st0 = Heap st1 ->
            Packages (Registry st0) = Packages (Registry st1) ->
            exists res2 st2,
              forEach (fun acc entry =>
                         resolvePackageDependencies rangeOver' m m entry.1 deps' acc)
                      (res0, st0) l = Ok (res2, st2)
              /\ Heap st2 = Heap st1
              /\ Packages (Registry st2) = Packages (Registry st1)) as Hloop.
  { induction l as [|x l IHl]; intros res0 st0 Hl Hh Hpk; simpl;
      [by eexists _, _|].
    destruct (resolvePackageDependencies_again rangeOver' Hperm' m deps' rk S
                Hrk' m x.1 res0 st0) as (res1 & st1' & -> & Hh1 & Hpk1).
    - apply Hl. by left.
    - assert (rk x.1 <= max_list (rk <$> elements S))%nat; [|lia].
      apply max_list_elem_of_le, list_elem_of_fmap. exists x.1.
      split; [done|]. apply elem_of_elements, Hl. by left.
    - intros q info name a Hq Ha. rewrite Hh. rewrite Hpk in Hq. by eapply Hall.
    - intros q Hq. rewrite Hpk. by apply HS.
    - simpl. apply IHl; [intros; apply Hl; by right|congruence|congruence]. }
  destruct (Hloop (rangeOver' _ (Packages (Registry st1))) ∅ st1)
    as (res2 & st2 & -> & Hh2 & Hpk2); [|done|done|].
  { intros [q info] Hq. apply elem_of_rangeOver in Hq; [|done]. apply Hin. eauto. }
  simpl. by exists st2.
Qed.

(** X4. After [ResolvePackages] has returned, running it again returns
    too, at whatever order the maps are then ranged over and with any nesting
    allowance from some bound on: the packages visited by the first run are
    ranked along their dependencies, so the second walk is finite even where
    it takes another path.  The second run changes no type definition and
    leaves the table of packages as it is. *)
Theorem ResolvePackages_second_run_changes_nothing
  (rangeOver rangeOver' : forall A : Type, gmap string A -> list (string * A))
  (fuel : nat) (st st1 : store) :
  (forall (A : Type) (m : gmap string A), rangeOver A m ≡ₚ map_to_list m) ->
  (forall (A : Type) (m : gmap string A), rangeOver' A m ≡ₚ map_to_list m) ->
  ResolvePackages rangeOver fuel st = Ok st1 ->
  exists fuel', forall m, fuel' <= m ->
    exists st2,
      ResolvePackages rangeOver' m st1 = Ok st2
      /\ Heap st2 = Heap st1
      /\ Packages (Registry st2) = Packages (Registry st1).
Proof.
  intros Hperm Hperm' E.
  destruct (ResolvePackages_again rangeOver rangeOver' fuel st st1 Hperm Hperm' E)
    as [fuel' Hagain].
  exists fuel'. exact Hagain.
Qed.

Lemma ResolvePackages_second_run_witness :
  exists st1,
    ResolvePackages (fun A => map_to_list) 3 shopStore = Ok st1
    /\ exists fuel', forall m, fuel' <= m ->
         exists st2,
           ResolvePackages (fun A => map_to_list) m st1 = Ok st2
           /\ Heap st2 = Heap st1
           /\ Packages (Registry st2) = Packages (Registry st1).
Proof.
  destruct (ResolvePackages (fun A => map_to_list) 3 shopStore) as [st1| |] eqn:E;
    [|vm_compute in E; discriminate E..].
  exists st1. split; [reflexivity|].
  apply (ResolvePackages_second_run_changes_nothing
           (fun A => map_to_list) (fun A => map_to_list) 3 shopStore st1);
    [reflexivity|reflexivity|exact E].
Defined.

(** ** More on the schema generator *)

(** The memo only grows: what was memoized stays as it was. *)
Lemma GenerateSchema_memo_grows (h : heap) (n : nat) :
  forall g p g' s, GenerateSchema h n g p = Ok (g', s) -> g ⊆ g'.
Proof.
  induction n as [|n IH]; intros g p g' s E.
  - destruct p as [a|]; simpl in E; [|by simplify_eq].
    destruct (h !! a) as [td|]; [|discriminate].
    destruct (g !! schemaKey td); [by simplify_eq|discriminate].
  - destruct p as [a|]; [|simpl in E; by simplify_eq].
    simpl in E. destruct (h !! a) as [td|]; [|discriminate].
    destruct (g !! schemaKey td) eqn:Eg; [by simplify_eq|].
    apply bind_Ok in E as ([g1 s1] & E1 & E2).
    assert (g ⊆ g1) as Hsub.
    { destruct (Kind td).
      - apply bind_Ok in E1 as ([g2 s2] & E1 & E3). simplify_eq.
        unfold generateStructSchema in E1.
        change g with (g, mkSchema JSONSchemaTypeObject "" "" None ∅ [] None).1.
        change g1 with (g1, s2).1.
        revert E1. apply (forEach_invariant
                            (fun acc : memo * JSONSchema => g ⊆ acc.1)); [|done].
        intros [gb sb] f [gb' sb'] _ Hb Ef. simpl in *.
        unfold structSchemaField in Ef. destruct (FieldType f); [|by simplify_eq].
        apply bind_Ok in Ef as ([g3 s3] & Ef1 & Ef2). apply IH in Ef1.
        destruct s3; [destruct (negb (Omitempty f))|]; simplify_eq;
          by etrans.
      - apply bind_Ok in E1 as ([g2 s2] & E1 & E3). simplify_eq.
        unfold generateArraySchema in E1.
        destruct (ElementType td); [|by simplify_eq].
        apply bind_Ok in E1 as ([g3 s3] & Ef1 & Ef2). apply IH in Ef1.
        by simplify_eq.
      - apply bind_Ok in E1 as ([g2 s2] & E1 & E3). simplify_eq.
        unfold generateMapSchema in E1.
        destruct (ValueType td); [|by simplify_eq].
        apply bind_Ok in E1 as ([g3 s3] & Ef1 & Ef2). apply IH in Ef1.
        by simplify_eq.
      - by simplify_eq.
      - destruct (ElementType td); [by apply IH in E1|by simplify_eq]. }
    destruct s1; simplify_eq; [|done].
    apply map_subseteq_spec. intros i x Hi.
    rewrite lookup_insert_ne by congruence.
    by eapply lookup_weaken.
Qed.

Lemma GenerateSchema_nil_memo (h : heap) (n : nat) :
  forall g p g', GenerateSchema h n g p = Ok (g', None) -> g' = g.
Proof.
  induction n as [|n IH]; intros g p g' E.
  - destruct p as [a|]; simpl in E; [|by simplify_eq].
    destruct (h !! a) as [td|]; [|discriminate].
    destruct (g !! schemaKey td); [by simplify_eq|discriminate].
  - destruct p as [a|]; [|simpl in E; by simplify_eq].
    simpl in E. destruct (h !! a) as [td|]; [|discriminate].
    destruct (g !! schemaKey td) eqn:Eg; [by simplify_eq|].
    apply bind_Ok in E as ([g1 [s1|]] & E1 & E2); simplify_eq.
    destruct (Kind td).
    + apply bind_Ok in E1 as ([g2 s2] & E1 & E3). simplify_eq.
    + apply bind_Ok in E1 as ([g2 s2] & E1 & E3). simplify_eq.
    + apply bind_Ok in E1 as ([g2 s2] & E1 & E3). simplify_eq.
    + simplify_eq.
    + destruct (ElementType td); [by apply IH in E1|by simplify_eq].
Qed.

(** X5. [GenerateSchema] never drops or replaces a schema that was memoized
    when it was called, and calling it again on the same type returns the
    same schema and leaves the memo as the first call left it. *)
Theorem GenerateSchema_memoizes
  (h : heap) (n m : nat) (g g' : memo) (p : ptr) (s : option JSONSchema) :
  n <= m ->
  GenerateSchema h n g p = Ok (g', s) ->
  g ⊆ g' /\ GenerateSchema h m g' p = Ok (g', s).
Proof.
  intros Hnm E. split; [by eapply GenerateSchema_memo_grows|].
  destruct s as [s|].
  - destruct p as [a|]; [|destruct n; simpl in E; simplify_eq].
    assert (exists td, h !! a = Some td /\ g' !! schemaKey td = Some s)
      as (td & Ha & Hs).
    { destruct n; simpl in E; destruct (h !! a) as [td|]; try discriminate;
        destruct (g !! schemaKey td) eqn:Eg; try discriminate;
        try (simplify_eq; by exists td).
      apply bind_Ok in E as ([g1 [s1|]] & E1 & E2); simplify_eq.
      exists td. by rewrite lookup_insert_eq. }
    destruct m; simpl; by rewrite Ha, Hs.
  - assert (g' = g) as -> by (by eapply GenerateSchema_nil_memo).
    exact (GenerateSchema_fuel_mono h n m g p _ Hnm E).
Qed.

Lemma GenerateSchema_memoizes_witness :
  exists g' s,
    GenerateSchema userHeap 2 ∅ (Some 2) = Ok (g', s)
    /\ ∅ ⊆ g' /\ GenerateSchema userHeap 5 g' (Some 2) = Ok (g', s).
Proof.
  destruct (GenerateSchema userHeap 2 ∅ (Some 2)) as [[g' s]| |] eqn:E;
    [|vm_compute in E; discriminate E..].
  exists g', s. split; [reflexivity|].
  apply (GenerateSchema_memoizes userHeap 2 5 ∅ g' (Some 2) s); [lia|exact E].
Defined.

(** *** Examples *)

Lemma generateExample_nonnil (h : heap) :
  pointersHaveElements h ->
  forall n a e, generateExample h n (Some a) = Ok e -> is_Some e.
Proof.
  intros Hp n. induction n as [|n IH]; intros a e E; simpl in E;
    apply bind_Ok in E as (td & Ea & E); apply deref_Ok in Ea; [discriminate|].
  destruct (Kind td) eqn:Ek.
  - apply bind_Ok in E as (m & _ & E). simplify_eq. eauto.
  - apply fmap_Ok in E as (x & _ & ->). eauto.
  - apply fmap_Ok in E as (x & _ & ->). eauto.
  - simplify_eq. eauto.
  - destruct (ElementType td) as [b|] eqn:Ee; [by eapply IH|].
    by destruct (Hp a td Ea Ek).
Qed.

Lemma generateExample_total (h : heap) (n : nat) :
  forall p, boundedDepth n h p = true -> exists e, generateExample h n p = Ok e.
Proof.
  induction n as [|n IH]; intros p Hb.
  - destruct p; [discriminate|]. simpl. eauto.
  - destruct p as [a|]; [|simpl; eauto]. simpl in *. unfold deref.
    destruct (h !! a) as [td|]; [|discriminate]. simpl.
    destruct (Kind td).
    + assert (forall fields acc,
                 forallb (fun f => boundedDepth n h (FieldType f)) fields = true ->
                 exists r, forEach (structExampleField (generateExample h n)) acc fields
                           = Ok r) as Hloop.
      { induction fields as [|f fields IHf]; intros acc Hall; simpl; [eauto|].
        apply andb_prop in Hall as [Hf Hall].
        assert (exists r, structExampleField (generateExample h n) acc f = Ok r)
          as [r ->].
        { unfold structExampleField.
          destruct (FieldType f) eqn:Ef; [|eauto].
          destruct (Omitempty f); [eauto|].
          destruct (IH _ Hf) as [[e|] ->]; simpl; eauto. }
        simpl. by apply IHf. }
      unfold generateStructExample.
      destruct (Hloop (Fields td) ∅ Hb) as [m ->]. simpl. eauto.
    + unfold generateArrayExample. destruct (ElementType td) eqn:Ee; [|simpl; eauto].
      destruct (IH _ Hb) as [[e|] ->]; simpl; eauto.
    + unfold generateMapExample. destruct (ValueType td) eqn:Ee; [|simpl; eauto].
      destruct (IH _ Hb) as [[e|] ->]; simpl; eauto.
    + eauto.
    + destruct (ElementType td) eqn:Ee; [|eauto]. by apply IH.
Qed.

(** X6. On a non-cyclic type both generators return, whatever the memo; and
    when every pointer type has an element, what they return for a type
    that is not nil is not nil. *)
Theorem generators_return_on_noncyclic_types
  (h : heap) (n : nat) (g : memo) (p : ptr) :
  boundedDepth n h p = true ->
  exists g' s e,
    GenerateSchema h n g p = Ok (g', s)
    /\ generateExample h n p = Ok e
    /\ (pointersHaveElements h -> p <> None -> is_Some s /\ is_Some e).
Proof.
  intros Hb.
  destruct (GenerateSchema_total h n g p Hb) as [[g' s] Es].
  destruct (generateExample_total h n p Hb) as [e Ee].
  exists g', s, e. split; [done|]. split; [done|].
  intros Hp Hne. destruct p as [a|]; [|done]. split.
  - by eapply GenerateSchema_nonnil.
  - by eapply generateExample_nonnil.
Qed.

Lemma generators_return_witness :
  exists g' s e,
    GenerateSchema userHeap 2 ∅ (Some 2) = Ok (g', s)
    /\ generateExample userHeap 2 (Some 2) = Ok e
    /\ (pointersHaveElements userHeap -> Some 2 <> None -> is_Some s /\ is_Some e).
Proof.
  apply (generators_return_on_noncyclic_types userHeap 2 ∅ (Some 2)). reflexivity.
Defined.

Lemma structExample_keys (h : heap) (n : nat) :
  pointersHaveElements h ->
  forall fields m0 m,
    forEach (structExampleField (generateExample h n)) m0 fields = Ok m ->
    dom m = dom m0
            ∪ list_to_set (wireName <$> filter (fun f => Omitempty f = false)
                             (filter (fun f => FieldType f <> None) fields)).
Proof.
  intros Hp fields. induction fields as [|f fields IH]; intros m0 m E; simpl in E.
  - simplify_eq. set_solver.
  - apply bind_Ok in E as (m1 & E1 & E2). apply IH in E2 as ->.
    unfold structExampleField in E1.
    destruct (FieldType f) as [a|] eqn:Ef.
    + rewrite (filter_cons (fun f => FieldType f <> None)), Ef.
      rewrite decide_True by done.
      destruct (Omitempty f) eqn:Eo.
      * simplify_eq. rewrite filter_cons, Eo. by rewrite decide_False by done.
      * apply bind_Ok in E1 as (ex & E1 & E3).
        destruct (generateExample_nonnil h Hp _ _ _ E1) as [ex' ->].
        simplify_eq. rewrite filter_cons, Eo. rewrite decide_True by done.
        rewrite dom_insert_L. set_solver.
    + simplify_eq. rewrite (filter_cons (fun f => FieldType f <> None)), Ef.
      by rewrite decide_False by (intros X; by apply X).
Qed.

(** X7. The example generated for a struct has exactly the properties that
    the schema generated for it requires. *)
Theorem struct_example_has_the_required_properties
  (h : heap) (n k : nat) (g g' : memo) (td : TypeDefinition) (s : JSONSchema)
  (m : gmap string Example) :
  pointersHaveElements h ->
  generateStructSchema (GenerateSchema h n) g td = Ok (g', s) ->
  generateStructExample (generateExample h k) td = Ok m ->
  dom m = list_to_set (Required s).
Proof.
  intros Hp Es Em.
  apply (structSchema_loop h n Hp) in Es as (_ & _ & ->). simpl.
  apply (structExample_keys h k Hp) in Em. rewrite Em. set_solver.
Qed.

Lemma struct_example_witness :
  exists g' s m,
    generateStructSchema (GenerateSchema userHeap 1) ∅ userType = Ok (g', s)
    /\ generateStructExample (generateExample userHeap 1) userType = Ok m
    /\ dom m = list_to_set (Required s).
Proof.
  destruct (generateStructSchema (GenerateSchema userHeap 1) ∅ userType)
    as [[g' s]| |] eqn:Es; [|vm_compute in Es; discriminate Es..].
  destruct (generateStructExample (generateExample userHeap 1) userType)
    as [m| |] eqn:Em; [|vm_compute in Em; discriminate Em..].
  exists g', s, m. split; [reflexivity|]. split; [reflexivity|].
  exact (struct_example_has_the_required_properties userHeap 1 1 ∅ g' userType s m
           userHeap_pointers Es Em).
Defined.

(** ** Nesting *)

Definition PropertyType (p : JSONSchemaProperty) : string :=
  let 'mkProperty t _ _ _ _ _ _ _ := p in t.
Definition PropertyItems (p : JSONSchemaProperty) : option JSONSchema :=
  let 'mkProperty _ _ _ i _ _ _ _ := p in i.

(** X8. For a map whose values are slices of [P] (as [map[string][]P]), with
    nothing memoized under the keys of the map and of the slice, the schema
    is an object whose additional properties are an array, and the items of
    that array are the schema generated for [P]. *)
Theorem map_of_slices_schema_nests
  (h : heap) (n : nat) (g gP : memo) (m arr P : addr) (tdM tdA : TypeDefinition)
  (sP : option JSONSchema) :
  h !! m = Some tdM -> Kind tdM = KindMap -> ValueType tdM = Some arr ->
  h !! arr = Some tdA -> Kind tdA = KindArray -> ElementType tdA = Some P ->
  g !! schemaKey tdM = None -> g !! schemaKey tdA = None ->
  GenerateSchema h n g (Some P) = Ok (gP, sP) ->
  exists g' s addl,
    GenerateSchema h (S (S n)) g (Some m) = Ok (g', Some s)
    /\ SchemaType s = JSONSchemaTypeObject
    /\ AdditionalProperties s = Some addl
    /\ PropertyType addl = JSONSchemaTypeArray
    /\ PropertyItems addl = sP.
Proof.
  intros Hm HkM HvM Ha HkA HeA HgM HgA EP.
  rewrite (GenerateSchema_build h (S n) g m tdM Hm HgM), HkM.
  unfold generateMapSchema. rewrite HvM.
  rewrite (GenerateSchema_build h n g arr tdA Ha HgA), HkA.
  unfold generateArraySchema. rewrite HeA, EP. simpl.
  eexists _, _, _. split; [reflexivity|]. by simpl.
Qed.

(** [map[string][]User] over the record of the specification. *)
Definition nestedHeap : heap :=
  userHeap ++
  [ mkType "[]User" KindArray [] (Some 2) None None "p" "" true;
    mkType "map[string][]User" KindMap [] None (Some 1) (Some 3) "p" "" true ].

Lemma map_of_slices_witness :
  exists gP sP g' s addl,
    GenerateSchema nestedHeap 2 ∅ (Some 2) = Ok (gP, sP)
    /\ GenerateSchema nestedHeap 4 ∅ (Some 4) = Ok (g', Some s)
    /\ SchemaType s = JSONSchemaTypeObject
    /\ AdditionalProperties s = Some addl
    /\ PropertyType addl = JSONSchemaTypeArray
    /\ PropertyItems addl = sP.
Proof.
  destruct (GenerateSchema nestedHeap 2 ∅ (Some 2)) as [[gP sP]| |] eqn:EP;
    [|vm_compute in EP; discriminate EP..].
  exists gP, sP. 
  destruct (map_of_slices_schema_nests nestedHeap 2 ∅ gP 4 3 2
              (mkType "map[string][]User" KindMap [] None (Some 1) (Some 3) "p" "" true)
              (mkType "[]User" KindArray [] (Some 2) None None "p" "" true) sP)
    as (g' & s & addl & H); try reflexivity; [exact EP|].
  exists g', s, addl. split; [reflexivity|]. exact H.
Defined.

(** ** More on the variable tracker and the response analyzer *)

Lemma resolveFunctionCallType_FunctionMap (fn : Expr) (t : VariableTracker) :
  FunctionMap (resolveFunctionCallType fn t).1 = FunctionMap t.
Proof.
  destruct fn as [name|x sel| | | | | | | | | |]; simpl; try reflexivity.
  - by destruct (FunctionMap t !! name).
  - destruct x; try reflexivity.
    destruct (Variables t !! name); [reflexivity|].
    by destruct (FunctionMap t !! _).
Qed.

Lemma resolveFunctionCallType_nonnil (fn : Expr) (t : VariableTracker) :
  (forall k, FunctionMap t !! k <> Some None) ->
  is_Some (resolveFunctionCallType fn t).2.
Proof.
  intros Hnil.
  destruct fn as [name|x sel| | | | | | | | | |]; simpl; eauto.
  - destruct (FunctionMap t !! name) as [[ty|]|] eqn:E; simpl; eauto.
    by destruct (Hnil name).
  - destruct x; simpl; eauto.
    destruct (Variables t !! name); simpl; eauto.
    destruct (FunctionMap t !! _) as [[ty|]|] eqn:E; simpl; eauto.
    by destruct (Hnil (name +:+ "." +:+ sel)).
Qed.

(** X9. An assignment of one call to two or more variables panics: provided
    no nil return type has been registered, the second variable takes its
    type from [stmt.Rhs[0]], and [stmt.Rhs[1]] is then read past the end of
    the slice. *)
Theorem trackAssignment_values_from_one_call_panics
  (a b : string) (rest : list Expr) (tok : token) (fn : Expr)
  (args : list Expr) (t : VariableTracker) :
  tok = DEFINE \/ tok = ASSIGN ->
  (forall k, FunctionMap t !! k <> Some None) ->
  trackAssignment (Ident a :: Ident b :: rest) tok [CallExpr fn args] t = Panic.
Proof.
  intros Htok Hnil. unfold trackAssignment.
  rewrite decide_False by (intros [H1 H2]; destruct Htok; done).
  simpl.
  destruct (resolveFunctionCallType fn t) as [t1 p1] eqn:E1.
  assert (is_Some p1) as [ty1 ->].
  { pose proof (resolveFunctionCallType_nonnil fn t Hnil) as H. by rewrite E1 in H. }
  simpl.
  set (t2 := setVariable a ty1 false t1).
  destruct (resolveFunctionCallType fn t2) as [t3 p3] eqn:E3.
  assert (is_Some p3) as [ty3 ->].
  { pose proof (resolveFunctionCallType_nonnil fn t2) as H. rewrite E3 in H.
    apply H. intros k. simpl.
    pose proof (resolveFunctionCallType_FunctionMap fn t) as Hfm.
    rewrite E1 in Hfm. simpl in Hfm. rewrite Hfm. apply Hnil. }
  reflexivity.
Qed.

Lemma trackAssignment_panics_witness :
  trackAssignment [Ident "user"; Ident "err"] DEFINE
    [CallExpr (SelectorExpr (Ident "repo") "Find") [Ident "id"]] abTracker
  = Panic.
Proof.
  apply (trackAssignment_values_from_one_call_panics "user" "err" [] DEFINE
           (SelectorExpr (Ident "repo") "Find") [Ident "id"] abTracker).
  - by left.
  - intros k. simpl. rewrite lookup_empty. discriminate.
Defined.

(** X10. A return type registered for a function is the type given to a
    variable assigned from a call of it: by plain name, and by qualified
    name when the qualifier is not itself a tracked variable. *)
Theorem registered_return_type_is_tracked
  (x f q : string) (args : list Expr) (ty : addr) (tok : token)
  (t : VariableTracker) :
  tok = DEFINE \/ tok = ASSIGN ->
  Variables t !! q = None ->
  (exists t',
      trackAssignment [Ident x] tok [CallExpr (Ident f) args]
        (RegisterFunctionReturnType f (Some ty) t) = Ok t'
      /\ GetVariableType x t' = Some ty)
  /\ (exists t',
        trackAssignment [Ident x] tok [CallExpr (SelectorExpr (Ident q) f) args]
          (RegisterFunctionReturnType (q +:+ "." +:+ f) (Some ty) t) = Ok t'
        /\ GetVariableType x t' = Some ty).
Proof.
  intros Htok Hq. unfold trackAssignment.
  rewrite !decide_False by (intros [H1 H2]; destruct Htok; done).
  split; eexists; simpl.
  - rewrite lookup_insert_eq. simpl. split; [reflexivity|].
    unfold GetVariableType. simpl. by rewrite lookup_insert_eq.
  - rewrite Hq, lookup_insert_eq. simpl. split; [reflexivity|].
    unfold GetVariableType. simpl. by rewrite lookup_insert_eq.
Qed.

Lemma registered_return_type_witness :
  (exists t',
      trackAssignment [Ident "u"] DEFINE [CallExpr (Ident "load") []]
        (RegisterFunctionReturnType "load" (Some 0) abTracker) = Ok t'
      /\ GetVariableType "u" t' = Some 0)
  /\ (exists t',
        trackAssignment [Ident "u"] DEFINE
          [CallExpr (SelectorExpr (Ident "repo") "load") []]
          (RegisterFunctionReturnType ("repo" +:+ "." +:+ "load") (Some 0) abTracker)
        = Ok t'
        /\ GetVariableType "u" t' = Some 0).
Proof.
  apply (registered_return_type_is_tracked "u" "load" "repo" [] 0 DEFINE abTracker).
  - by left.
  - reflexivity.
Defined.

(** *** The analyzer reads the scope, it never writes it *)

Lemma resolveResponseType_scope (e : Expr) :
  forall t t' p,
    resolveResponseType e t = Ok (t', p) ->
    Variables t' = Variables t /\ FunctionMap t' = FunctionMap t.
Proof.
  induction e as [name|x IHx sel|fn IHfn args|op x IHx| | |ty elts|kd v| | | |];
    intros t t' p E; simpl in E; try (by simplify_eq).
  - destruct x; try (by simplify_eq).
    destruct (GetVariableType name t); [|by simplify_eq].
    apply bind_Ok in E as (td & _ & E).
    destruct (decide (Kind td = KindStruct)); by simplify_eq.
  - simplify_eq.
    pose proof (resolveFunctionCallType_Variables fn t) as H1.
    pose proof (resolveFunctionCallType_FunctionMap fn t) as H2.
    rewrite E in H1, H2. done.
  - destruct op; try (by simplify_eq). by eapply IHx.
  - apply bind_Ok in E as ([st q] & _ & E). by simplify_eq.
Qed.

Lemma checkJSONResponseMethod_scope (obj m : string) (args : list Expr)
  (a a' : ResponseAnalyzer) :
  checkJSONResponseMethod obj m args a = Ok a' ->
  Variables (Tracker a') = Variables (Tracker a)
  /\ FunctionMap (Tracker a') = FunctionMap (Tracker a).
Proof.
  unfold checkJSONResponseMethod. intros E.
  destruct (negb (isContextName obj)); [by simplify_eq|].
  destruct (negb (isJSONMethod m)); [by simplify_eq|].
  apply bind_Ok in E as ([t p] & E1 & E2).
  assert (Variables t = Variables (Tracker a)
          /\ FunctionMap t = FunctionMap (Tracker a)) as H.
  { destruct args as [|x [|y args]]; try (by simplify_eq).
    by eapply resolveResponseType_scope. }
  destruct p; by simplify_eq.
Qed.

(** X13. [AnalyzeHandler] leaves the scope table and the registered return
    types of its tracker as they were: the type reported for a variable
    does not depend on the call sites analyzed before. *)
Theorem AnalyzeHandler_keeps_the_scope
  (funcDecl : FuncDecl) (a a' : ResponseAnalyzer) :
  AnalyzeHandler funcDecl a = Ok a' ->
  Variables (Tracker a') = Variables (Tracker a)
  /\ FunctionMap (Tracker a') = FunctionMap (Tracker a).
Proof.
  intros EA. unfold AnalyzeHandler in EA. revert EA.
  apply (forEach_invariant
           (fun x => Variables (Tracker x) = Variables (Tracker a)
                     /\ FunctionMap (Tracker x) = FunctionMap (Tracker a)));
    [|done].
  intros x [fn cargs] x' _ [Hv Hf] Ex. unfold analyzeCall in Ex.
  destruct fn as [|y sel| | | | | | | | | |]; try (by simplify_eq).
  destruct y; try (by simplify_eq).
  apply checkJSONResponseMethod_scope in Ex as [Hv' Hf']. split; congruence.
Qed.

Lemma AnalyzeHandler_keeps_the_scope_witness :
  exists a',
    AnalyzeHandler reassignBeforeUse (mkAnalyzer abTracker []) = Ok a'
    /\ Variables (Tracker a') = Variables abTracker
    /\ FunctionMap (Tracker a') = FunctionMap abTracker.
Proof.
  destruct (AnalyzeHandler reassignBeforeUse (mkAnalyzer abTracker []))
    as [a'| |] eqn:EA; [|vm_compute in EA; discriminate EA..].
  exists a'. split; [reflexivity|].
  exact (AnalyzeHandler_keeps_the_scope reassignBeforeUse
           (mkAnalyzer abTracker []) a' EA).
Defined.

(** X14. [checkJSONResponseMethod] records a response only for a call of
    [JSON], [JSONPretty] or [JSONBlob] on [c], [ctx], [context] or [ec]
    that has at least two arguments, and then it appends exactly one. *)
Theorem checkJSONResponseMethod_records_payload_calls_only
  (obj m : string) (args : list Expr) (b b' : ResponseAnalyzer) :
  checkJSONResponseMethod obj m args b = Ok b' ->
  Responses b' = Responses b
  \/ (isContextName obj = true /\ isJSONMethod m = true
      /\ 2 <= length args
      /\ exists ty, Responses b' = Responses b ++ [ty]).
Proof.
  intros EC. unfold checkJSONResponseMethod in EC.
  destruct (isContextName obj); simpl in EC; [|left; by simplify_eq].
  destruct (isJSONMethod m); simpl in EC; [|left; by simplify_eq].
  apply bind_Ok in EC as ([t [ty|]] & E1 & E2); simplify_eq; [|by left].
  right. split; [done|]. split; [done|]. split; [|by exists ty].
  destruct args as [|x [|y args]]; simpl; try (by simplify_eq). lia.
Qed.

Lemma checkJSONResponseMethod_witness :
  exists b',
    checkJSONResponseMethod "c" "JSON" [Ident "x"] (mkAnalyzer abTracker [0]) = Ok b'
    /\ (Responses b' = [0]
        \/ (isContextName "c" = true /\ isJSONMethod "JSON" = true
            /\ 2 <= 1
            /\ exists ty, Responses b' = [0] ++ [ty])).
Proof.
  destruct (checkJSONResponseMethod "c" "JSON" [Ident "x"] (mkAnalyzer abTracker [0]))
    as [b'| |] eqn:EC; [|vm_compute in EC; discriminate EC..].
  exists b'. split; [reflexivity|].
  exact (checkJSONResponseMethod_records_payload_calls_only "c" "JSON" [Ident "x"]
           (mkAnalyzer abTracker [0]) b' EC).
Defined.

(** ** More on the registry *)

Lemma containsByte_app (c : ascii) (s1 s2 : string) :
  containsByte c (s1 +:+ s2) = containsByte c s1 || containsByte c s2.
Proof.
  induction s1 as [|a s1 IH]; simpl; [done|].
  destruct (decide (a = c)); [done|]. apply IH.
Qed.

Lemma splitN2_first (c : ascii) (s1 s2 : string) :
  containsByte c s1 = false ->
  splitN2 c (s1 +:+ String c s2) = (s1, s2).
Proof.
  induction s1 as [|a s1 IH]; simpl; intros Hc.
  - by rewrite decide_True.
  - destruct (decide (a = c)); [discriminate|]. by rewrite IH.
Qed.

Lemma append_assoc (a b c : string) : (a +:+ b) +:+ c = a +:+ (b +:+ c).
Proof.
  induction a as [|x a IH]; [reflexivity|].
  change (String x ((a +:+ b) +:+ c) = String x (a +:+ (b +:+ c))). by rewrite IH.
Qed.

Lemma RegisterType_registry (name : string) (a : addr) (r : TypeRegistry) :
  exists pkg,
    Packages (RegisterType name a r) !! CurrentPackage r = Some pkg
    /\ Types pkg !! name = Some a
    /\ CurrentPackage (RegisterType name a r) = CurrentPackage r
    /\ (forall n, n <> name ->
          Types pkg !! n
          = (Packages r !! CurrentPackage r) ≫= fun old => Types old !! n)
    /\ Imports pkg = default ∅ (Imports <$> Packages r !! CurrentPackage r)
    /\ forall q, q <> CurrentPackage r ->
         Packages (RegisterType name a r) !! q = Packages r !! q.
Proof.
  unfold RegisterType, RegisterPackage.
  destruct (Packages r !! CurrentPackage r) as [old|] eqn:E; simpl.
  - eexists. rewrite lookup_insert_eq. split; [done|]. simpl.
    rewrite lookup_insert_eq. split; [done|]. split; [done|].
    split; [intros; by rewrite lookup_insert_ne|]. split; [done|].
    intros; by rewrite lookup_insert_ne.
  - eexists. rewrite lookup_insert_eq. split; [done|]. simpl.
    rewrite lookup_insert_eq. split; [done|]. split; [done|].
    split; [intros; by rewrite lookup_insert_ne|]. split; [done|].
    intros; by rewrite !lookup_insert_ne.
Qed.

(** X15. A type registered under a plain name is what [LookupType] then
    finds under that name in the current package, the last registration
    winning; the lookup of any other plain name gives what it gave before. *)
Theorem LookupType_finds_registered_type
  (name other : string) (a b : addr) (r : TypeRegistry) :
  containsByte dot name = false ->
  containsByte dot other = false ->
  other <> name ->
  (LookupType name (RegisterType name a r)).2 = Some a
  /\ (LookupType name (RegisterType name b (RegisterType name a r))).2 = Some b
  /\ (LookupType other (RegisterType name a r)).2 = (LookupType other r).2.
Proof.
  intros Hn Ho Hne.
  assert (forall x r', containsByte dot name = false ->
            (LookupType name (RegisterType name x r')).2 = Some x) as Hfind.
  { intros x r' _. unfold LookupType. rewrite Hn.
    destruct (RegisterType_registry name x r') as (pkg & Hp & Ht & Hc & _).
    rewrite Hc. rewrite (RegisterPackage_existing _ _ _ Hp). done. }
  split; [by apply Hfind|]. split; [by apply Hfind|].
  unfold LookupType. rewrite Ho.
  destruct (RegisterType_registry name a r) as (pkg & Hp & _ & Hc & Hother & _).
  rewrite Hc, (RegisterPackage_existing _ _ _ Hp). simpl.
  rewrite (Hother other Hne). unfold RegisterPackage.
  destruct (Packages r !! CurrentPackage r); simpl; [done|].
  by rewrite lookup_empty.
Qed.

Lemma LookupType_finds_registered_witness :
  (LookupType "User" (RegisterType "User" 7 (mkRegistry ∅ "p"))).2 = Some 7
  /\ (LookupType "User"
        (RegisterType "User" 9 (RegisterType "User" 7 (mkRegistry ∅ "p")))).2
     = Some 9
  /\ (LookupType "Order" (RegisterType "User" 7 (mkRegistry ∅ "p"))).2
     = (LookupType "Order" (mkRegistry ∅ "p")).2.
Proof.
  apply (LookupType_finds_registered_type "User" "Order" 7 9 (mkRegistry ∅ "p"));
    [reflexivity|reflexivity|discriminate].
Defined.

(** X16. After [RegisterImport(alias, path)] with an alias that contains
    no dot, the qualified name [alias.Type] leads to the type that the
    package at [path] registers as [Type], and with such an alias that the
    current package does not import it leads to nil.  An alias that
    contains a dot (the last element of an import path such as
    [gopkg.in/yaml.v2]) is not followed: the qualified name is split at its
    first dot, and unless the part before that dot is itself an imported
    alias the lookup gives nil. *)
Theorem LookupType_follows_import_alias
  (alias path ty : string) (a : addr) (info : PackageInfo) (r : TypeRegistry) :
  Packages r !! path = Some info ->
  Types info !! ty = Some a ->
  (containsByte dot alias = false ->
   (LookupType (alias +:+ "." +:+ ty) (RegisterImport alias path r)).2 = Some a
   /\ ((Packages r !! CurrentPackage r) ≫= (fun pkg => Imports pkg !! alias) = None ->
       (LookupType (alias +:+ "." +:+ ty) r).2 = None))
  /\ (forall before after,
        alias = before +:+ "." +:+ after ->
        containsByte dot before = false ->
        (Packages r !! CurrentPackage r) ≫= (fun pkg => Imports pkg !! before) = None ->
        (LookupType (alias +:+ "." +:+ ty) (RegisterImport alias path r)).2 = None).
Proof.
  intros Hp Ht. split.
  - intros Ha.
    assert (containsByte dot (alias +:+ "." +:+ ty) = true) as Hc.
    { rewrite containsByte_app. simpl. apply orb_true_r. }
    assert (splitN2 dot (alias +:+ "." +:+ ty) = (alias, ty)) as Hs
      by (by apply splitN2_first).
    split.
    + unfold LookupType. rewrite Hc, Hs.
      unfold RegisterImport, RegisterPackage.
      destruct (decide (path = CurrentPackage r)) as [->|Hne].
      * rewrite Hp. simpl. rewrite lookup_insert_eq. simpl.
        rewrite lookup_insert_eq. simpl. rewrite lookup_insert_eq. done.
      * destruct (Packages r !! CurrentPackage r) as [cur|] eqn:Ec; simpl.
        -- rewrite lookup_insert_eq. simpl. rewrite lookup_insert_eq. simpl.
           rewrite lookup_insert_ne by done. rewrite Hp. done.
        -- rewrite lookup_insert_eq. simpl. rewrite lookup_insert_eq. simpl.
           rewrite !lookup_insert_ne by done. rewrite Hp. done.
    + intros Hnone. unfold LookupType. rewrite Hc, Hs. unfold RegisterPackage.
      destruct (Packages r !! CurrentPackage r) as [cur|] eqn:Ec; simpl in *.
      * by rewrite Hnone.
      * by rewrite lookup_empty.
  - intros before after -> Hb Hnone.
    assert ((before +:+ "." +:+ after) +:+ "." +:+ ty
            = before +:+ String dot (after +:+ "." +:+ ty)) as ->.
    { rewrite append_assoc. reflexivity. }
    assert (before <> before +:+ "." +:+ after) as Hne.
    { intros Heq. apply (f_equal (containsByte dot)) in Heq.
      rewrite containsByte_app, Hb in Heq. simpl in Heq. discriminate Heq. }
    unfold LookupType.
    assert (containsByte dot (before +:+ String dot (after +:+ "." +:+ ty)) = true)
      as ->.
    { rewrite containsByte_app. simpl. apply orb_true_r. }
    rewrite (splitN2_first dot before _ Hb).
    unfold RegisterImport, RegisterPackage.
    destruct (Packages r !! CurrentPackage r) as [cur|] eqn:Ec; simpl in *.
    + rewrite lookup_insert_eq. simpl.
      rewrite lookup_insert_ne by (intros Heq; by apply Hne). by rewrite Hnone.
    + rewrite lookup_insert_eq. simpl.
      rewrite lookup_insert_ne by (intros Heq; by apply Hne). by rewrite lookup_empty.
Qed.

Lemma LookupType_follows_import_witness :
  (containsByte dot "models" = false ->
   (LookupType ("models" +:+ "." +:+ "User")
      (RegisterImport "models" modelsPath (Registry collisionStore))).2 = Some 0
   /\ ((Packages (Registry collisionStore) !! CurrentPackage (Registry collisionStore))
         ≫= (fun pkg => Imports pkg !! "models") = None ->
       (LookupType ("models" +:+ "." +:+ "User") (Registry collisionStore)).2 = None))
  /\ (forall before after,
        "models" = before +:+ "." +:+ after ->
        containsByte dot before = false ->
        (Packages (Registry collisionStore) !! CurrentPackage (Registry collisionStore))
          ≫= (fun pkg => Imports pkg !! before) = None ->
        (LookupType ("models" +:+ "." +:+ "User")
           (RegisterImport "models" modelsPath (Registry collisionStore))).2 = None).
Proof.
  apply (LookupType_follows_import_alias "models" modelsPath "User" 0
           (mkPackageInfo {[ "User" := 0 ]} ∅) (Registry collisionStore));
    reflexivity.
Defined.

(** X17. A lookup changes the registry at most by registering the current
    package, empty, when it was absent: the cursor and every registered
    package stay as they are. *)
Theorem LookupType_only_registers_current_package (name : string) (r : TypeRegistry) :
  CurrentPackage (LookupType name r).1 = CurrentPackage r
  /\ (forall p info, Packages r !! p = Some info ->
        Packages (LookupType name r).1 !! p = Some info)
  /\ (forall p info, Packages (LookupType name r).1 !! p = Some info ->
        Packages r !! p = Some info
        \/ (p = CurrentPackage r /\ info = newPackageInfo)).
Proof.
  assert ((LookupType name r).1 = (RegisterPackage (CurrentPackage r) r).1) as ->.
  { unfold LookupType. destruct (containsByte dot name).
    - destruct (splitN2 dot name). by destruct (RegisterPackage _ r).
    - by destruct (RegisterPackage _ r). }
  unfold RegisterPackage.
  destruct (Packages r !! CurrentPackage r) eqn:E; simpl.
  - split; [done|]. split; [done|]. intros; by left.
  - split; [done|]. split.
    + intros p info Hp. rewrite lookup_insert_ne; [done|]. congruence.
    + intros p info Hp. destruct (decide (CurrentPackage r = p)) as [<-|Hne].
      * rewrite lookup_insert_eq in Hp. right. by simplify_eq.
      * rewrite lookup_insert_ne in Hp by done. by left.
Qed.

(** ** Reading a [json] tag *)

(** A name without the bytes that delimit a tag: space, comma, double
    quote, back quote.  Every Go identifier is one. *)
Fixpoint plainName (s : string) : bool :=
  match s with
  | EmptyString => true
  | String a s' =>
      negb (bool_decide (a ∈ [space; comma; dquote; backtick])) && plainName s'
  end.

(** The raw literal [`json:"name"`] or [`json:"name,omitempty"`]. *)
Definition tagLiteral (name : string) (omitempty : bool) : string :=
  String backtick
    (("json:" +:+ String dquote
        ((name +:+ (if omitempty then ",omitempty" else ""))
         +:+ String dquote EmptyString))
     +:+ String backtick EmptyString).

Lemma plainName_containsByte (c : ascii) (s : string) :
  c ∈ [space; comma; dquote; backtick] ->
  plainName s = true -> containsByte c s = false.
Proof.
  intros Hc. induction s as [|a s IH]; simpl; [done|].
  intros H. apply andb_prop in H as [Ha Hs].
  apply negb_true_iff, bool_decide_eq_false in Ha.
  destruct (decide (a = c)) as [->|]; [done|]. by apply IH.
Qed.

Lemma trimLeft_none (c : ascii) (s : string) :
  containsByte c s = false -> trimLeft c s = s.
Proof.
  destruct s as [|a s]; simpl; [done|]. by destruct (decide (a = c)).
Qed.

Lemma list_ascii_app (s1 s2 : string) :
  list_ascii_of_string (s1 +:+ s2)
  = list_ascii_of_string s1 ++ list_ascii_of_string s2.
Proof. induction s1 as [|a s1 IH]; simpl; [done|]. by rewrite IH. Qed.

Lemma revString_snoc (s : string) (c : ascii) :
  revString (s +:+ String c EmptyString) = String c (revString s).
Proof.
  unfold revString. rewrite list_ascii_app. simpl. by rewrite rev_unit.
Qed.

Lemma revString_involutive (s : string) : revString (revString s) = s.
Proof.
  unfold revString. rewrite list_ascii_of_string_of_list_ascii, rev_involutive.
  apply string_of_list_ascii_of_string.
Qed.

Lemma containsByte_In (c : ascii) (s : string) :
  containsByte c s = true <-> In c (list_ascii_of_string s).
Proof.
  induction s as [|a s IH]; simpl; [split; [discriminate|tauto]|].
  destruct (decide (a = c)) as [->|Hne]; [tauto|].
  rewrite IH. split; [tauto|]. intros [?|?]; [done|tauto].
Qed.

Lemma containsByte_revString (c : ascii) (s : string) :
  containsByte c s = false -> containsByte c (revString s) = false.
Proof.
  intros H. apply not_true_is_false. intros Hr. apply not_true_iff_false in H.
  apply H. apply containsByte_In. apply containsByte_In in Hr.
  unfold revString in Hr. rewrite list_ascii_of_string_of_list_ascii in Hr.
  by apply in_rev in Hr.
Qed.

(** [strings.Trim] removes the delimiters around a text that has none. *)
Lemma trim_wrapped (c : ascii) (s : string) :
  containsByte c s = false ->
  trim c (String c (s +:+ String c EmptyString)) = s.
Proof.
  intros H. unfold trim. simpl. rewrite decide_True by done.
  assert (trimLeft c (s +:+ String c EmptyString)
          = if decide (s = EmptyString) then EmptyString
            else s +:+ String c EmptyString) as ->.
  { destruct s as [|a s]; simpl; [by rewrite decide_True|].
    simpl in H. by destruct (decide (a = c)). }
  destruct (decide (s = EmptyString)) as [->|_]; [done|].
  rewrite revString_snoc. simpl. rewrite decide_True by done.
  rewrite trimLeft_none by (by apply containsByte_revString).
  apply revString_involutive.
Qed.

Lemma append_empty_r (s : string) : s +:+ EmptyString = s.
Proof.
  induction s as [|a s IH]; [reflexivity|].
  change (String a (s +:+ EmptyString) = String a s). by rewrite IH.
Qed.

Lemma split_none (c : ascii) (s : string) :
  containsByte c s = false -> split c s = [s].
Proof.
  induction s as [|a s IH]; simpl; [done|].
  destruct (decide (a = c)); [done|]. intros H. by rewrite IH.
Qed.

Lemma split_first (c : ascii) (s1 s2 : string) :
  containsByte c s1 = false ->
  split c (s1 +:+ String c s2) = s1 :: split c s2.
Proof.
  induction s1 as [|a s1 IH]; simpl; intros H.
  - by rewrite decide_True.
  - destruct (decide (a = c)); [done|]. by rewrite IH.
Qed.

(** X18. [extractJSONTag] reads the name and the omitempty marker back from
    the tag literal: for every name that is not empty, not ["-"], and free
    of the delimiting bytes, [`json:"name"`] gives [(name, false)] and
    [`json:"name,omitempty"`] gives [(name, true)]. *)
Theorem extractJSONTag_reads_name_and_omitempty (name : string) (omitempty : bool) :
  name <> "" -> name <> "-" -> plainName name = true ->
  extractJSONTag (Some (tagLiteral name omitempty)) = (name, omitempty).
Proof.
  intros Hne Hdash Hplain.
  pose proof (fun c Hc => plainName_containsByte c name Hc Hplain) as Hfree.
  set (opt := if omitempty then ",omitempty" else "").
  set (inner := name +:+ opt).
  assert (forall c, c ∈ [space; dquote; backtick] -> containsByte c inner = false)
    as Hinner.
  { intros c Hc. unfold inner. rewrite containsByte_app.
    rewrite Hfree by set_solver. simpl. unfold opt.
    destruct omitempty; [|done].
    repeat (apply elem_of_cons in Hc as [->|Hc]; [reflexivity|]). inversion Hc. }
  set (body := "json:" +:+ String dquote (inner +:+ String dquote EmptyString)).
  assert (forall c, c ∈ [space; backtick] -> containsByte c body = false) as Hbody.
  { intros c Hc. unfold body.
    assert (containsByte c (inner +:+ String dquote EmptyString) = false) as Hi.
    { rewrite containsByte_app, Hinner by set_solver. simpl.
      repeat (apply elem_of_cons in Hc as [->|Hc]; [reflexivity|]). inversion Hc. }
    repeat (apply elem_of_cons in Hc as [->|Hc]; [simpl; exact Hi|]). inversion Hc. }
  unfold extractJSONTag.
  change (tagLiteral name omitempty)
    with (String backtick (body +:+ String backtick EmptyString)).
  rewrite trim_wrapped by (apply Hbody; set_solver).
  assert (jsonTagOf body = inner) as ->.
  { unfold jsonTagOf. rewrite split_none by (apply Hbody; set_solver).
    change (filter _ [body]) with [body]. cbv iota.
    change (trimPrefix body "json:")
      with (String dquote (inner +:+ String dquote EmptyString)).
    apply trim_wrapped. apply Hinner. set_solver. }
  assert (inner <> "") as Hin.
  { unfold inner. destruct name; [done|discriminate]. }
  rewrite decide_False by done.
  assert (split comma inner = name :: if omitempty then ["omitempty"] else []) as ->.
  { unfold inner, opt. destruct omitempty.
    - rewrite split_first by (apply Hfree; set_solver). reflexivity.
    - rewrite append_empty_r. apply split_none. apply Hfree. set_solver. }
  simpl. rewrite decide_False by done. by destruct omitempty.
Qed.

Lemma extractJSONTag_reads_witness :
  extractJSONTag (Some (tagLiteral "created_at" true)) = ("created_at", true).
Proof.
  apply (extractJSONTag_reads_name_and_omitempty "created_at" true);
    [discriminate|discriminate|reflexivity].
Defined.

(** ** The collector's placeholders *)

(** The schema of the placeholder. *)
Definition stringSchema : JSONSchema :=
  mkSchema JSONSchemaTypeString "" "" None ∅ [] None.

Lemma placeholderField_nil (pkg : string) (fields : list FieldDefinition) :
  (forall f, f ∈ fields -> FieldType f = None) ->
  forall st done,
    forEach (placeholderField pkg) (st, done) fields
    = Ok (mkStore (Heap st ++ replicate (length fields) (placeholderString pkg))
                  (Registry st),
          done ++ imap (fun i f => setFieldType (Some (length (Heap st) + i)) f)
                       fields).
Proof.
  induction fields as [|f fields IH]; intros Hnil st done; simpl.
  - rewrite !app_nil_r. by destruct st.
  - rewrite (Hnil f) by (by left). simpl.
    rewrite IH by (intros; apply Hnil; by right). simpl.
    rewrite length_app. simpl. rewrite <- !app_assoc. simpl.
    do 3 f_equal. rewrite Nat.add_0_r. f_equal.
    apply imap_ext. intros i x _. simpl. do 2 f_equal. lia.
Qed.

Lemma GenerateSchema_placeholder (h : heap) (pkg : string) (b : addr) (g : memo) :
  h !! b = Some (placeholderString pkg) ->
  (forall k s, g !! k = Some s -> s = stringSchema) ->
  exists g', GenerateSchema h 1 g (Some b) = Ok (g', Some stringSchema)
             /\ forall k s, g' !! k = Some s -> s = stringSchema.
Proof.
  intros Hb Hg. simpl. rewrite Hb.
  destruct (g !! schemaKey (placeholderString pkg)) as [s|] eqn:E.
  - rewrite (Hg _ _ E). by exists g.
  - simpl. eexists. split; [reflexivity|].
    intros k s Hk. destruct (decide (schemaKey (placeholderString pkg) = k)) as [<-|Hne].
    + rewrite lookup_insert_eq in Hk. by simplify_eq.
    + rewrite lookup_insert_ne in Hk by done. by eapply Hg.
Qed.

Lemma placeholder_fields_schema (h : heap) (pkg : string) :
  forall (fl : list FieldDefinition) (g : memo) (s0 : JSONSchema),
    (forall f, f ∈ fl ->
       exists b, FieldType f = Some b /\ h !! b = Some (placeholderString pkg)) ->
    (forall k s, g !! k = Some s -> s = stringSchema) ->
    exists g' s,
      forEach (structSchemaField (GenerateSchema h 1)) (g, s0) fl = Ok (g', s)
      /\ SchemaType s = SchemaType s0
      /\ dom (Properties s) = dom (Properties s0) ∪ list_to_set (wireName <$> fl)
      /\ Required s
         = Required s0 ++ (wireName <$> filter (fun f => Omitempty f = false) fl)
      /\ (forall k prop, Properties s !! k = Some prop ->
            Properties s0 !! k = Some prop \/ prop = propertyOf stringSchema).
Proof.
  induction fl as [|f fl IH]; intros g s0 Hfl Hg.
  - exists g, s0. simpl. split; [done|]. split; [done|].
    split; [set_solver|]. split; [by rewrite app_nil_r|]. intros; by left.
  - destruct (Hfl f) as (b & Hb & Hph); [by left|].
    destruct (GenerateSchema_placeholder h pkg b g Hph Hg) as (g1 & E1 & Hg1).
    set (s1 := setProperty (wireName f) (propertyOf stringSchema) s0).
    assert (structSchemaField (GenerateSchema h 1) (g, s0) f
            = Ok (g1, if Omitempty f then s1 else appendRequired (wireName f) s1))
      as Hstep.
    { unfold structSchemaField. rewrite Hb, E1. simpl. by destruct (Omitempty f). }
    cbn [forEach]. rewrite Hstep. cbn [mbind result_bind].
    destruct (Omitempty f) eqn:Eo.
    + destruct (IH g1 s1) as (g' & s & E & Ht & Hd & Hr & Hp);
        [intros; apply Hfl; by right|done|].
      exists g', s. split; [done|]. rewrite Ht, Hd, Hr.
      rewrite filter_cons, Eo. rewrite decide_False by done.
      destruct s0; simpl. split; [done|]. split; [rewrite dom_insert_L; set_solver|].
      split; [done|]. intros k prop Hk. destruct (Hp k prop Hk) as [Hs | ->]; [|by right].
      simpl in Hs. destruct (decide (wireName f = k)) as [<-|Hne].
      * rewrite lookup_insert_eq in Hs. right. by simplify_eq.
      * rewrite lookup_insert_ne in Hs by done. by left.
    + destruct (IH g1 (appendRequired (wireName f) s1)) as (g' & s & E & Ht & Hd & Hr & Hp);
        [intros; apply Hfl; by right|done|].
      exists g', s. split; [done|]. rewrite Ht, Hd, Hr.
      rewrite filter_cons, Eo. rewrite decide_True by done.
      destruct s0; simpl. split; [done|]. split; [rewrite dom_insert_L; set_solver|].
      split; [by rewrite <- app_assoc|].
      intros k prop Hk. destruct (Hp k prop Hk) as [Hs | ->]; [|by right].
      simpl in Hs. destruct (decide (wireName f = k)) as [<-|Hne].
      * rewrite lookup_insert_eq in Hs. right. by simplify_eq.
      * rewrite lookup_insert_ne in Hs by done. by left.
Qed.

Lemma retyped_fields_required (ty : nat -> ptr) (l : list FieldDefinition) :
  wireName <$> filter (fun f => Omitempty f = false)
                 (imap (fun i f => setFieldType (ty i) f) l)
  = wireName <$> filter (fun f => Omitempty f = false) l.
Proof.
  revert ty. induction l as [|f l IH]; intros ty; [done|].
  cbn [imap]. rewrite !filter_cons.
  change (filter (fun f0 => Omitempty f0 = false)
            (imap ((fun i f0 => setFieldType (ty i) f0) ∘ S) l))
    with (filter (fun f0 => Omitempty f0 = false)
            (imap (fun i f0 => setFieldType ((ty ∘ S) i) f0) l)).
  cbn [Omitempty setFieldType].
  destruct (decide (Omitempty f = false)); rewrite ?fmap_cons, IH; done.
Qed.

(** X19. A struct as the collector leaves it (not resolved, every field type
    nil) is resolved by [TypeCollector.resolveType] with a [string]
    placeholder for every field, whatever type the field was declared with:
    the schema then generated for it is an object that has every field as a
    property of type [string], and requires the fields without omitempty. *)
Theorem collected_struct_is_documented_with_string_fields
  (st : store) (a : addr) (td : TypeDefinition) :
  Heap st !! a = Some td ->
  Kind td = KindStruct ->
  IsResolved td = false ->
  (forall f, f ∈ Fields td -> FieldType f = None) ->
  exists st' g s,
    collectorResolveType a st = Ok st'
    /\ GenerateSchema (Heap st') 2 ∅ (Some a) = Ok (g, Some s)
    /\ SchemaType s = JSONSchemaTypeObject
    /\ dom (Properties s) = list_to_set (wireName <$> Fields td)
    /\ Required s = wireName <$> filter (fun f => Omitempty f = false) (Fields td)
    /\ forall k prop, Properties s !! k = Some prop -> prop = propertyOf stringSchema.
Proof.
  intros Ha Hk Hr Hnil.
  set (fields' := imap (fun i f => setFieldType (Some (length (Heap st) + i)) f)
                       (Fields td)).
  set (td' := mkType (Name td) KindStruct fields' (ElementType td) (KeyType td)
                     (ValueType td) (Package td) (BasicType td) true).
  set (h' := <[a := td']> (Heap st ++ replicate (length (Fields td))
                                        (placeholderString (Package td)))).
  assert (collectorResolveType a st = Ok (mkStore h' (Registry st))) as Hres.
  { unfold collectorResolveType, deref. rewrite Ha. simpl. rewrite Hr, Hk.
    by rewrite (placeholderField_nil (Package td) (Fields td) Hnil). }
  assert (a < length (Heap st)) as Hlt by (by eapply lookup_lt_Some).
  assert (h' !! a = Some td') as Ha'.
  { unfold h'. apply list_lookup_insert_eq. rewrite length_app. lia. }
  assert (forall f, f ∈ fields' ->
            exists b, FieldType f = Some b
                      /\ h' !! b = Some (placeholderString (Package td))) as Hfl.
  { intros f Hf. apply list_elem_of_lookup in Hf as [i Hi].
    unfold fields' in Hi. rewrite list_lookup_imap in Hi.
    destruct (Fields td !! i) as [f0|] eqn:E0; simpl in Hi; [|discriminate].
    simplify_eq. exists (length (Heap st) + i). split; [done|].
    unfold h'. rewrite list_lookup_insert_ne by lia.
    rewrite lookup_app_r by lia.
    replace (length (Heap st) + i - length (Heap st)) with i by lia.
    apply lookup_replicate. split; [done|]. by eapply lookup_lt_Some. }
  destruct (placeholder_fields_schema h' (Package td) fields' ∅
              (mkSchema JSONSchemaTypeObject "" "" None ∅ [] None) Hfl)
    as (g' & s & E & Ht & Hd & Hreq & Hp); [intros k s Hs; by rewrite lookup_empty in Hs|].
  assert (wireName <$> fields' = wireName <$> Fields td) as Hw.
  { unfold fields'. apply list_eq. intros i.
    rewrite !list_lookup_fmap, list_lookup_imap. by destruct (Fields td !! i). }
  assert (wireName <$> filter (fun f => Omitempty f = false) fields'
          = wireName <$> filter (fun f => Omitempty f = false) (Fields td)) as Hwr.
  { apply (retyped_fields_required (fun i => Some (length (Heap st) + i))). }
  exists (mkStore h' (Registry st)). eexists _, s. split; [exact Hres|]. cbn [Heap].
  rewrite (GenerateSchema_build h' 1 ∅ a td' Ha' (lookup_empty _)).
  cbn [Kind td']. unfold generateStructSchema. cbn [Fields td']. rewrite E. simpl.
  split; [reflexivity|]. split; [done|].
  split; [rewrite Hd, Hw; set_solver|]. split; [by rewrite Hreq, Hwr|].
  intros k prop Hkp. destruct (Hp k prop Hkp) as [Hs | ->]; [|done].
  simpl in Hs. by rewrite lookup_empty in Hs.
Qed.

(** [type User struct { ID int `json:"id"`; Tags []string `json:"tags,omitempty"` }]
    as [TypeCollector.processTypeDeclaration] registers it in package [p]. *)
Definition collectedUser : store :=
  collectTypeDeclaration "User"
    (StructType
       [ mkASTField ["ID"] (Ident "int") (Some (tagLiteral "id" false));
         mkASTField ["Tags"] (ArrayType (Ident "string"))
                    (Some (tagLiteral "tags" true)) ])
    (mkStore [] (SetCurrentPackage "p" (mkRegistry ∅ ""))).

Definition collectedUserType : TypeDefinition :=
  mkType "User" KindStruct
    [ mkField "ID" None "id" false false;
      mkField "Tags" None "tags" true false ]
    None None None "p" "" false.

Lemma collected_struct_witness :
  exists st' g s,
    collectorResolveType 0 collectedUser = Ok st'
    /\ GenerateSchema (Heap st') 2 ∅ (Some 0) = Ok (g, Some s)
    /\ SchemaType s = JSONSchemaTypeObject
    /\ dom (Properties s) = list_to_set ["id"; "tags"]
    /\ Required s = ["id"]
    /\ forall k prop, Properties s !! k = Some prop -> prop = propertyOf stringSchema.
Proof.
  apply (collected_struct_is_documented_with_string_fields collectedUser 0
           collectedUserType).
  - vm_compute. reflexivity.
  - reflexivity.
  - reflexivity.
  - intros f Hf. simpl in Hf.
    apply elem_of_cons in Hf as [->|Hf]; [reflexivity|].
    apply elem_of_cons in Hf as [->|Hf]; [reflexivity|]. inversion Hf.
Defined.

(** X20. A named slice or map type as the collector leaves it is resolved by
    [TypeCollector.resolveType] with [string] placeholders for its element,
    key and value: its schema is an array of strings, or an object whose
    additional properties are strings, whatever the declaration says. *)
Theorem collected_collection_is_documented_with_strings
  (st : store) (a : addr) (td : TypeDefinition) :
  Heap st !! a = Some td ->
  Kind td = KindArray \/ Kind td = KindMap ->
  IsResolved td = false ->
  exists st' g s,
    collectorResolveType a st = Ok st'
    /\ GenerateSchema (Heap st') 2 ∅ (Some a) = Ok (g, Some s)
    /\ (Kind td = KindArray ->
        SchemaType s = JSONSchemaTypeArray /\ Items s = Some stringSchema)
    /\ (Kind td = KindMap ->
        SchemaType s = JSONSchemaTypeObject
        /\ AdditionalProperties s = Some (propertyOf stringSchema)).
Proof.
  intros Ha Hk Hr.
  assert (a < length (Heap st)) as Hlt by (by eapply lookup_lt_Some).
  assert (forall k s, (∅ : memo) !! k = Some s -> s = stringSchema) as Hempty
    by (intros k s Hs; by rewrite lookup_empty in Hs).
  destruct Hk as [Hk|Hk].
  - set (td' := mkType (Name td) KindArray (Fields td) (Some (length (Heap st)))
                       (KeyType td) (ValueType td) (Package td) (BasicType td) true).
    set (h' := <[a := td']> (Heap st ++ [placeholderString (Package td)])).
    assert (collectorResolveType a st = Ok (mkStore h' (Registry st))) as Hres.
    { unfold collectorResolveType, deref. rewrite Ha. simpl. by rewrite Hr, Hk. }
    assert (h' !! a = Some td') as Ha'.
    { unfold h'. apply list_lookup_insert_eq. rewrite length_app. lia. }
    assert (h' !! length (Heap st) = Some (placeholderString (Package td))) as He.
    { unfold h'. rewrite list_lookup_insert_ne by lia.
      rewrite lookup_app_r by lia. by rewrite Nat.sub_diag. }
    destruct (GenerateSchema_placeholder h' _ _ ∅ He Hempty) as (g1 & E1 & _).
    exists (mkStore h' (Registry st)). eexists _, _. split; [exact Hres|].
    cbn [Heap]. rewrite (GenerateSchema_build h' 1 ∅ a td' Ha' (lookup_empty _)).
    change (Kind td') with KindArray. cbv iota. unfold generateArraySchema.
    change (ElementType td') with (@Some addr (length (Heap st))). cbv iota.
    rewrite E1. simpl. split; [reflexivity|]. split; [done|]. intros; congruence.
  - set (td' := mkType (Name td) KindMap (Fields td) (ElementType td)
                       (Some (length (Heap st))) (Some (S (length (Heap st))))
                       (Package td) (BasicType td) true).
    set (h' := <[a := td']> ((Heap st ++ [placeholderString (Package td)])
                             ++ [placeholderString (Package td)])).
    assert (collectorResolveType a st = Ok (mkStore h' (Registry st))) as Hres.
    { unfold collectorResolveType, deref. rewrite Ha. simpl. rewrite Hr, Hk.
      unfold h', td'. simpl. rewrite length_app. simpl.
      by rewrite Nat.add_1_r. }
    assert (h' !! a = Some td') as Ha'.
    { unfold h'. apply list_lookup_insert_eq. rewrite !length_app. lia. }
    assert (h' !! S (length (Heap st)) = Some (placeholderString (Package td))) as He.
    { unfold h'. rewrite list_lookup_insert_ne by lia.
      rewrite lookup_app_r by (rewrite length_app; simpl; lia).
      rewrite length_app. simpl. by rewrite Nat.add_1_r, Nat.sub_diag. }
    destruct (GenerateSchema_placeholder h' _ _ ∅ He Hempty) as (g1 & E1 & _).
    exists (mkStore h' (Registry st)). eexists _, _. split; [exact Hres|].
    cbn [Heap]. rewrite (GenerateSchema_build h' 1 ∅ a td' Ha' (lookup_empty _)).
    change (Kind td') with KindMap. cbv iota. unfold generateMapSchema.
    change (ValueType td') with (@Some addr (S (length (Heap st)))). cbv iota.
    rewrite E1. simpl. split; [reflexivity|]. split; [intros; congruence|done].
Qed.

(** [type Tags []Label] as the collector registers it. *)
Definition collectedTags : store :=
  collectTypeDeclaration "Tags" (ArrayType (Ident "Label"))
    (mkStore [] (SetCurrentPackage "p" (mkRegistry ∅ ""))).

Lemma collected_collection_witness :
  exists st' g s,
    collectorResolveType 0 collectedTags = Ok st'
    /\ GenerateSchema (Heap st') 2 ∅ (Some 0) = Ok (g, Some s)
    /\ (KindArray = KindArray ->
        SchemaType s = JSONSchemaTypeArray /\ Items s = Some stringSchema)
    /\ (KindArray = KindMap ->
        SchemaType s = JSONSchemaTypeObject
        /\ AdditionalProperties s = Some (propertyOf stringSchema)).
Proof.
  apply (collected_collection_is_documented_with_strings collectedTags 0
           (mkType "Tags" KindArray [] None None None "p" "" false)).
  - vm_compute. reflexivity.
  - by left.
  - reflexivity.
Defined.

(** ** Imported types are looked up by field name *)

Lemma findImportedType_plain (name : string) (imports : gmap string string)
  (r : TypeRegistry) :
  containsByte dot name = false -> findImportedType name imports r = None.
Proof. intros H. unfold findImportedType. by rewrite H. Qed.

Lemma deref_Some (h : heap) (a : addr) (td : TypeDefinition) :
  h !! a = Some td -> deref h a = Ok td.
Proof. intros E. unfold deref. by rewrite E. Qed.

(** X21. [resolveImportedType] looks a nil field type up under the name of
    the field, and only when that name is qualified.  So for a struct that
    is not resolved and whose fields all have a nil type and a name without
    a dot (as every Go field name is), it fills in no field type and only
    sets the flag; and when the given package is not registered it changes
    nothing at all. *)
Theorem resolveImportedType_fills_no_plain_field
  (n : nat) (st : store) (a : addr) (td : TypeDefinition)
  (pkgPath typeName : string) :
  Heap st !! a = Some td ->
  Kind td = KindStruct ->
  IsResolved td = false ->
  (forall f, f ∈ Fields td ->
     FieldType f = None /\ containsByte dot (FieldName f) = false) ->
  resolveImportedType (S n) a pkgPath typeName st
  = match Packages (Registry st) !! pkgPath with
    | Some _ => Ok (mkStore (setResolved a (Heap st)) (Registry st))
    | None => Ok st
    end.
Proof.
  intros Ha Hk Hr Hf. simpl. rewrite (deref_Some _ _ _ Ha). simpl. rewrite Hr.
  destruct (Packages (Registry st) !! pkgPath) as [pkgInfo|]; [|done].
  rewrite Hk.
  assert (forall l : list nat,
            forEach
              (fun st0 i =>
                 cur ← deref (Heap st0) a;
                 match Fields cur !! i with
                 | None => Ok st0
                 | Some field =>
                     match FieldType field with
                     | None =>
                         match findImportedType (FieldName field)
                                 (Imports pkgInfo) (Registry st0) with
                         | Some ft =>
                             Ok (mkStore
                                   (alter (setFieldTypeAt i (Some ft)) a (Heap st0))
                                   (Registry st0))
                         | None => Ok st0
                         end
                     | Some _ =>
                         match FieldType field with
                         | None => Ok st0
                         | Some b =>
                             bt ← deref (Heap st0) b;
                             if IsResolved bt then Ok st0
                             else resolveImportedType n b (Package bt) (Name bt) st0
                         end
                     end
                 end) st l = Ok st) as Hloop.
  { induction l as [|i l IH]; simpl; [done|].
    rewrite (deref_Some _ _ _ Ha). simpl.
    destruct (Fields td !! i) as [field|] eqn:Ei.
    - destruct (Hf field) as [Hty Hname]; [by eapply list_elem_of_lookup_2|].
      rewrite Hty, (findImportedType_plain _ _ _ Hname). simpl. apply IH.
    - simpl. apply IH. }
  rewrite Hloop. done.
Qed.

Lemma resolveImportedType_witness :
  resolveImportedType 1 0 "p" "User" collectedUser
  = match Packages (Registry collectedUser) !! "p" with
    | Some _ =>
        Ok (mkStore (setResolved 0 (Heap collectedUser)) (Registry collectedUser))
    | None => Ok collectedUser
    end.
Proof.
  apply (resolveImportedType_fills_no_plain_field 0 collectedUser 0 collectedUserType).
  - vm_compute. reflexivity.
  - reflexivity.
  - reflexivity.
  - intros f Hf. simpl in Hf.
    apply elem_of_cons in Hf as [->|Hf]; [by split|].
    apply elem_of_cons in Hf as [->|Hf]; [by split|]. inversion Hf.
Defined.

(** ** What [ResolveType] builds *)

(** Induction over the expressions that [ResolveType] descends into. *)
Section ExprInduction.
Variable P : Expr -> Prop.
Hypothesis HIdent : forall name, P (Ident name).
Hypothesis HSelector : forall x sel, P (SelectorExpr x sel).
Hypothesis HCall : forall fn args, P (CallExpr fn args).
Hypothesis HUnary : forall op x, P (UnaryExpr op x).
Hypothesis HBinary : forall x op y, P (BinaryExpr x op y).
Hypothesis HParen : forall x, P (ParenExpr x).
Hypothesis HComposite : forall ty elts, P (CompositeLit ty elts).
Hypothesis HBasicLit : forall kd v, P (BasicLit kd v).
Hypothesis HStar : forall x, P x -> P (StarExpr x).
Hypothesis HArray : forall elt, P elt -> P (ArrayType elt).
Hypothesis HMap : forall k v, P k -> P v -> P (MapType k v).
Hypothesis HStruct :
  forall flds, Forall (fun f => P (FieldTypeExpr f)) flds -> P (StructType flds).

Fixpoint type_expr_ind (e : Expr) : P e :=
  match e with
  | Ident name => HIdent name
  | SelectorExpr x sel => HSelector x sel
  | CallExpr fn args => HCall fn args
  | UnaryExpr op x => HUnary op x
  | BinaryExpr x op y => HBinary x op y
  | ParenExpr x => HParen x
  | CompositeLit ty elts => HComposite ty elts
  | BasicLit kd v => HBasicLit kd v
  | StarExpr x => HStar x (type_expr_ind x)
  | ArrayType elt => HArray elt (type_expr_ind elt)
  | MapType k v => HMap k v (type_expr_ind k) (type_expr_ind v)
  | StructType flds =>
      HStruct flds
        ((fix go (l : list Field) : Forall (fun f => P (FieldTypeExpr f)) l :=
            match l with
            | [] => @Lists.List.Forall_nil _ _
            | f :: l' =>
                @Lists.List.Forall_cons _ _ f l'
                  (match f return P (FieldTypeExpr f) with
                   | mkASTField _ ty _ => type_expr_ind ty
                   end)
                  (go l')
            end) flds)
  end.
End ExprInduction.

(** The loop over the fields of an anonymous struct in [ResolveType]. *)
Fixpoint resolveFieldList (l : list Field) (st : store)
  (acc : list FieldDefinition) (resolved : bool)
  : result (store * list FieldDefinition * bool) :=
  match l with
  | [] => Ok (st, acc, resolved)
  | mkASTField names ty tag :: l' =>
      '(st1, fieldType) ← ResolveType ty st;
      match fieldType with
      | None => resolveFieldList l' st1 acc false
      | Some _ =>
          resolveFieldList l' st1
            (acc ++ fieldDefs (mkASTField names ty tag) fieldType) resolved
      end
  end.

Lemma ResolveType_struct (flds : list Field) (st : store) :
  ResolveType (StructType flds) st
  = let cur := CurrentPackage (Registry st) in
    let '(st0, a) := alloc (mkType "anonymous" KindStruct [] None None None
                                   cur "" true) st in
    '(st1, fields, resolved) ← resolveFieldList flds st0 [] true;
    Ok (mkStore (<[a := mkType "anonymous" KindStruct fields None None None
                               cur "" resolved]> (Heap st1))
                (Registry st1),
        Some a).
Proof. reflexivity. Qed.

(** A pointer that is nil or leads into the heap. *)
Definition validPtr (h : heap) (p : ptr) : Prop :=
  forall a, p = Some a -> a < length h.

(** A definition all of whose pointers lead into the heap, and that has an
    element when it is a pointer type. *)
Definition closedType (h : heap) (td : TypeDefinition) : Prop :=
  (forall f, f ∈ Fields td -> validPtr h (FieldType f))
  /\ validPtr h (ElementType td)
  /\ validPtr h (KeyType td)
  /\ validPtr h (ValueType td)
  /\ (Kind td = KindPointer -> ElementType td <> None).

(** A store without dangling pointers: in the definitions, and in the
    tables of the registry. *)
Definition closedStore (st : store) : Prop :=
  (forall a td, Heap st !! a = Some td -> closedType (Heap st) td)
  /\ (forall p info name a,
        Packages (Registry st) !! p = Some info ->
        Types info !! name = Some a ->
        a < length (Heap st)).

Lemma validPtr_mono (h h' : heap) (p : ptr) :
  length h <= length h' -> validPtr h p -> validPtr h' p.
Proof. intros Hl Hp a Ha. specialize (Hp a Ha). lia. Qed.

Lemma closedType_mono (h h' : heap) (td : TypeDefinition) :
  length h <= length h' -> closedType h td -> closedType h' td.
Proof.
  intros Hl (Hf & He & Hk & Hv & Hp).
  split; [intros f Hin; eapply validPtr_mono; eauto|].
  repeat split; eauto using validPtr_mono.
Qed.

Lemma closedStore_alloc (td : TypeDefinition) (st : store) :
  closedStore st ->
  closedType (Heap st ++ [td]) td ->
  closedStore (alloc td st).1.
Proof.
  intros [Hh Hr] Htd. split; simpl.
  - intros a td' Ha. apply lookup_app_Some in Ha as [Ha|[_ Ha]].
    + eapply closedType_mono; [|by eapply Hh]. rewrite length_app. lia.
    + apply list_lookup_singleton_Some in Ha as [_ <-]. exact Htd.
  - intros p info name a Hp Ha. rewrite length_app.
    specialize (Hr p info name a Hp Ha). lia.
Qed.

Lemma RegisterPackage_regEvolves (p : string) (r : TypeRegistry) :
  regEvolves r (RegisterPackage p r).1.
Proof.
  intros q. unfold RegisterPackage.
  destruct (Packages r !! p) eqn:Ep; simpl; [by left|].
  destruct (decide (p = q)) as [->|Hne].
  - right. by rewrite lookup_insert_eq.
  - left. by rewrite lookup_insert_ne.
Qed.

Lemma LookupType_registry (name : string) (r : TypeRegistry) :
  (LookupType name r).1 = (RegisterPackage (CurrentPackage r) r).1.
Proof.
  unfold LookupType. destruct (containsByte dot name).
  - destruct (splitN2 dot name). by destruct (RegisterPackage _ r).
  - by destruct (RegisterPackage _ r).
Qed.

Lemma LookupType_found (name : string) (r : TypeRegistry) (a : addr) :
  (LookupType name r).2 = Some a ->
  exists p info n,
    Packages (LookupType name r).1 !! p = Some info /\ Types info !! n = Some a.
Proof.
  rewrite LookupType_registry. unfold LookupType.
  destruct (containsByte dot name).
  - destruct (splitN2 dot name) as [pkgAlias typeName].
    destruct (RegisterPackage (CurrentPackage r) r) as [r' pkg]. simpl.
    destruct (Imports pkg !! pkgAlias) as [pkgPath|]; simpl; [|discriminate].
    destruct (Packages r' !! pkgPath) as [importedPkg|] eqn:E; simpl; [|discriminate].
    intros Ha. by exists pkgPath, importedPkg, typeName.
  - unfold RegisterPackage.
    destruct (Packages r !! CurrentPackage r) as [pkg|] eqn:E; simpl.
    + intros Ha. by exists (CurrentPackage r), pkg, name.
    + by rewrite lookup_empty.
Qed.

Lemma RegisterPackage_CurrentPackage (p : string) (r : TypeRegistry) :
  CurrentPackage (RegisterPackage p r).1 = CurrentPackage r.
Proof. unfold RegisterPackage. by destruct (Packages r !! p). Qed.

(** What [ResolveType] guarantees on a closed store. *)
Definition resolvesSafely (expr : Expr) : Prop :=
  forall st,
    closedStore st ->
    exists st' p,
      ResolveType expr st = Ok (st', p)
      /\ closedStore st'
      /\ validPtr (Heap st') p
      /\ (exists ext, Heap st' = Heap st ++ ext)
      /\ regEvolves (Registry st) (Registry st')
      /\ CurrentPackage (Registry st') = CurrentPackage (Registry st).

Lemma lookupIn_safely (name : string) (st : store) :
  closedStore st ->
  exists st' p,
    lookupIn name st = (st', p)
    /\ closedStore st'
    /\ validPtr (Heap st') p
    /\ (exists ext, Heap st' = Heap st ++ ext)
    /\ regEvolves (Registry st) (Registry st')
    /\ CurrentPackage (Registry st') = CurrentPackage (Registry st).
Proof.
  intros [Hh Hr]. unfold lookupIn.
  pose proof (LookupType_registry name (Registry st)) as Hreg.
  pose proof (LookupType_found name (Registry st)) as Hfound.
  destruct (LookupType name (Registry st)) as [r' p]. simpl in *. subst r'.
  assert (forall q info n a,
            Packages (RegisterPackage (CurrentPackage (Registry st)) (Registry st)).1
              !! q = Some info ->
            Types info !! n = Some a -> a < length (Heap st)) as Hr'.
  { intros q info n a Hq Ha.
    destruct (RegisterPackage_regEvolves (CurrentPackage (Registry st))
                (Registry st) q) as [E|[_ E]]; rewrite E in Hq.
    - by eapply Hr.
    - simplify_eq. }
  eexists _, _. split; [reflexivity|]. simpl.
  split; [by split|]. split.
  - intros a ->. destruct (Hfound a eq_refl) as (q & info & n & Hq & Ha).
    by eapply Hr'.
  - split; [exists []; by rewrite app_nil_r|].
    split; [apply RegisterPackage_regEvolves|apply RegisterPackage_CurrentPackage].
Qed.

Lemma elem_of_fieldDefs (fld : Field) (p : ptr) (f : FieldDefinition) :
  f ∈ fieldDefs fld p -> FieldType f = p.
Proof.
  unfold fieldDefs. destruct (extractJSONTag (FieldTag fld)) as [jsonName omitempty].
  intros Hin. apply list_elem_of_fmap in Hin as (name & -> & _). reflexivity.
Qed.

(** One more definition around a type held at a valid address. *)
Lemma wrap_safely (mk : TypeDefinition -> TypeDefinition) (st st1 : store) (e : addr) :
  closedStore st1 ->
  e < length (Heap st1) ->
  (exists ext, Heap st1 = Heap st ++ ext) ->
  (forall et, closedType (Heap st1 ++ [mk et]) (mk et)) ->
  exists st' p,
    (et ← deref (Heap st1) e; let '(st2, a) := alloc (mk et) st1 in Ok (st2, Some a))
    = Ok (st', p)
    /\ closedStore st'
    /\ validPtr (Heap st') p
    /\ (exists ext, Heap st' = Heap st ++ ext)
    /\ Registry st' = Registry st1.
Proof.
  intros Hc He [ext Hext] Hmk.
  destruct (lookup_lt_is_Some_2 (Heap st1) e He) as [et Het].
  rewrite (deref_Some _ _ _ Het). simpl. eexists _, _. split; [reflexivity|].
  split; [apply (closedStore_alloc (mk et) st1 Hc (Hmk et))|]. simpl.
  split; [intros a [= <-]; rewrite length_app; simpl; lia|].
  split; [|done]. exists (ext ++ [mk et]). by rewrite Hext, app_assoc.
Qed.

Lemma ResolveType_safely (expr : Expr) : resolvesSafely expr.
Proof.
  induction expr as [name|x sel|fn args|op x|x op y|x|ty elts|kd v|x IHx
                     |elt IHelt|k v IHk IHv|flds Hflds] using type_expr_ind;
    intros st Hc;
    try (exists st, None; split; [reflexivity|]; split; [done|];
         split; [intros ? [=]|]; split; [exists []; by rewrite app_nil_r|];
         split; [apply regEvolves_refl|done]).
  - (* Ident *)
    simpl. destruct (isBasicType name).
    + eexists _, _. split; [reflexivity|].
      split; [apply closedStore_alloc; [done|]|].
      { split; [intros f Hf; inversion Hf|]. repeat split; solve [intros ? [=] | intros [=]]. }
      simpl. split; [intros a [= <-]; rewrite length_app; simpl; lia|].
      split; [by eexists|]. split; [apply regEvolves_refl|done].
    + destruct (lookupIn_safely name st Hc) as (st' & p & -> & H). by exists st', p.
  - (* SelectorExpr *)
    destruct x;
      try (exists st, None; split; [reflexivity|]; split; [done|];
           split; [intros ? [=]|]; split; [exists []; by rewrite app_nil_r|];
           split; [apply regEvolves_refl|done]).
    simpl. destruct (lookupIn_safely (name +:+ "." +:+ sel) st Hc)
      as (st' & p & -> & H). by exists st', p.
  - (* StarExpr *)
    destruct (IHx st Hc) as (st1 & p1 & E1 & Hc1 & Hp1 & Hext1 & Hr1 & Hcur1).
    destruct p1 as [e|].
    + destruct (wrap_safely
                  (fun et => mkType ("*" +:+ Name et) KindPointer [] (Some e) None None
                               (CurrentPackage (Registry st1)) "" (IsResolved et))
                  st st1 e Hc1 (Hp1 e eq_refl) Hext1)
        as (st' & p & E & Hc' & Hp' & Hext' & Hr').
      { intros et. split; [intros f Hf; inversion Hf|]. simpl.
        split; [intros a [= <-]; rewrite length_app; specialize (Hp1 _ eq_refl); lia|].
        repeat split; solve [intros ? [=] | done]. }
      exists st', p. split; [simpl; rewrite E1; exact E|].
      split; [done|]. split; [done|]. split; [done|]. rewrite Hr'. done.
    + exists st1, None. split; [simpl; by rewrite E1|done].
  - (* ArrayType *)
    destruct (IHelt st Hc) as (st1 & p1 & E1 & Hc1 & Hp1 & Hext1 & Hr1 & Hcur1).
    destruct p1 as [e|].
    + destruct (wrap_safely
                  (fun et => mkType ("[]" +:+ Name et) KindArray [] (Some e) None None
                               (CurrentPackage (Registry st1)) "" (IsResolved et))
                  st st1 e Hc1 (Hp1 e eq_refl) Hext1)
        as (st' & p & E & Hc' & Hp' & Hext' & Hr').
      { intros et. split; [intros f Hf; inversion Hf|]. simpl.
        split; [intros a [= <-]; rewrite length_app; specialize (Hp1 _ eq_refl); lia|].
        repeat split; solve [intros ? [=] | intros [=]]. }
      exists st', p. split; [simpl; rewrite E1; exact E|].
      split; [done|]. split; [done|]. split; [done|]. rewrite Hr'. done.
    + exists st1, None. split; [simpl; by rewrite E1|done].
  - (* MapType *)
    destruct (IHk st Hc) as (st1 & p1 & E1 & Hc1 & Hp1 & [ext1 Hext1] & Hr1 & Hcur1).
    destruct (IHv st1 Hc1) as (st2 & p2 & E2 & Hc2 & Hp2 & [ext2 Hext2] & Hr2 & Hcur2).
    simpl. rewrite E1. simpl. rewrite E2. simpl.
    assert (exists ext, Heap st2 = Heap st ++ ext) as Hext
      by (exists (ext1 ++ ext2); by rewrite Hext2, Hext1, app_assoc).
    assert (regEvolves (Registry st) (Registry st2)) as Hr
      by (by eapply regEvolves_trans).
    assert (validPtr (Heap st2) p1) as Hp1'.
    { eapply validPtr_mono; [|exact Hp1]. rewrite Hext2, length_app. lia. }
    destruct p1 as [ka|]; [destruct p2 as [va|]|].
    + destruct (lookup_lt_is_Some_2 (Heap st2) ka (Hp1' ka eq_refl)) as [kt Hkt].
      destruct (lookup_lt_is_Some_2 (Heap st2) va (Hp2 va eq_refl)) as [vt Hvt].
      rewrite (deref_Some _ _ _ Hkt). simpl. rewrite (deref_Some _ _ _ Hvt). simpl.
      eexists _, _. split; [reflexivity|].
      split; [apply closedStore_alloc; [done|]|].
      { split; [intros f Hf; inversion Hf|]. simpl.
        split; [intros ? [=]|].
        split; [intros a [= <-]; rewrite length_app; specialize (Hp1' _ eq_refl); lia|].
        split; [intros a [= <-]; rewrite length_app; specialize (Hp2 _ eq_refl); lia|].
        intros [=]. }
      simpl. split; [intros a [= <-]; rewrite length_app; simpl; lia|].
      split; [|split; [done|congruence]].
      destruct Hext as [ext ->]. exists (ext ++ [mkType ("map[" +:+ Name kt +:+ "]" +:+ Name vt) KindMap []
                          None (Some ka) (Some va)
                          (CurrentPackage (Registry st2)) ""
                          (IsResolved kt && IsResolved vt)]). by rewrite app_assoc.
    + exists st2, None. split; [done|]. split; [done|]. split; [intros ? [=]|].
      split; [done|]. split; [done|congruence].
    + exists st2, None. split; [by destruct p2|]. split; [done|]. split; [intros ? [=]|].
      split; [done|]. split; [done|congruence].
  - (* StructType *)
    rewrite ResolveType_struct. cbv zeta.
    set (anon := mkType "anonymous" KindStruct [] None None None
                        (CurrentPackage (Registry st)) "" true).
    assert (closedStore (alloc anon st).1) as Hc0.
    { apply closedStore_alloc; [done|].
      split; [intros f Hf; inversion Hf|]. repeat split; solve [intros ? [=] | intros [=]]. }
    assert (forall l, Forall (fun f => resolvesSafely (FieldTypeExpr f)) l ->
            forall s acc resolved,
              closedStore s ->
              (forall f, f ∈ acc -> validPtr (Heap s) (FieldType f)) ->
              exists s1 fields resolved',
                resolveFieldList l s acc resolved = Ok (s1, fields, resolved')
                /\ closedStore s1
                /\ (forall f, f ∈ fields -> validPtr (Heap s1) (FieldType f))
                /\ (exists ext, Heap s1 = Heap s ++ ext)
                /\ regEvolves (Registry s) (Registry s1)
                /\ CurrentPackage (Registry s1) = CurrentPackage (Registry s)) as Hloop.
    { clear. induction l as [|[names ty tag] l IHl]; intros Hall s acc resolved Hs Hacc.
      - exists s, acc, resolved. split; [reflexivity|]. split; [done|]. split; [done|].
        split; [exists []; by rewrite app_nil_r|]. split; [apply regEvolves_refl|done].
      - apply Forall_cons in Hall as [Hty Hall]. simpl in Hty.
        destruct (Hty s Hs) as (s1 & p1 & E1 & Hc1 & Hp1 & [ext1 Hext1] & Hr1 & Hcur1).
        cbn [resolveFieldList]. rewrite E1. cbn [mbind result_bind].
        assert (forall f, f ∈ acc -> validPtr (Heap s1) (FieldType f)) as Hacc1.
        { intros f Hf. eapply validPtr_mono; [|by apply Hacc].
          rewrite Hext1, length_app. lia. }
        destruct p1 as [b|].
        + destruct (IHl Hall s1 (acc ++ fieldDefs (mkASTField names ty tag) (Some b))
                      resolved Hc1)
            as (s2 & fields & resolved' & E2 & Hc2 & Hf2 & [ext2 Hext2] & Hr2 & Hcur2).
          { intros f Hf. apply elem_of_app in Hf as [Hf|Hf]; [by apply Hacc1|].
            apply elem_of_fieldDefs in Hf. by rewrite Hf. }
          exists s2, fields, resolved'. split; [exact E2|]. split; [done|].
          split; [done|].
          split; [exists (ext1 ++ ext2); by rewrite Hext2, Hext1, app_assoc|].
          split; [by eapply regEvolves_trans|congruence].
        + destruct (IHl Hall s1 acc false Hc1 Hacc1)
            as (s2 & fields & resolved' & E2 & Hc2 & Hf2 & [ext2 Hext2] & Hr2 & Hcur2).
          exists s2, fields, resolved'. split; [exact E2|]. split; [done|].
          split; [done|].
          split; [exists (ext1 ++ ext2); by rewrite Hext2, Hext1, app_assoc|].
          split; [by eapply regEvolves_trans|congruence]. }
    destruct (Hloop flds Hflds (alloc anon st).1 [] true Hc0)
      as (s1 & fields & resolved' & E & [Hh1 Hr1] & Hf & [ext Hext] & Hreg & Hcur);
      [intros f Hf; inversion Hf|].
    change (alloc anon st) with ((alloc anon st).1, length (Heap st)).
    cbv iota beta. rewrite E. cbn [mbind result_bind].
    set (td := mkType "anonymous" KindStruct fields None None None
                      (CurrentPackage (Registry st)) "" resolved').
    simpl in Hext.
    assert (length (Heap st) < length (Heap s1)) as Hlen
      by (rewrite Hext, !length_app; simpl; lia).
    eexists _, _. split; [reflexivity|]. simpl. split; [split; simpl|].
    + intros a td' Ha.
      assert (closedType (Heap s1) td') as Hct.
      { destruct (decide (a = length (Heap st))) as [->|Hne].
        - rewrite list_lookup_insert_eq in Ha by done. simplify_eq.
          split; [exact Hf|]. repeat split; solve [intros ? [=] | intros [=]].
        - rewrite list_lookup_insert_ne in Ha by done. by eapply Hh1. }
      eapply closedType_mono; [|exact Hct]. by rewrite length_insert.
    + intros p info name a Hp Ha. rewrite length_insert. by eapply Hr1.
    + split; [intros a [= <-]; by rewrite length_insert|].
      split; [|by split].
      exists (td :: ext). rewrite Hext.
      rewrite <- app_assoc. simpl.
      rewrite insert_app_r_alt by lia. by rewrite Nat.sub_diag.
Qed.

Lemma closedStore_pointers (st : store) :
  closedStore st -> pointersHaveElements (Heap st).
Proof. intros [Hh _] a td Ha. by destruct (Hh a td Ha) as (_ & _ & _ & _ & Hp). Qed.

(** The store before anything is declared, with the cursor on [p]. *)
Definition freshStore (p : string) : store :=
  mkStore [] (SetCurrentPackage p (mkRegistry ∅ "")).

Lemma closedStore_fresh (p : string) : closedStore (freshStore p).
Proof.
  split; simpl.
  - intros a td Ha. by rewrite lookup_nil in Ha.
  - intros q info name a Hq Ha.
    unfold freshStore in Hq. simpl in Hq.
    destruct (SetCurrentPackage_regEvolves p (mkRegistry ∅ "") q) as [E|[_ E]];
      rewrite E in Hq; simpl in Hq.
    + by rewrite lookup_empty in Hq.
    + by simplify_eq.
Qed.

(** X22. On a store without dangling pointers [ResolveType] always returns:
    it dereferences nothing that is not there.  The definitions that were
    in the heap are still there, unchanged, and the new ones come after
    them; the result, when it is not nil, is in the heap; every package
    keeps its types and imports, and the cursor stays; and the store is
    again without dangling pointers.  In particular every pointer type that
    [ResolveType] builds has an element. *)
Theorem ResolveType_keeps_the_store_closed (expr : Expr) (st : store) :
  closedStore st ->
  exists st' p,
    ResolveType expr st = Ok (st', p)
    /\ closedStore st'
    /\ pointersHaveElements (Heap st')
    /\ (forall a, p = Some a -> is_Some (Heap st' !! a))
    /\ (exists ext, Heap st' = Heap st ++ ext)
    /\ (forall q info, Packages (Registry st) !! q = Some info ->
          Packages (Registry st') !! q = Some info)
    /\ CurrentPackage (Registry st') = CurrentPackage (Registry st).
Proof.
  intros Hc.
  destruct (ResolveType_safely expr st Hc)
    as (st' & p & E & Hc' & Hp & Hext & Hr & Hcur).
  exists st', p. split; [exact E|]. split; [exact Hc'|].
  split; [by apply closedStore_pointers|].
  split; [intros a Ha; apply lookup_lt_is_Some_2; by apply Hp|].
  split; [exact Hext|]. split; [|exact Hcur].
  intros q info Hq. destruct (Hr q) as [->|[E' _]]; [done|congruence].
Qed.

Lemma ResolveType_keeps_the_store_closed_witness :
  exists st' p,
    ResolveType
      (StructType [ mkASTField ["Owner"] (StarExpr (Ident "string")) None;
                    mkASTField ["Tags"] (ArrayType (Ident "Label")) None ])
      (freshStore "p") = Ok (st', p)
    /\ closedStore st'
    /\ pointersHaveElements (Heap st')
    /\ (forall a, p = Some a -> is_Some (Heap st' !! a))
    /\ (exists ext, Heap st' = Heap (freshStore "p") ++ ext)
    /\ (forall q info,
          Packages (Registry (freshStore "p")) !! q = Some info ->
          Packages (Registry st') !! q = Some info)
    /\ CurrentPackage (Registry st') = CurrentPackage (Registry (freshStore "p")).
Proof.
  apply (ResolveType_keeps_the_store_closed
           (StructType [ mkASTField ["Owner"] (StarExpr (Ident "string")) None;
                         mkASTField ["Tags"] (ArrayType (Ident "Label")) None ])
           (freshStore "p")).
  apply closedStore_fresh.
Defined.

(** *** Declarations *)

Lemma forEach_cons_Ok {A B} (body : B -> A -> result B) (x : A) (l : list A)
  (b b1 b' : B) :
  body b x = Ok b1 -> forEach body b1 l = Ok b' -> forEach body b (x :: l) = Ok b'.
Proof. intros E1 E2. simpl. rewrite E1. exact E2. Qed.

Lemma closedStore_appendField (fd : FieldDefinition) (a : addr) (s : store) :
  closedStore s ->
  validPtr (Heap s) (FieldType fd) ->
  closedStore (mkStore (alter (appendField fd) a (Heap s)) (Registry s)).
Proof.
  intros [Hh Hr] Hfd. split; simpl.
  - intros i td' Hi.
    assert (exists td, Heap s !! i = Some td
                       /\ (td' = td \/ td' = appendField fd td)) as (td & Htd & Hcase).
    { destruct (decide (a = i)) as [->|Hne].
      - rewrite list_lookup_alter_eq in Hi.
        destruct (Heap s !! i) as [td|]; simpl in Hi; [|discriminate].
        exists td. split; [done|]. right. by simplify_eq.
      - rewrite list_lookup_alter_ne in Hi by done. exists td'. by split; [|left]. }
    assert (closedType (Heap s) td') as Hct.
    { destruct (Hh i td Htd) as (Hf & He & Hk & Hv & Hp).
      destruct Hcase as [->| ->]; [by repeat split|].
      split; [|by repeat split]. simpl. intros f Hin.
      apply elem_of_app in Hin as [Hin|Hin]; [by apply Hf|].
      apply list_elem_of_singleton in Hin as ->. exact Hfd. }
    eapply closedType_mono; [|exact Hct]. by rewrite length_alter.
  - intros p info name b Hp Hb. rewrite length_alter. by eapply Hr.
Qed.

(** What holds while [processTypeDeclaration] goes through the fields of
    [type typeName struct {...}], started on the store [st]: [names] are the
    fields appended so far. *)
Definition declaring (typeName packagePath : string) (st : store)
  (names : list string) (s : store) : Prop :=
  closedStore s
  /\ (exists td ext,
        Heap s = Heap st ++ td :: ext
        /\ Name td = typeName /\ Kind td = KindStruct
        /\ IsResolved td = false /\ Package td = packagePath
        /\ FieldName <$> Fields td = names)
  /\ (exists info,
        Packages (Registry s) !! CurrentPackage (Registry st) = Some info
        /\ Types info !! typeName = Some (length (Heap st)))
  /\ CurrentPackage (Registry s) = CurrentPackage (Registry st).

Lemma declaring_field (typeName packagePath : string) (st : store) (f : Field)
  (name : string) (names : list string) (s : store) :
  declaring typeName packagePath st names s ->
  exists s',
    (let '(jsonName, omitempty) := extractJSONTag (FieldTag f) in
     '(st', fieldType) ← ResolveType (FieldTypeExpr f) s;
     let fieldDef := mkField name fieldType jsonName omitempty
                             (isPointerType (Some (FieldTypeExpr f))) in
     Ok (mkStore (alter (appendField fieldDef) (length (Heap st)) (Heap st'))
                 (Registry st')))
    = Ok s'
    /\ declaring typeName packagePath st (names ++ [name]) s'.
Proof.
  intros (Hc & (td & ext & Hheap & Hn & Hk & Hr & Hp & Hf) & (info & Hinfo & Hty) & Hcur).
  destruct (extractJSONTag (FieldTag f)) as [jsonName omitempty].
  destruct (ResolveType_safely (FieldTypeExpr f) s Hc)
    as (s1 & p & E & Hc1 & Hp1 & [ext1 Hext1] & Hreg & Hcur1).
  rewrite E. cbn [mbind result_bind]. eexists. split; [reflexivity|].
  split; [by apply closedStore_appendField|]. cbn [Heap Registry]. split; [|split].
  - exists (appendField (mkField name p jsonName omitempty
                           (isPointerType (Some (FieldTypeExpr f)))) td),
           (ext ++ ext1).
    split.
    + rewrite Hext1, Hheap, <- app_assoc. simpl.
      rewrite alter_app_r_alt by lia. by rewrite Nat.sub_diag.
    + simpl. repeat split; try done. by rewrite fmap_app, Hf.
  - exists info. split; [|done].
    destruct (Hreg (CurrentPackage (Registry st))) as [->|[E0 _]]; [done|congruence].
  - congruence.
Qed.

Lemma declaring_fields (typeName packagePath : string) (st : store)
  (flds : list Field) :
  forall names s,
    declaring typeName packagePath st names s ->
    exists s',
      forEach (fun st0 f =>
        forEach (fun st0 name =>
          let '(jsonName, omitempty) := extractJSONTag (FieldTag f) in
          '(st', fieldType) ← ResolveType (FieldTypeExpr f) st0;
          let fieldDef := mkField name fieldType jsonName omitempty
                                  (isPointerType (Some (FieldTypeExpr f))) in
          Ok (mkStore (alter (appendField fieldDef) (length (Heap st)) (Heap st'))
                      (Registry st')))
          st0 (FieldNames f))
        s flds = Ok s'
      /\ declaring typeName packagePath st (names ++ flat_map FieldNames flds) s'.
Proof.
  induction flds as [|f flds IH]; intros names s Hs.
  - exists s. split; [reflexivity|]. simpl. by rewrite app_nil_r.
  - assert (forall l names0 s0,
              declaring typeName packagePath st names0 s0 ->
              exists s1,
                forEach (fun st0 name =>
                  let '(jsonName, omitempty) := extractJSONTag (FieldTag f) in
                  '(st', fieldType) ← ResolveType (FieldTypeExpr f) st0;
                  let fieldDef := mkField name fieldType jsonName omitempty
                                          (isPointerType (Some (FieldTypeExpr f))) in
                  Ok (mkStore (alter (appendField fieldDef) (length (Heap st))
                                     (Heap st'))
                              (Registry st')))
                  s0 l = Ok s1
                /\ declaring typeName packagePath st (names0 ++ l) s1) as Hinner.
    { induction l as [|name l IHl]; intros names0 s0 Hs0.
      - exists s0. split; [reflexivity|]. by rewrite app_nil_r.
      - destruct (declaring_field typeName packagePath st f name names0 s0 Hs0)
          as (s1 & E1 & Hs1).
        destruct (IHl _ _ Hs1) as (s2 & E2 & Hs2).
        exists s2. split.
        + eapply forEach_cons_Ok; [exact E1|exact E2].
        + by rewrite <- app_assoc in Hs2. }
    destruct (Hinner (FieldNames f) names s Hs) as (s1 & E1 & Hs1).
    destruct (IH _ _ Hs1) as (s2 & E2 & Hs2).
    exists s2. split.
    + eapply forEach_cons_Ok; [exact E1|exact E2].
    + simpl. by rewrite app_assoc.
Qed.

(** X23. On a store without dangling pointers,
    [PackageResolver.processTypeDeclaration] on a struct declaration always
    returns.  The new definition comes right after the ones that were in
    the heap, which are unchanged; it is registered under its name in the
    current package; it is a struct, not resolved, with one field per
    declared name, in order, whether or not the type of the field was
    found; and the store is again without dangling pointers, so every
    pointer type in it has an element. *)
Theorem processStructDeclaration_keeps_the_store_closed
  (typeName packagePath : string) (flds : list Field) (st : store) :
  closedStore st ->
  exists st' td ext info,
    processStructDeclaration typeName packagePath flds st = Ok st'
    /\ closedStore st'
    /\ pointersHaveElements (Heap st')
    /\ Heap st' = Heap st ++ td :: ext
    /\ Name td = typeName /\ Kind td = KindStruct
    /\ IsResolved td = false /\ Package td = packagePath
    /\ FieldName <$> Fields td = flat_map FieldNames flds
    /\ Packages (Registry st') !! CurrentPackage (Registry st) = Some info
    /\ Types info !! typeName = Some (length (Heap st)).
Proof.
  intros Hc. unfold processStructDeclaration.
  set (td0 := mkType typeName KindStruct [] None None None packagePath "" false).
  change (alloc td0 st) with ((alloc td0 st).1, length (Heap st)). cbv iota beta zeta.
  assert (declaring typeName packagePath st []
            (mkStore (Heap (alloc td0 st).1)
                     (RegisterType typeName (length (Heap st))
                        (Registry (alloc td0 st).1)))) as H0.
  { destruct (RegisterType_registry typeName (length (Heap st)) (Registry st))
      as (pkg & Hpkg & Hty & Hcur & Hother & Himp & Hrest).
    split; [|split; [|split]]; simpl.
    - destruct Hc as [Hh Hr]. split; simpl.
      + intros a td Ha. apply lookup_app_Some in Ha as [Ha|[_ Ha]].
        * eapply closedType_mono; [|by eapply Hh]. rewrite length_app. lia.
        * apply list_lookup_singleton_Some in Ha as [_ <-].
          split; [intros f Hf; inversion Hf|].
          repeat split; solve [intros ? [=] | intros [=]].
      + intros p info name a Hp Ha. rewrite length_app. simpl.
        destruct (decide (p = CurrentPackage (Registry st))) as [->|Hne].
        * rewrite Hpkg in Hp. injection Hp as <-.
          destruct (decide (name = typeName)) as [Heq|Hn].
          -- subst name. pose proof (eq_trans (eq_sym Hty) Ha) as Hlen.
             injection Hlen as <-. lia.
          -- pose proof (eq_trans (eq_sym (Hother name Hn)) Ha) as Hold.
             clear Ha. rename Hold into Ha.
             destruct (Packages (Registry st) !! CurrentPackage (Registry st))
               as [old|] eqn:Eold; simpl in Ha; [|discriminate].
             specialize (Hr _ _ _ _ Eold Ha). lia.
        * rewrite (Hrest p Hne) in Hp. specialize (Hr _ _ _ _ Hp Ha). lia.
    - exists td0, []. by repeat split.
    - by exists pkg.
    - exact Hcur. }
  destruct (declaring_fields typeName packagePath st flds [] _ H0)
    as (st' & E & Hc' & (td & ext & Hheap & Hn & Hk & Hr & Hp & Hf)
        & (info & Hinfo & Hty) & Hcur).
  exists st', td, ext, info. split; [exact E|]. split; [exact Hc'|].
  split; [by apply closedStore_pointers|]. by repeat split.
Qed.

Lemma processStructDeclaration_witness :
  exists st' td ext info,
    processStructDeclaration "A" "p"
      [mkASTField ["Next"; "Prev"] (StarExpr (Ident "A")) None]
      (freshStore "p") = Ok st'
    /\ closedStore st'
    /\ pointersHaveElements (Heap st')
    /\ Heap st' = Heap (freshStore "p") ++ td :: ext
    /\ Name td = "A" /\ Kind td = KindStruct
    /\ IsResolved td = false /\ Package td = "p"
    /\ FieldName <$> Fields td
       = flat_map FieldNames [mkASTField ["Next"; "Prev"] (StarExpr (Ident "A")) None]
    /\ Packages (Registry st') !! CurrentPackage (Registry (freshStore "p"))
       = Some info
    /\ Types info !! "A" = Some (length (Heap (freshStore "p"))).
Proof.
  apply (processStructDeclaration_keeps_the_store_closed "A" "p"
           [mkASTField ["Next"; "Prev"] (StarExpr (Ident "A")) None]
           (freshStore "p")).
  apply closedStore_fresh.
Defined.

(** ** The tag [json:"-"] *)

(** The raw tag literal, back quotes included. *)
Definition dashTag : string :=
  "`json:" +:+ String dquote ("-" +:+ String dquote "`").

(** [type Account struct { Login string; Secret string `json:"-"` }] *)
Definition accountHeap : heap :=
  [ mkType "string" KindBasic [] None None None "p" "string" true;
    mkType "Account" KindStruct
      [ mkField "Login" (Some 0) "" false false;
        mkField "Secret" (Some 0) "" true false ]
      None None None "p" "" true ].

Definition accountType : TypeDefinition :=
  default (mkType "" KindBasic [] None None None "" "" true) (accountHeap !! 1).

Lemma accountHeap_pointers : pointersHaveElements accountHeap.
Proof.
  intros a td E Ek. destruct a as [|[|a]]; simpl in E; simplify_eq; discriminate Ek.
Defined.

(** What may follow the dash inside the quotes: nothing, or a comma and
    options. *)
Definition tagOptions (s : string) : bool :=
  match s with
  | EmptyString => true
  | String a _ => bool_decide (a = comma)
  end
  && negb (containsByte space s)
  && negb (containsByte dquote s)
  && negb (containsByte backtick s).

(** What may follow the [json] key in the tag: nothing, or a space and
    further keys. *)
Definition moreKeys (s : string) : bool :=
  match s with
  | EmptyString => true
  | String a _ => bool_decide (a = space)
  end
  && negb (containsByte backtick s).

(** The raw literal of a tag whose [json] key, the first in the tag, has
    the name ["-"]: [`json:"-"`], [`json:"-,omitempty"`],
    [`json:"-" xml:"secret"`]. *)
Definition dashLiteral (options others : string) : string :=
  String backtick
    (("json:" +:+ String dquote (("-" +:+ options) +:+ String dquote others))
     +:+ String backtick EmptyString).

Lemma extractJSONTag_dash (options others : string) :
  tagOptions options = true ->
  moreKeys others = true ->
  extractJSONTag (Some (dashLiteral options others)) = ("", true).
Proof.
  intros Hopt Hmore. unfold tagOptions in Hopt. unfold moreKeys in Hmore.
  apply andb_prop in Hopt as [Hopt Hob]. apply andb_prop in Hopt as [Hopt Hoq].
  apply andb_prop in Hopt as [Hhead Hos]. apply andb_prop in Hmore as [Hmhead Hmb].
  apply negb_true_iff in Hob, Hoq, Hos, Hmb.
  set (inner := "-" +:+ options).
  set (first := "json:" +:+ String dquote (inner +:+ String dquote EmptyString)).
  set (body := "json:" +:+ String dquote (inner +:+ String dquote others)).
  assert (body = first +:+ others) as Hbody.
  { unfold body, first.
    change (String "j" (String "s" (String "o" (String "n" (String ":"
              (String dquote (inner +:+ String dquote others))))))
            = String "j" (String "s" (String "o" (String "n" (String ":"
                (String dquote ((inner +:+ String dquote EmptyString) +:+ others))))))).
    by rewrite append_assoc. }
  assert (forall c, c ∈ [space; dquote; backtick] -> containsByte c inner = false)
    as Hinner.
  { intros c Hc. unfold inner.
    repeat (apply elem_of_cons in Hc as [->|Hc]; [simpl; done|]). inversion Hc. }
  assert (forall c, c ∈ [space; backtick] -> containsByte c first = false) as Hfirst.
  { intros c Hc. unfold first.
    assert (containsByte c (inner +:+ String dquote EmptyString) = false) as Hi.
    { rewrite containsByte_app, Hinner by set_solver. simpl.
      repeat (apply elem_of_cons in Hc as [->|Hc]; [reflexivity|]). inversion Hc. }
    repeat (apply elem_of_cons in Hc as [->|Hc]; [simpl; exact Hi|]). inversion Hc. }
  assert (containsByte backtick body = false) as Hbb.
  { rewrite Hbody, containsByte_app, Hfirst, Hmb by set_solver. done. }
  unfold extractJSONTag.
  change (dashLiteral options others)
    with (String backtick (body +:+ String backtick EmptyString)).
  rewrite trim_wrapped by done.
  assert (exists rest, split space body = first :: rest) as [rest Hsplit].
  { rewrite Hbody. destruct others as [|a more].
    - rewrite append_empty_r. exists []. apply split_none. apply Hfirst. set_solver.
    - simpl in Hmhead. apply bool_decide_eq_true in Hmhead as ->.
      eexists. apply split_first. apply Hfirst. set_solver. }
  assert (jsonTagOf body = inner) as ->.
  { unfold jsonTagOf. rewrite Hsplit, filter_cons.
    rewrite decide_True by reflexivity.
    change (trimPrefix first "json:")
      with (String dquote (inner +:+ String dquote EmptyString)).
    apply trim_wrapped. apply Hinner. set_solver. }
  rewrite decide_False by discriminate.
  assert (hd "" (split comma inner) = "-") as Hhd.
  { unfold inner. destruct options as [|a o]; [reflexivity|].
    simpl in Hhead. apply bool_decide_eq_true in Hhead as ->. reflexivity. }
  rewrite Hhd. by rewrite decide_True.
Qed.

Lemma dashTag_literal : dashTag = dashLiteral "" "".
Proof. reflexivity. Qed.

(** C10 (as amended). For a field whose raw tag has [json] as its first key
    with the name ["-"] (with or without options, with or without further
    keys), [extractJSONTag] returns the empty name with omitempty set.
    Such a field, when its type was found and no typed field without
    omitempty has its declared name as wire name, is a property of the
    generated schema under its declared Go name, is absent from the required
    list, and has no entry in the generated example. *)
Theorem json_dash_field_is_optional_property
  (h : heap) (n k : nat) (g g' : memo) (td : TypeDefinition) (s : JSONSchema)
  (astField : Field) (options others : string) (a : addr) (fd : FieldDefinition) :
  tagOptions options = true ->
  moreKeys others = true ->
  FieldTag astField = Some (dashLiteral options others) ->
  fd ∈ fieldDefs astField (Some a) ->
  fd ∈ Fields td ->
  (forall f, f ∈ Fields td -> FieldType f <> None -> Omitempty f = false ->
             wireName f <> FieldName fd) ->
  pointersHaveElements h ->
  generateStructSchema (GenerateSchema h n) g td = Ok (g', s) ->
  extractJSONTag (FieldTag astField) = ("", true)
  /\ FieldName fd ∈ dom (Properties s)
  /\ (FieldName fd ∉ Required s)
  /\ forall m, generateStructExample (generateExample h k) td = Ok m ->
               m !! FieldName fd = None.
Proof.
  intros Hopt Hmore Htag Hfd Hin Hfree Hp E.
  assert (extractJSONTag (FieldTag astField) = ("", true)) as Hx
    by (rewrite Htag; by apply extractJSONTag_dash).
  assert (JSONName fd = "" /\ Omitempty fd = true /\ FieldType fd = Some a)
    as (Hj & Ho & Hty).
  { unfold fieldDefs in Hfd. rewrite Hx in Hfd.
    apply list_elem_of_fmap in Hfd as (name & -> & _). done. }
  assert (wireName fd = FieldName fd) as Hw.
  { unfold wireName. rewrite Hj. by rewrite decide_True. }
  apply (structSchema_loop h n Hp) in E as (_ & Hd & Hr). simpl in Hd, Hr.
  assert (FieldName fd ∉ wireName <$> filter (fun f => Omitempty f = false)
                          (filter (fun f => FieldType f <> None) (Fields td)))
    as Hnot.
  { intros Hreq. apply list_elem_of_fmap in Hreq as (f & Hwf & Hf).
    apply list_elem_of_filter in Hf as [Hof Hf].
    apply list_elem_of_filter in Hf as [Htf Hf].
    by apply (Hfree f Hf Htf Hof). }
  split; [done|]. split; [|split].
  - rewrite Hd, <- Hw. apply elem_of_union_r, elem_of_list_to_set.
    apply list_elem_of_fmap_2, list_elem_of_filter. split; [|done]. by rewrite Hty.
  - by rewrite Hr.
  - intros m Em. apply (structExample_keys h k Hp) in Em.
    apply not_elem_of_dom. rewrite Em. rewrite dom_empty_L.
    intros Hk. apply elem_of_union in Hk as [Hk|Hk]; [set_solver|].
    by apply elem_of_list_to_set in Hk.
Qed.

Lemma json_dash_field_witness :
  exists g s,
    generateStructSchema (GenerateSchema accountHeap 1) ∅ accountType = Ok (g, s)
    /\ extractJSONTag (Some (dashLiteral ",omitempty" " xml:secret")) = ("", true)
    /\ "Secret" ∈ dom (Properties s)
    /\ ("Secret" ∉ Required s)
    /\ forall m, generateStructExample (generateExample accountHeap 1) accountType
                 = Ok m -> m !! "Secret" = None.
Proof.
  destruct (generateStructSchema (GenerateSchema accountHeap 1) ∅ accountType)
    as [[g s]| |] eqn:E; [|vm_compute in E; discriminate E..].
  exists g, s. split; [reflexivity|].
  apply (json_dash_field_is_optional_property accountHeap 1 1 ∅ g accountType s
           (mkASTField ["Secret"] (Ident "string")
                       (Some (dashLiteral ",omitempty" " xml:secret")))
           ",omitempty" " xml:secret" 0
           (mkField "Secret" (Some 0) "" true false)).
  - reflexivity.
  - reflexivity.
  - reflexivity.
  - vm_compute. left.
  - right. left.
  - intros f Hf Hty Ho. simpl in Hf.
    apply elem_of_cons in Hf as [->|Hf]; [discriminate|].
    apply elem_of_cons in Hf as [->|Hf]; [discriminate Ho|]. inversion Hf.
  - exact accountHeap_pointers.
  - exact E.
Defined.

(** The same tag written as an interpreted string literal,
    ["json:\"-\""], as [ast.BasicLit.Value] holds it: with its double
    quotes and backslashes. *)
Definition interpretedDashTag : string :=
  String dquote ("json:\" +:+ String dquote ("-\" +:+ String dquote (String dquote ""))).

(** [type Account struct { Login string; Secret Token `json:"-"`;
    Pin string "json:\"-\"" }] in a package that declares no [Token]. *)
Definition vaultFields : list Field :=
  [ mkASTField ["Login"] (Ident "string") None;
    mkASTField ["Secret"] (Ident "Token") (Some dashTag);
    mkASTField ["Pin"] (Ident "string") (Some interpretedDashTag) ].

(** C10, counterexample. [Secret] carries [`json:"-"`] and its type is not
    found: it is no property of the schema at all.  [Pin] carries the same
    tag written as an interpreted string: the tag is not recognized, and
    [Pin] is required. *)
Lemma json_dash_field_left_out_or_required :
  exists st g s,
    processStructDeclaration "Account" "p" vaultFields (freshStore "p") = Ok st
    /\ GenerateSchema (Heap st) 2 ∅ (Some 0) = Ok (g, Some s)
    /\ ("Secret" ∉ dom (Properties s))
    /\ extractJSONTag (Some interpretedDashTag) = ("", false)
    /\ "Pin" ∈ Required s.
Proof.
  destruct (processStructDeclaration "Account" "p" vaultFields (freshStore "p"))
    as [st| |] eqn:Est; [|vm_compute in Est; discriminate Est..].
  vm_compute in Est. injection Est as <-.
  eexists _, _, _. split; [reflexivity|].
  split; [vm_compute; reflexivity|].
  split; [|split; [reflexivity|]].
  - vm_compute. intros H. discriminate H.
  - vm_compute. right. left.
Qed.

(** ** Fields whose type is not found *)

Lemma evolves_Fields (td td' : TypeDefinition) :
  evolves td td' -> Fields td' = Fields td.
Proof. by intros [->| ->]. Qed.

(** C2 (as amended). When [ResolvePackages] returns, every type registered
    in any package has [IsResolved] set; every definition has the fields it
    had, with the types they had, so a field whose type was not found still
    has a nil type; and no definition has been added to the heap. *)
Theorem ResolvePackages_resolves_and_keeps_nil_fields
  (rangeOver : forall A : Type, gmap string A -> list (string * A))
  (fuel : nat) (st st' : store) :
  (forall (A : Type) (m : gmap string A), rangeOver A m ≡ₚ map_to_list m) ->
  ResolvePackages rangeOver fuel st = Ok st' ->
  (forall p info name a,
     Packages (Registry st') !! p = Some info ->
     Types info !! name = Some a ->
     exists td, Heap st' !! a = Some td /\ IsResolved td = true)
  /\ (forall b td, Heap st !! b = Some td ->
        exists td', Heap st' !! b = Some td' /\ Fields td' = Fields td)
  /\ length (Heap st') = length (Heap st).
Proof.
  intros Hperm E.
  apply (ResolvePackages_spec rangeOver Hperm) in E as (Hh & Hr & Hall).
  split; [exact Hall|]. split; [|symmetry; by eapply Forall2_length].
  intros b td Hb.
  destruct (heapEvolves_lookup _ _ _ _ Hh Hb) as (td' & Hb' & Hev).
  exists td'. split; [exact Hb'|]. by apply evolves_Fields.
Qed.

(** [type Item struct { Tags Labels }] in a package that declares no
    [Labels]. *)
Definition itemFields : list Field := [mkASTField ["Tags"] (Ident "Labels") None].

Lemma ResolvePackages_keeps_nil_witness :
  exists st st',
    processStructDeclaration "Item" "shop" itemFields (freshStore "shop") = Ok st
    /\ ResolvePackages (fun A => map_to_list) 2 st = Ok st'
    /\ (forall p info name a,
          Packages (Registry st') !! p = Some info ->
          Types info !! name = Some a ->
          exists td, Heap st' !! a = Some td /\ IsResolved td = true)
    /\ (forall b td, Heap st !! b = Some td ->
          exists td', Heap st' !! b = Some td' /\ Fields td' = Fields td)
    /\ length (Heap st') = length (Heap st).
Proof.
  destruct (processStructDeclaration "Item" "shop" itemFields (freshStore "shop"))
    as [st| |] eqn:Est; [|vm_compute in Est; discriminate Est..].
  destruct (ResolvePackages (fun A => map_to_list) 2 st) as [st'| |] eqn:E;
    [|vm_compute in Est; injection Est as <-; vm_compute in E; discriminate E..].
  exists st, st'. split; [reflexivity|]. split; [exact E|].
  apply (ResolvePackages_resolves_and_keeps_nil_fields (fun A => map_to_list) 2
           st st'); [reflexivity|exact E].
Defined.

(** C2, counterexample. [Item] is registered and resolved, and the type of
    its field [Tags], which no package declares, is nil; the heap holds
    [Item] alone. *)
Lemma ResolvePackages_leaves_unknown_field_nil :
  exists st st' td,
    processStructDeclaration "Item" "shop" itemFields (freshStore "shop") = Ok st
    /\ ResolvePackages (fun A => map_to_list) 2 st = Ok st'
    /\ (LookupType "Item" (Registry st')).2 = Some 0
    /\ Heap st' !! 0 = Some td
    /\ IsResolved td = true
    /\ FieldName <$> Fields td = ["Tags"]
    /\ FieldType <$> Fields td = [None]
    /\ length (Heap st') = 1.
Proof.
  destruct (processStructDeclaration "Item" "shop" itemFields (freshStore "shop"))
    as [st| |] eqn:Est; [|vm_compute in Est; discriminate Est..].
  vm_compute in Est. injection Est as <-.
  eexists _, _, _. split; [reflexivity|].
  split; [vm_compute; reflexivity|].
  split; [vm_compute; reflexivity|].
  split; [reflexivity|]. repeat split.
Qed.

(** ** What the tracker records, and what the analyzer reports *)

(** C5 (as amended). [trackAssignment] on [name = e] or [name := e]
    completes; when the type of [e] is determined the entry of [name]
    becomes that type, and when it is not the scope is left as it was: no
    entry is recorded for [name], and an earlier entry stays. *)
Theorem trackAssignment_records_determined_types_only
  (name : string) (tok : token) (e : Expr) (t t1 : VariableTracker) (p : ptr) :
  tok = DEFINE \/ tok = ASSIGN ->
  resolveExpressionType e t = Ok (t1, p) ->
  exists t',
    trackAssignment [Ident name] tok [e] t = Ok t'
    /\ Variables t'
       = match p with
         | Some ty => <[name := mkVar name ty (isPointerType (Some e))]> (Variables t)
         | None => Variables t
         end.
Proof.
  intros Htok E. unfold trackAssignment.
  rewrite decide_False by (intros [H1 H2]; destruct Htok; done).
  simpl. rewrite E. simpl.
  apply resolveExpressionType_Variables in E.
  destruct p as [ty|]; simpl; eexists; (split; [reflexivity|]); simpl; by rewrite E.
Qed.

Lemma trackAssignment_records_witness :
  exists t',
    trackAssignment [Ident "x"] ASSIGN [CompositeLit (Some (Ident "B")) []] abTracker
    = Ok t'
    /\ Variables t'
       = <[ "x" := mkVar "x" 1 (isPointerType (Some (CompositeLit (Some (Ident "B")) []))) ]>
           (Variables abTracker).
Proof.
  apply (trackAssignment_records_determined_types_only "x" ASSIGN
           (CompositeLit (Some (Ident "B")) []) abTracker
           (withWorld (World abTracker) abTracker) (Some 1)).
  - by right.
  - vm_compute. reflexivity.
Defined.

(** C4 (as amended). The whole body is tracked before any call site is
    analyzed: the type reported for [x] at a call site [c.JSON(code, x)],
    wherever the call site stands in the body, is the type that [x] has in
    the scope at function exit, and nothing is reported when [x] has none
    there. *)
Theorem report_at_call_site_is_exit_type
  (funcDecl : FuncDecl) (t tEnd : VariableTracker)
  (before after : list (Expr * list Expr)) (a1 : ResponseAnalyzer)
  (code : Expr) (x : string) :
  TrackFunction funcDecl t = Ok tEnd ->
  match Body funcDecl with
  | Some l => stmtCalls (BlockStmt l)
  | None => []
  end = before ++ (SelectorExpr (Ident "c") "JSON", [code; Ident x]) :: after ->
  forEach analyzeCall (mkAnalyzer tEnd []) before = Ok a1 ->
  analyzeResponses funcDecl t
  = forEach analyzeCall
      (mkAnalyzer (Tracker a1)
         (Responses a1 ++ match GetVariableType x tEnd with
                          | Some ty => [ty]
                          | None => []
                          end))
      after.
Proof.
  intros Etrack Hbody Ebefore.
  unfold analyzeResponses. rewrite Etrack. cbn [mbind result_bind].
  unfold AnalyzeHandler. cbn [Tracker]. rewrite Hbody, forEach_app, Ebefore.
  cbn [mbind result_bind forEach analyzeCall].
  unfold checkJSONResponseMethod. cbn [isContextName isJSONMethod negb].
  change (isContextName "c") with true. change (isJSONMethod "JSON") with true.
  cbn [negb resolveResponseType mbind result_bind].
  assert (Variables (Tracker a1) = Variables tEnd) as Hv.
  { revert Ebefore.
    apply (forEach_invariant
             (fun a => Variables (Tracker a) = Variables tEnd)); [|done].
    intros b [fn cargs] b' _ Hb Eb. unfold analyzeCall in Eb.
    destruct fn as [|y sel| | | | | | | | | |]; try (by simplify_eq).
    destruct y; try (by simplify_eq).
    apply checkJSONResponseMethod_scope in Eb as [Hv' _]. congruence. }
  unfold GetVariableType. rewrite Hv.
  destruct (Variables tEnd !! x) as [v|]; simpl; [reflexivity|].
  rewrite app_nil_r. by destruct a1.
Qed.

Lemma report_at_call_site_witness :
  exists tEnd,
    TrackFunction reassignBeforeUse abTracker = Ok tEnd
    /\ GetVariableType "x" tEnd = Some 1
    /\ analyzeResponses reassignBeforeUse abTracker
       = forEach analyzeCall
           (mkAnalyzer (Tracker (mkAnalyzer tEnd []))
              (Responses (mkAnalyzer tEnd [])
               ++ match GetVariableType "x" tEnd with
                  | Some ty => [ty]
                  | None => []
                  end))
           [].
Proof.
  destruct (TrackFunction reassignBeforeUse abTracker) as [tEnd| |] eqn:E;
    [|vm_compute in E; discriminate E..].
  exists tEnd. split; [reflexivity|].
  split; [vm_compute in E; injection E as <-; reflexivity|].
  apply (report_at_call_site_is_exit_type reassignBeforeUse abTracker tEnd []
           [] (mkAnalyzer tEnd [])
           (SelectorExpr (Ident "http") "StatusOK") "x").
  - exact E.
  - reflexivity.
  - reflexivity.
Defined.

(** ** Running twice *)

Lemma GenerateSchema_again (h : heap) (n m : nat) (g g' : memo) (p : ptr)
  (s : option JSONSchema) :
  n <= m ->
  GenerateSchema h n g p = Ok (g', s) ->
  GenerateSchema h m g' p = Ok (g', s).
Proof.
  intros Hnm E. destruct s as [s|].
  - destruct p as [a|]; [|destruct n; simpl in E; simplify_eq].
    assert (exists td, h !! a = Some td /\ g' !! schemaKey td = Some s)
      as (td & Ha & Hs).
    { destruct n; simpl in E; destruct (h !! a) as [td|]; try discriminate;
        destruct (g !! schemaKey td) eqn:Eg; try discriminate;
        try (simplify_eq; by exists td).
      apply bind_Ok in E as ([g1 [s1|]] & E1 & E2); simplify_eq.
      exists td. by rewrite lookup_insert_eq. }
    destruct m; simpl; by rewrite Ha, Hs.
  - assert (g' = g) as -> by (by eapply GenerateSchema_nil_memo).
    exact (GenerateSchema_fuel_mono h n m g p _ Hnm E).
Qed.

(** C8. After [ResolvePackages] and [GenerateSchema] have returned, a second
    run of [ResolvePackages] returns too and changes no type definition and
    no entry of the package table; a second call of [GenerateSchema] on the
    same type, after that run, returns the schema of the first call and
    leaves the memo as it is; and the example generated after the second run
    is the one generated after the first. *)
Theorem second_run_is_idempotent
  (rangeOver rangeOver' : forall A : Type, gmap string A -> list (string * A))
  (fuel n : nat) (st st1 : store) (g g' : memo) (p : ptr)
  (s : option JSONSchema) :
  (forall (A : Type) (m : gmap string A), rangeOver A m ≡ₚ map_to_list m) ->
  (forall (A : Type) (m : gmap string A), rangeOver' A m ≡ₚ map_to_list m) ->
  ResolvePackages rangeOver fuel st = Ok st1 ->
  GenerateSchema (Heap st1) n g p = Ok (g', s) ->
  exists fuel', forall m, fuel' <= m ->
    exists st2,
      ResolvePackages rangeOver' m st1 = Ok st2
      /\ Heap st2 = Heap st1
      /\ Packages (Registry st2) = Packages (Registry st1)
      /\ forall k, n <= k ->
           GenerateSchema (Heap st2) k g' p = Ok (g', s)
           /\ generateExample (Heap st2) k p = generateExample (Heap st1) k p.
Proof.
  intros Hperm Hperm' E Es.
  destruct (ResolvePackages_again rangeOver rangeOver' fuel
              st st1 Hperm Hperm' E) as [fuel' Hagain].
  exists fuel'. intros m Hm.
  destruct (Hagain m Hm) as (st2 & E2 & Hh & Hp).
  exists st2. split; [exact E2|]. split; [exact Hh|]. split; [exact Hp|].
  intros k Hk. rewrite Hh. split; [|reflexivity].
  by apply (GenerateSchema_again (Heap st1) n k g g' p s).
Qed.

Lemma second_run_is_idempotent_witness :
  exists st1 g' s,
    ResolvePackages (fun A => map_to_list) 3 shopStore = Ok st1
    /\ GenerateSchema (Heap st1) 3 ∅ (Some 2) = Ok (g', s)
    /\ exists fuel', forall m, fuel' <= m ->
         exists st2,
           ResolvePackages (fun A => map_to_list) m st1 = Ok st2
           /\ Heap st2 = Heap st1
           /\ Packages (Registry st2) = Packages (Registry st1)
           /\ forall k, 3 <= k ->
                GenerateSchema (Heap st2) k g' (Some 2) = Ok (g', s)
                /\ generateExample (Heap st2) k (Some 2)
                   = generateExample (Heap st1) k (Some 2).
Proof.
  destruct (ResolvePackages (fun A => map_to_list) 3 shopStore) as [st1| |] eqn:E;
    [|vm_compute in E; discriminate E..].
  destruct (GenerateSchema (Heap st1) 3 ∅ (Some 2)) as [[g' s]| |] eqn:Es;
    [|vm_compute in E; injection E as <-; vm_compute in Es; discriminate Es..].
  exists st1, g', s. split; [reflexivity|]. split; [exact Es|].
  apply (second_run_is_idempotent (fun A => map_to_list) (fun A => map_to_list)
           3 3 shopStore st1 ∅ g' (Some 2) s); [reflexivity|reflexivity|exact E|exact Es].
Defined.
